(** * KubeBlocks: the dependency graph ([pkg/controller/graph], [dag.go]),
    the ownership-rule object collectors ([controllers/view/util.go]) and the
    SidecarDefinition controller ([controllers/apps]).

    A shallow embedding of the Go code and the properties its specification
    states about it.

    Conventions of the embedding.
    - A Go map that is only ranged over, inserted into and deleted from is
      the list of its keys, in the order one [range] yields them.  Go leaves
      that order unspecified, so nothing below depends on it: every theorem
      quantifies over all such lists.  What the map type guarantees (a key
      occurs once) is the predicate [wf].
    - A [map[Vertex]bool] read with the zero-value default is the list of the
      keys currently mapped to [true].
    - Go recursion that may not return is a [Fixpoint] on a fuel argument
      bounding the depth of the recursion, and a loop that may not end one on
      a bound on its turns; [None] means the fuel ran out.
    - In the view package the identity set ([sets.Set]) is a [gset] and the
      identity-to-object map a [gmap]; what the code reaches through its
      client, its scheme and the libraries is the record [Client].
    - In the controller a method that changes the object it is given returns
      the object as it leaves it; what the controller consumes from outside
      is the record [Env]; a Go map keyed by strings is a [gmap], and one
      that may be nil an [option] of it. *)

From Stdlib Require OrdersEx.
From stdpp Require Import base decidable option list relations strings
  countable gmap sorting.

Set Default Proof Using "Type".

Module Graph.

(** ** Data model *)

(** [type Vertex interface{}]: an opaque handle compared by identity; [Nil]
    is the nil interface value. *)
Inductive Vertex : Type :=
  | Nil
  | Ref (addr : nat).

#[global] Instance Vertex_eq_dec : EqDecision Vertex.
Proof. solve_decision. Defined.

(** [type realEdge struct { F, T Vertex }] *)
Record Edge : Type := realEdge { F : Vertex; T : Vertex }.

#[global] Instance Edge_eq_dec : EqDecision Edge.
Proof. solve_decision. Defined.

Definition From (r : Edge) : Vertex := F r.
Definition To (r : Edge) : Vertex := T r.

Definition RealEdge (from to : Vertex) : Edge := {| F := from; T := to |}.

(** The values of Go's [error] that the package produces, and those a
    caller's [WalkFunc] may return. *)
Inductive error : Type :=
  | ErrNoSingleRoot               (* errors.New("no single Root found") *)
  | ErrSelfCycle (v : Vertex)     (* fmt.Errorf("self-cycle found: %v", v) *)
  | ErrCycleFound                 (* errors.New("cycle found") *)
  | ErrCaller (code : nat).       (* any error of the caller's *)

(** [type DAG struct { vertices map[Vertex]Vertex; edges map[Edge]Edge }].
    [edges] is keyed by the edge instance (a pointer), so two entries of the
    list may carry the same endpoints. *)
Record DAG : Type := mkDAG { vertices : list Vertex; edges : list Edge }.

Definition NewDAG : DAG := {| vertices := []; edges := [] |}.

(** The endpoint test every loop over [d.edges] uses. *)
Definition sameEnds (from to : Vertex) (k : Edge) : Prop :=
  From k = from ∧ To k = to.

#[global] Instance sameEnds_dec from to k : Decision (sameEnds from to k).
Proof. unfold sameEnds. apply _. Defined.

Definition touches (v : Vertex) (k : Edge) : Prop := From k = v ∨ To k = v.

#[global] Instance touches_dec v k : Decision (touches v k).
Proof. unfold touches. apply _. Defined.

(** ** Mutation primitives *)

Definition AddVertex (d : DAG) (v : Vertex) : DAG * bool :=
  if decide (v = Nil) then (d, false)
  else ({| vertices := if decide (v ∈ vertices d) then vertices d
                       else vertices d ++ [v];
           edges := edges d |}, true).

Definition RemoveVertex (d : DAG) (v : Vertex) : DAG * bool :=
  if decide (v = Nil) then (d, true)
  else ({| vertices := filter (λ x, x ≠ v) (vertices d);
           edges := filter (λ k, ¬ touches v k) (edges d) |}, true).

Definition Vertices (d : DAG) : list Vertex := vertices d.

Definition AddEdge (d : DAG) (e : Edge) : DAG * bool :=
  if decide (From e = Nil ∨ To e = Nil) then (d, false)
  else if decide (Exists (sameEnds (From e) (To e)) (edges d)) then (d, true)
  else ({| vertices := vertices d; edges := edges d ++ [e] |}, true).

Definition RemoveEdge (d : DAG) (e : Edge) : DAG * bool :=
  ({| vertices := vertices d;
      edges := filter (λ k, ¬ sameEnds (From e) (To e) k) (edges d) |}, true).

Definition Connect (d : DAG) (from to : Vertex) : DAG * bool :=
  if decide (from = Nil ∨ to = Nil) then (d, false)
  else if decide (Exists (sameEnds from to) (edges d)) then (d, true)
  else ({| vertices := vertices d;
           edges := edges d ++ [RealEdge from to] |}, true).

(** ** Adjacency and root *)

Definition outAdj (d : DAG) (v : Vertex) : list Vertex :=
  To <$> filter (λ e, From e = v) (edges d).

Definition inAdj (d : DAG) (v : Vertex) : list Vertex :=
  From <$> filter (λ e, To e = v) (edges d).

Definition roots (d : DAG) : list Vertex :=
  filter (λ n, length (inAdj d n) = 0) (vertices d).

Definition Root (d : DAG) : Vertex :=
  match roots d with
  | [r] => r
  | _ => Nil
  end.

(** ** Loops with an early return *)

(** [for _, v := range vs { if err := f(v); err != nil { return err } }] over
    a state [St]; [None] when a call ran out of fuel. *)
Fixpoint forEach {St : Type} (f : Vertex → St → option (error + St))
    (vs : list Vertex) (s : St) : option (error + St) :=
  match vs with
  | [] => Some (inr s)
  | v :: vs' =>
      match f v s with
      | Some (inr s') => forEach f vs' s'
      | r => r
      end
  end.

(** ** validate *)

(** The state of the closure [walk] inside [validate]: the maps [walked] and
    [marked]. *)
Definition marks : Type := list Vertex * list Vertex.

Fixpoint cycleWalk (d : DAG) (fuel : nat) (v : Vertex) (st : marks)
    : option (error + marks) :=
  match fuel with
  | O => None
  | S fuel' =>
      if decide (v ∈ st.1) then Some (inr st)
      else if decide (v ∈ st.2) then Some (inl ErrCycleFound)
      else
        match forEach (cycleWalk d fuel') (outAdj d v) (st.1, v :: st.2) with
        | Some (inr st') => Some (inr (v :: st'.1, filter (λ x, x ≠ v) st'.2))
        | r => r
        end
  end.

(** The first self-loop a [range] over the edges meets. *)
Definition selfCycle (d : DAG) : option Vertex :=
  From <$> head (filter (λ e, From e = To e) (edges d)).

(** [validate]: [Some None] is Go's [nil]; [Some (Some err)] an error. *)
Definition validate (fuel : nat) (d : DAG) : option (option error) :=
  if decide (Root d = Nil) then Some (Some ErrNoSingleRoot)
  else match selfCycle d with
       | Some v => Some (Some (ErrSelfCycle v))
       | None =>
           match forEach (cycleWalk d fuel) (vertices d) ([], []) with
           | None => None
           | Some (inl err) => Some (Some err)
           | Some (inr _) => Some None
           end
       end.

(** ** topologicalOrder *)

Definition adjacent (d : DAG) (reverse : bool) (v : Vertex) : list Vertex :=
  if reverse then outAdj d v else inAdj d v.

(** The closure [walk] inside [topologicalOrder]; its state is the map
    [walked] and the slice [orders].  It has no error path. *)
Definition order_state : Type := list Vertex * list Vertex.

Fixpoint foldWalk (f : Vertex → order_state → option order_state)
    (vs : list Vertex) (s : order_state) : option order_state :=
  match vs with
  | [] => Some s
  | v :: vs' =>
      match f v s with
      | Some s' => foldWalk f vs' s'
      | None => None
      end
  end.

Fixpoint topoWalk (d : DAG) (reverse : bool) (fuel : nat) (v : Vertex)
    (st : order_state) : option order_state :=
  match fuel with
  | O => None
  | S fuel' =>
      if decide (v ∈ st.1) then Some st
      else
        match foldWalk (topoWalk d reverse fuel') (adjacent d reverse v) st with
        | Some st' => Some (v :: st'.1, st'.2 ++ [v])
        | None => None
        end
  end.

Definition topologicalOrder (fuel : nat) (d : DAG) (reverse : bool)
    : option (list Vertex) :=
  snd <$> foldWalk (topoWalk d reverse fuel) (vertices d) ([], []).

(** ** Walks *)

(** [type WalkFunc func(v Vertex) error]: a closure over some state [St] of
    the caller's. *)
Definition WalkFunc (St : Type) : Type := Vertex → St → St * option error.

(** [for _, v := range orders { if err := walkFunc(v); err != nil { return err } }] *)
Fixpoint walkAll {St : Type} (walkFunc : WalkFunc St) (orders : list Vertex)
    (s : St) : St * option error :=
  match orders with
  | [] => (s, None)
  | v :: rest =>
      match walkFunc v s with
      | (s', None) => walkAll walkFunc rest s'
      | (s', Some err) => (s', Some err)
      end
  end.

Definition WalkTopoOrder {St : Type} (fuel : nat) (d : DAG)
    (walkFunc : WalkFunc St) (s : St) : option (St * option error) :=
  match validate fuel d with
  | None => None
  | Some (Some err) => Some (s, Some err)
  | Some None =>
      match topologicalOrder fuel d false with
      | None => None
      | Some orders => Some (walkAll walkFunc orders s)
      end
  end.

Definition WalkReverseTopoOrder {St : Type} (fuel : nat) (d : DAG)
    (walkFunc : WalkFunc St) (s : St) : option (St * option error) :=
  match validate fuel d with
  | None => None
  | Some (Some err) => Some (s, Some err)
  | Some None =>
      match topologicalOrder fuel d true with
      | None => None
      | Some orders => Some (walkAll walkFunc orders s)
      end
  end.

(** A walk function instrumented with a log of the vertices it was invoked
    on (the test suite's external visit counter). *)
Definition logged {St : Type} (walkFunc : WalkFunc St)
    : WalkFunc (St * list Vertex) :=
  λ v s, let '(s', r) := walkFunc v s.1 in ((s', s.2 ++ [v]), r).

(** ** Invariants of the store *)

(** What the two Go maps and the guards of the mutators guarantee: a vertex
    is stored once and is not nil; an edge has no nil endpoint and the
    stored edges differ by endpoint pair. *)
Definition wf (d : DAG) : Prop :=
  NoDup (vertices d) ∧ (Nil ∉ vertices d) ∧
  Forall (λ e, From e ≠ Nil ∧ To e ≠ Nil) (edges d) ∧ NoDup (edges d).

(** Every endpoint of a stored edge is a stored vertex. *)
Definition closed (d : DAG) : Prop :=
  Forall (λ e, From e ∈ vertices d ∧ To e ∈ vertices d) (edges d).

(** [v] has no incoming edge. *)
Definition zeroIn (d : DAG) (v : Vertex) : Prop :=
  ∀ e, e ∈ edges d → To e ≠ v.

(** The edge relation and acyclicity (no vertex reaches itself along one or
    more edges; this excludes self-loops too). *)
Definition edge (d : DAG) (u v : Vertex) : Prop := RealEdge u v ∈ edges d.
Definition acyclic (d : DAG) : Prop := ∀ v, ¬ tc (edge d) v v.

(** [u] occurs strictly before [v] in [l]. *)
Definition before (l : list Vertex) (u v : Vertex) : Prop :=
  ∃ l1 l2 l3, l = l1 ++ u :: l2 ++ v :: l3.

(** The number of stored edges from [a] to [b]. *)
Definition countEdges (d : DAG) (a b : Vertex) : nat :=
  length (filter (sameEnds a b) (edges d)).

(** Exactly one stored vertex has no incoming edge. *)
Definition single_rooted (d : DAG) : Prop :=
  ∃ r, r ∈ vertices d ∧ zeroIn d r ∧
       ∀ v, v ∈ vertices d → zeroIn d v → v = r.

(** Everything a walk can meet: the stored vertices and the targets of the
    stored edges.  Its length bounds the depth of the recursions. *)
Definition nodes (d : DAG) : list Vertex := vertices d ++ (To <$> edges d).

(** A list of finished vertices, latest first: each one was new, and all its
    successors under [adj] had finished before it. *)
Inductive finished (adj : Vertex → list Vertex) : list Vertex → Prop :=
  | finished_nil : finished adj []
  | finished_cons v w :
      finished adj w → v ∉ w → (∀ x, x ∈ adj v → x ∈ w) →
      finished adj (v :: w).

(** The position of [u] in a list of finished vertices, from its end. *)
Fixpoint rank (w : list Vertex) (u : Vertex) : nat :=
  match w with
  | [] => 0
  | x :: w' => if decide (x = u) then S (length w') else rank w' u
  end.

(** What one successful call of [validate]'s closure does to its state:
    [marked] is as before, [walked] has grown at its front by vertices that
    were not marked, and it is still a list of finished vertices. *)
Definition step_ok (d : DAG) (s s' : marks) : Prop :=
  s'.2 = s.2 ∧ s.1 `suffix_of` s'.1 ∧
  (∀ x, x ∈ s'.1 → x ∈ s.1 ∨ ((x ∉ s.2) ∧ x ∈ nodes d)) ∧
  (finished (outAdj d) s.1 → finished (outAdj d) s'.1).

(** The number of nodes not yet on the recursion path. *)
Definition unmarked (d : DAG) (m : list Vertex) : nat :=
  length (filter (λ x, x ∉ m) (nodes d)).

(** A visiting order compatible with [adj]: each vertex was new when it
    was appended, and all of [adj v] stood before [v]. *)
Inductive ordered (adj : Vertex → list Vertex) : list Vertex → Prop :=
  | ordered_nil : ordered adj []
  | ordered_snoc l v :
      ordered adj l → v ∉ l → (∀ u, u ∈ adj v → u ∈ l) →
      ordered adj (l ++ [v]).

(** The state of [topologicalOrder]'s closure is consistent: [walked] marks
    the vertices of [orders], which is a compatible order. *)
Definition order_inv (d : DAG) (reverse : bool) (s : order_state) : Prop :=
  (∀ x, x ∈ s.1 ↔ x ∈ s.2) ∧ ordered (adjacent d reverse) s.2.

(** What one returning call of that closure does to its state; [m] measures
    the vertices and [k] bounds the measure of the newly walked ones. *)
Definition order_ok (d : DAG) (reverse : bool) (m : Vertex → nat) (k : nat)
    (s s' : order_state) : Prop :=
  s.1 `suffix_of` s'.1 ∧ s.2 `prefix_of` s'.2 ∧
  (∀ x, x ∈ s'.1 → x ∈ s.1 ∨ (m x < k ∧ x ∈ vertices d)) ∧
  (order_inv d reverse s → order_inv d reverse s').

(** ** Walks on graphs that need not be closed *)

(** [u] is where the closure of [topologicalOrder] goes next from [v]: an
    incoming neighbour in forward order, an outgoing one in reverse. *)
Definition follows (d : DAG) (reverse : bool) (v u : Vertex) : Prop :=
  u ∈ adjacent d reverse v.

(** Following the walk from [v] one can reach a vertex that lies on a
    cycle. *)
Definition leads_to_cycle (d : DAG) (reverse : bool) (v : Vertex) : Prop :=
  ∃ x, rtc (follows d reverse) v x ∧ tc (follows d reverse) x x.

(** Every vertex the store mentions: the stored ones and both endpoints of
    the stored edges. *)
Definition endpoints (d : DAG) : list Vertex :=
  vertices d ++ (From <$> edges d) ++ (To <$> edges d).

(** What a returning call of the closure of [topologicalOrder] does to its
    state, on any graph: [walked] and [orders] grow, the newly walked
    vertices satisfy [P], and if no walked vertex led to a cycle before,
    none does after and a consistent state stays consistent. *)
Definition walk_ok (d : DAG) (reverse : bool) (P : Vertex → Prop)
    (s s' : order_state) : Prop :=
  s.1 `suffix_of` s'.1 ∧ s.2 `prefix_of` s'.2 ∧
  (∀ y, y ∈ s'.1 → y ∈ s.1 ∨ P y) ∧
  ((∀ y, y ∈ s.1 → ¬ leads_to_cycle d reverse y) →
   (∀ y, y ∈ s'.1 → ¬ leads_to_cycle d reverse y) ∧
   (order_inv d reverse s → order_inv d reverse s')).

(** ** Sample graphs *)

(** The chain 1 -> 2 -> 3 -> 4 -> 5 of the test suite. *)
Definition chain5 : DAG :=
  {| vertices := [Ref 1; Ref 2; Ref 3; Ref 4; Ref 5];
     edges := [RealEdge (Ref 1) (Ref 2); RealEdge (Ref 2) (Ref 3);
               RealEdge (Ref 3) (Ref 4); RealEdge (Ref 4) (Ref 5)] |}.

(** The diamond 1 -> 2, 1 -> 3, 2 -> 4, 3 -> 4, its vertices stored in an
    order that is not topological. *)
Definition diamond : DAG :=
  {| vertices := [Ref 4; Ref 2; Ref 3; Ref 1];
     edges := [RealEdge (Ref 2) (Ref 4); RealEdge (Ref 1) (Ref 3);
               RealEdge (Ref 3) (Ref 4); RealEdge (Ref 1) (Ref 2)] |}.

(** 1 -> 2 -> 3 -> 2: a cycle below the root. *)
Definition twoCycle : DAG :=
  {| vertices := [Ref 1; Ref 2; Ref 3];
     edges := [RealEdge (Ref 1) (Ref 2); RealEdge (Ref 2) (Ref 3);
               RealEdge (Ref 3) (Ref 2)] |}.

(** 1 -> 2 and 2 -> 2. *)
Definition selfLoop : DAG :=
  {| vertices := [Ref 1; Ref 2];
     edges := [RealEdge (Ref 1) (Ref 2); RealEdge (Ref 2) (Ref 2)] |}.

(** Two vertices and no edge. *)
Definition twoRoots : DAG := {| vertices := [Ref 1; Ref 2]; edges := [] |}.

(** 1 -> 2 between stored vertices, and three edges among 8 and 9, which
    were connected but never added as vertices. *)
Definition dangling : DAG :=
  {| vertices := [Ref 1; Ref 2];
     edges := [RealEdge (Ref 1) (Ref 2); RealEdge (Ref 8) (Ref 2);
               RealEdge (Ref 8) (Ref 9); RealEdge (Ref 9) (Ref 8)] |}.

(** 1 -> 2 between stored vertices, and an edge 9 -> 2 from a vertex that
    was connected but never added. *)
Definition strayEdge : DAG :=
  {| vertices := [Ref 1; Ref 2];
     edges := [RealEdge (Ref 1) (Ref 2); RealEdge (Ref 9) (Ref 2)] |}.

(** The address of a vertex, as a measure for the sample graphs. *)
Definition addrOf (v : Vertex) : nat :=
  match v with Nil => 0 | Ref n => n end.

(** A walk function that counts its invocations and fails on [bad]. *)
Definition failOn (bad : Vertex) : WalkFunc nat :=
  λ v n, (S n, if decide (v = bad) then Some (ErrCaller 1) else None).

(** A walk function that counts its invocations and never fails. *)
Definition countCalls : WalkFunc nat := λ v n, (S n, None).

#[global] Instance wf_dec d : Decision (wf d).
Proof. unfold wf. apply _. Defined.

#[global] Instance closed_dec d : Decision (closed d).
Proof. unfold closed. apply _. Defined.

#[global] Instance edge_dec d u v : Decision (edge d u v).
Proof. unfold edge. apply _. Defined.

#[global] Instance zeroIn_dec d v : Decision (zeroIn d v).
Proof.
  refine (cast_if (decide (Forall (λ e, To e ≠ v) (edges d))));
    unfold zeroIn; by rewrite <- Forall_forall.
Defined.

End Graph.

Module View.

(** ** Data model *)

(** [schema.GroupVersion] and [schema.GroupVersionKind] *)
Record GroupVersion : Type := mkGV { gv_Group : string; gv_Version : string }.

Record GroupVersionKind : Type :=
  mkGVK { Group : string; Version : string; Kind : string }.

#[global] Instance GroupVersion_eq_dec : EqDecision GroupVersion.
Proof. solve_decision. Defined.

#[global] Instance GroupVersionKind_eq_dec : EqDecision GroupVersionKind.
Proof. solve_decision. Defined.

(** [gv.WithKind(kind)] and [gvk.GroupVersion()] *)
Definition WithKind (gv : GroupVersion) (kind : string) : GroupVersionKind :=
  {| Group := gv_Group gv; Version := gv_Version gv; Kind := kind |}.

Definition GroupVersionOf (gvk : GroupVersionKind) : GroupVersion :=
  {| gv_Group := Group gvk; gv_Version := Version gvk |}.

(** [viewv1.ObjectType] *)
Record ObjectType : Type := mkType { ot_APIVersion : string; ot_Kind : string }.

(** [corev1.ObjectReference], the fields the code sets. *)
Record ObjectReference : Type := mkReference {
  ref_APIVersion : string;
  ref_Kind : string;
  ref_Namespace : string;
  ref_Name : string;
  ref_UID : string;
  ref_ResourceVersion : string
}.

(** [model.GVKNObjKey]: a group/version/kind and a [client.ObjectKey]. *)
Record GVKNObjKey : Type := mkKey {
  key_GVK : GroupVersionKind;
  key_Namespace : string;
  key_Name : string
}.

#[global] Instance GVKNObjKey_eq_dec : EqDecision GVKNObjKey.
Proof. solve_decision. Defined.

#[global] Instance GVKNObjKey_countable : Countable GVKNObjKey.
Proof.
  apply (inj_countable'
           (λ k, (Group (key_GVK k), Version (key_GVK k), Kind (key_GVK k),
                  key_Namespace k, key_Name k))
           (λ t, mkKey (mkGVK t.1.1.1.1 t.1.1.1.2 t.1.1.2) t.1.2 t.2)).
  by intros [[] ? ?].
Defined.

(** [client.MatchingLabels] is a [map[string]string]. *)
Abbreviation MatchingLabels := (gmap string string).

(** Modelled from the spec: the declarations of [OwnershipRule],
    [OwnedResource] and [OwnershipCriteria] are not among the sources.  A
    rule maps one Primary type to owned resources; each names a Secondary
    type and a criteria, which is a selector criteria (a field path on the
    primary) or a label criteria (a label map), either of which may be
    absent. *)
Record OwnershipCriteria : Type := mkCriteria {
  SelectorCriteria : option string;
  LabelCriteria : option (gmap string string)
}.

Record OwnedResource : Type :=
  mkOwned { Secondary : ObjectType; Criteria : OwnershipCriteria }.

Record OwnershipRule : Type :=
  mkRule { Primary : ObjectType; OwnedResources : list OwnedResource }.

(** [viewv1.ObjectTreeNode]: a primary reference and the subtrees of its
    secondaries, each a pointer. *)
#[warnings="-register-all"]
Inductive ObjectTreeNode : Type :=
  | mkNode (primary : ObjectReference)
           (secondaries : list (option ObjectTreeNode)).

Definition TreePrimary (t : ObjectTreeNode) : ObjectReference :=
  match t with mkNode p _ => p end.

Definition Secondaries (t : ObjectTreeNode) : list (option ObjectTreeNode) :=
  match t with mkNode _ ss => ss end.

(** The values of Go's [error] in this code: those it builds itself, those
    its libraries and the API server return, and a run-time panic. *)
Inductive error : Type :=
  | ErrExternal (msg : string)
  | ErrNotObjectList (gvk : GroupVersionKind)
  | ErrNotObject (gvk : GroupVersionKind)
  | ErrParseMatchingLabels
  | ErrPanic.

#[global] Instance error_eq_dec : EqDecision error.
Proof. solve_decision. Defined.

(** What the code consumes from outside, gathered under [cli]: the scheme
    ([apiutil.GVKForObject], [Scheme().New]), the reader ([List]),
    [meta.ExtractList], the two type assertions, the metadata getters of
    [client.Object], apimachinery's [schema.ParseGroupVersion] and
    [GroupVersion.String], and [parseSelector] and [parseLabels] of this
    package, which are not among the sources. *)
Record Client (Object RuntimeObject ObjectList : Type) : Type := mkClient {
  ParseGroupVersion : string → error + GroupVersion;
  GroupVersionString : GroupVersion → string;
  parseSelector : Object → string → error + MatchingLabels;
  parseLabels : Object → gmap string string → MatchingLabels;
  GVKForObject : Object → error + GroupVersionKind;
  SchemeNew : GroupVersionKind → error + RuntimeObject;
  asObjectList : RuntimeObject → option ObjectList;
  ListObjects : ObjectList → MatchingLabels → error + ObjectList;
  ExtractList : ObjectList → error + list RuntimeObject;
  asObject : RuntimeObject → option Object;
  GetNamespace : Object → string;
  GetName : Object → string;
  GetUID : Object → string;
  GetResourceVersion : Object → string
}.

Arguments ParseGroupVersion {_ _ _} _ _.
Arguments GroupVersionString {_ _ _} _ _.
Arguments parseSelector {_ _ _} _ _ _.
Arguments parseLabels {_ _ _} _ _ _.
Arguments GVKForObject {_ _ _} _ _.
Arguments SchemeNew {_ _ _} _ _.
Arguments asObjectList {_ _ _} _ _.
Arguments ListObjects {_ _ _} _ _ _.
Arguments ExtractList {_ _ _} _ _.
Arguments asObject {_ _ _} _ _.
Arguments GetNamespace {_ _ _} _ _.
Arguments GetName {_ _ _} _ _.
Arguments GetUID {_ _ _} _ _.
Arguments GetResourceVersion {_ _ _} _ _.

(** The accumulators of [getObjectsFromCache] and its waiting list. *)
Record work (Object : Type) : Type := mkWork {
  waitingList : list Object;
  objectSet : gset GVKNObjKey;
  objectMap : gmap GVKNObjKey Object
}.

Arguments mkWork {_} _ _ _.
Arguments waitingList {_} _.
Arguments objectSet {_} _.
Arguments objectMap {_} _.

Section view.
Context {Object RuntimeObject ObjectList : Type}.
Context (cli : Client Object RuntimeObject ObjectList).

Definition objectTypeToGVK (objectType : option ObjectType)
    : error + option GroupVersionKind :=
  match objectType with
  | None => inr None
  | Some objectType =>
      match ParseGroupVersion cli (ot_APIVersion objectType) with
      | inl err => inl err
      | inr gv => inr (Some (WithKind gv (ot_Kind objectType)))
      end
  end.

Definition objectReferenceToRef (reference : option ObjectReference)
    : error + option GVKNObjKey :=
  match reference with
  | None => inr None
  | Some reference =>
      match ParseGroupVersion cli (ref_APIVersion reference) with
      | inl err => inl err
      | inr gv =>
          inr (Some {| key_GVK := WithKind gv (ref_Kind reference);
                       key_Namespace := ref_Namespace reference;
                       key_Name := ref_Name reference |})
      end
  end.

(** [objectReferenceToType] and [objectRefToType] read the fields of their
    pointer without a nil check: a nil pointer is a run-time panic. *)
Definition objectReferenceToType (objectRef : option ObjectReference)
    : error + ObjectType :=
  match objectRef with
  | None => inl ErrPanic
  | Some objectRef =>
      inr {| ot_APIVersion := ref_APIVersion objectRef;
             ot_Kind := ref_Kind objectRef |}
  end.

Definition objectRefToReference (objectRef : GVKNObjKey)
    (uid resourceVersion : string) : ObjectReference :=
  {| ref_APIVersion :=
       GroupVersionString cli (GroupVersionOf (key_GVK objectRef));
     ref_Kind := Kind (key_GVK objectRef);
     ref_Namespace := key_Namespace objectRef;
     ref_Name := key_Name objectRef;
     ref_UID := uid;
     ref_ResourceVersion := resourceVersion |}.

Definition objectRefToType (objectRef : option GVKNObjKey)
    : error + ObjectType :=
  match objectRef with
  | None => inl ErrPanic
  | Some objectRef =>
      inr {| ot_APIVersion :=
               GroupVersionString cli (GroupVersionOf (key_GVK objectRef));
             ot_Kind := Kind (key_GVK objectRef) |}
  end.

Definition getObjectRef (object : Object) : error + GVKNObjKey :=
  match GVKForObject cli object with
  | inl err => inl err
  | inr gvk =>
      inr {| key_GVK := gvk;
             key_Namespace := GetNamespace cli object;
             key_Name := GetName cli object |}
  end.

Definition getObjectReference (obj : Object) : error + ObjectReference :=
  match GVKForObject cli obj with
  | inl err => inl err
  | inr gvk =>
      inr {| ref_APIVersion := GroupVersionString cli (GroupVersionOf gvk);
             ref_Kind := Kind gvk;
             ref_Namespace := GetNamespace cli obj;
             ref_Name := GetName cli obj;
             ref_UID := GetUID cli obj;
             ref_ResourceVersion := GetResourceVersion cli obj |}
  end.

(** The loop of [getObjectsByGVK] that asserts each listed item to be a
    [client.Object]. *)
Fixpoint castObjects (gvk : GroupVersionKind)
    (runtimeObjects : list RuntimeObject) (objects : list Object)
    : error + list Object :=
  match runtimeObjects with
  | [] => inr objects
  | object :: rest =>
      match asObject cli object with
      | None => inl (ErrNotObject gvk)
      | Some o => castObjects gvk rest (objects ++ [o])
      end
  end.

Definition getObjectsByGVK (gvk : GroupVersionKind) (ml : MatchingLabels)
    : error + list Object :=
  match SchemeNew cli {| Group := Group gvk; Version := Version gvk;
                         Kind := Kind gvk +:+ "List" |} with
  | inl err => inl err
  | inr runtimeObjectList =>
      match asObjectList cli runtimeObjectList with
      | None => inl (ErrNotObjectList gvk)
      | Some objectList =>
          match ListObjects cli objectList ml with
          | inl err => inl err
          | inr objectList =>
              match ExtractList cli objectList with
              | inl err => inl err
              | inr runtimeObjects => castObjects gvk runtimeObjects []
              end
          end
      end
  end.

Definition parseMatchingLabels (obj : Object) (criteria : OwnershipCriteria)
    : error + MatchingLabels :=
  match SelectorCriteria criteria with
  | Some path => parseSelector cli obj path
  | None =>
      match LabelCriteria criteria with
      | Some labels => inr (parseLabels cli obj labels)
      | None => inl ErrParseMatchingLabels
      end
  end.

(** The rule-matching loop, which [getObjectTreeFromCache] and
    [getSecondaryObjectsOf] both run: [rules] accumulates the rules whose
    Primary parses to [objGVK].  [objectTypeToGVK] is given a non-nil
    pointer, so the nil result that [*gvk] would panic on does not arise. *)
Fixpoint matchRules (objGVK : GroupVersionKind)
    (ownershipRules : list OwnershipRule) (rules : list OwnershipRule)
    : error + list OwnershipRule :=
  match ownershipRules with
  | [] => inr rules
  | rule :: rest =>
      match objectTypeToGVK (Some (Primary rule)) with
      | inl err => inl err
      | inr None => inl ErrPanic
      | inr (Some gvk) =>
          matchRules objGVK rest
            (if decide (gvk = objGVK) then rules ++ [rule] else rules)
      end
  end.

(** The inner loop of [getSecondaryObjectsOf], over the owned resources of
    one rule. *)
Fixpoint ownedObjects (obj : Object) (ownedResources : list OwnedResource)
    (secondaries : list Object) : error + list Object :=
  match ownedResources with
  | [] => inr secondaries
  | ownedResource :: rest =>
      match objectTypeToGVK (Some (Secondary ownedResource)) with
      | inl err => inl err
      | inr None => inl ErrPanic
      | inr (Some gvk) =>
          match parseMatchingLabels obj (Criteria ownedResource) with
          | inl err => inl err
          | inr ml =>
              match getObjectsByGVK gvk ml with
              | inl err => inl err
              | inr objects => ownedObjects obj rest (secondaries ++ objects)
              end
          end
      end
  end.

(** Its outer loop, over the matched rules. *)
Fixpoint rulesObjects (obj : Object) (rules : list OwnershipRule)
    (secondaries : list Object) : error + list Object :=
  match rules with
  | [] => inr secondaries
  | rule :: rest =>
      match ownedObjects obj (OwnedResources rule) secondaries with
      | inl err => inl err
      | inr secondaries => rulesObjects obj rest secondaries
      end
  end.

Definition getSecondaryObjectsOf (obj : Object)
    (ownershipRules : list OwnershipRule) : error + list Object :=
  match GVKForObject cli obj with
  | inl err => inl err
  | inr objGVK =>
      match matchRules objGVK ownershipRules [] with
      | inl err => inl err
      | inr rules => rulesObjects obj rules []
      end
  end.

(** The loop of [getObjectTreeFromCache] over the secondaries; [build] is
    the recursive call. *)
Fixpoint subTrees (build : Object → option (error + option ObjectTreeNode))
    (secondaries : list Object) (trees : list (option ObjectTreeNode))
    : option (error + list (option ObjectTreeNode)) :=
  match secondaries with
  | [] => Some (inr trees)
  | secondary :: rest =>
      match build secondary with
      | None => None
      | Some (inl err) => Some (inl err)
      | Some (inr subTree) => subTrees build rest (trees ++ [subTree])
      end
  end.

Fixpoint getObjectTreeFromCache (fuel : nat) (primary : option Object)
    (ownershipRules : list OwnershipRule)
    : option (error + option ObjectTreeNode) :=
  match primary with
  | None => Some (inr None)
  | Some primary =>
      match fuel with
      | O => None
      | S fuel' =>
          match getObjectReference primary with
          | inl err => Some (inl err)
          | inr reference =>
              match GVKForObject cli primary with
              | inl err => Some (inl err)
              | inr primaryGVK =>
                  match matchRules primaryGVK ownershipRules [] with
                  | inl err => Some (inl err)
                  | inr matchedRules =>
                      match getSecondaryObjectsOf primary matchedRules with
                      | inl err => Some (inl err)
                      | inr secondaries =>
                          match subTrees
                                  (λ secondary,
                                     getObjectTreeFromCache fuel'
                                       (Some secondary) ownershipRules)
                                  secondaries [] with
                          | None => None
                          | Some (inl err) => Some (inl err)
                          | Some (inr trees) =>
                              Some (inr (Some (mkNode reference trees)))
                          end
                      end
                  end
              end
          end
      end
  end.

(** One turn of the loop of [getObjectsFromCache] on the item [obj] taken
    from the front of the waiting list, [w] being the state after the
    removal. *)
Definition iteration (ownershipRules : list OwnershipRule) (obj : Object)
    (w : work Object) : error + work Object :=
  match getObjectRef obj with
  | inl err => inl err
  | inr objKey =>
      match getSecondaryObjectsOf obj ownershipRules with
      | inl err => inl err
      | inr secondaries =>
          inr {| waitingList := waitingList w ++ secondaries;
                 objectSet := {[objKey]} ∪ objectSet w;
                 objectMap := <[objKey := obj]> (objectMap w) |}
      end
  end.

(** [for waitingList.Len() > 0 { ... }]; the fuel bounds the number of
    turns. *)
Fixpoint drain (fuel : nat) (ownershipRules : list OwnershipRule)
    (w : work Object)
    : option (error + (gset GVKNObjKey * gmap GVKNObjKey Object)) :=
  match waitingList w with
  | [] => Some (inr (objectSet w, objectMap w))
  | obj :: rest =>
      match fuel with
      | O => None
      | S fuel' =>
          match iteration ownershipRules obj
                  {| waitingList := rest; objectSet := objectSet w;
                     objectMap := objectMap w |} with
          | inl err => Some (inl err)
          | inr w' => drain fuel' ownershipRules w'
          end
      end
  end.

Definition getObjectsFromCache (fuel : nat) (root : Object)
    (ownershipRules : list OwnershipRule)
    : option (error + (gset GVKNObjKey * gmap GVKNObjKey Object)) :=
  drain fuel ownershipRules
    {| waitingList := [root]; objectSet := ∅; objectMap := ∅ |}.

(** ** Notions the properties are stated with *)

(** [s] is one of the secondaries the matcher and the queries return for
    [o]. *)
Definition owns (ownershipRules : list OwnershipRule) (o s : Object) : Prop :=
  ∃ secondaries,
    getSecondaryObjectsOf o ownershipRules = inr secondaries ∧
    s ∈ secondaries.

(** [objects] is what the query for one owned resource of a rule returns
    for the primary [obj]: the Secondary type parses, the criteria give
    matching labels, and the list call succeeds with [objects]. *)
Definition queried (obj : Object) (ownedResource : OwnedResource)
    (objects : list Object) : Prop :=
  ∃ gvk ml,
    objectTypeToGVK (Some (Secondary ownedResource)) = inr (Some gvk) ∧
    parseMatchingLabels obj (Criteria ownedResource) = inr ml ∧
    getObjectsByGVK gvk ml = inr objects.

(** The Primary references occurring in a tree. *)
Fixpoint primaries (t : ObjectTreeNode) : list ObjectReference :=
  match t with
  | mkNode p ss =>
      p :: (fix all (l : list (option ObjectTreeNode)) : list ObjectReference :=
              match l with
              | [] => []
              | None :: l' => all l'
              | Some c :: l' => primaries c ++ all l'
              end) ss
  end.

End view.

(** ** A fixture: one cluster, two pods, one config map per pod *)

(** [schema.ParseGroupVersion] as apimachinery defines it: the empty string
    and "/" are the empty group/version, a string without slash is a
    version, one with a single slash is group/version, and more slashes are
    an error. *)
Definition slash : Ascii.ascii := Ascii.ascii_of_nat 47.

Fixpoint countSlash (s : string) : nat :=
  match s with
  | EmptyString => 0
  | String c s' => (if Ascii.eqb c slash then 1 else 0) + countSlash s'
  end.

Fixpoint splitSlash (s : string) : string * string :=
  match s with
  | EmptyString => (EmptyString, EmptyString)
  | String c s' =>
      if Ascii.eqb c slash then (EmptyString, s')
      else let rest := splitSlash s' in (String c rest.1, rest.2)
  end.

Definition parseGroupVersion (gv : string) : error + GroupVersion :=
  if decide (gv = "" ∨ gv = "/") then inr (mkGV "" "")
  else match countSlash gv with
       | 0 => inr (mkGV "" gv)
       | 1 => let parts := splitSlash gv in inr (mkGV parts.1 parts.2)
       | _ => inl (ErrExternal "unexpected GroupVersion string")
       end.

(** [GroupVersion.String] as apimachinery defines it. *)
Definition groupVersionString (gv : GroupVersion) : string :=
  if decide (gv_Group gv = "") then gv_Version gv
  else gv_Group gv +:+ "/" +:+ gv_Version gv.

Inductive sample : Type := TheCluster | PodA | PodB | ConfA | ConfB.

#[global] Instance sample_eq_dec : EqDecision sample.
Proof. solve_decision. Defined.

Definition world : list sample := [TheCluster; PodA; PodB; ConfA; ConfB].

Definition sampleGVK (o : sample) : GroupVersionKind :=
  match o with
  | TheCluster => mkGVK "apps.kubeblocks.io" "v1alpha1" "Cluster"
  | PodA | PodB => mkGVK "" "v1" "Pod"
  | ConfA | ConfB => mkGVK "" "v1" "ConfigMap"
  end.

Definition sampleName (o : sample) : string :=
  match o with
  | TheCluster => "mycluster"
  | PodA => "pod-a"
  | PodB => "pod-b"
  | ConfA => "conf-a"
  | ConfB => "conf-b"
  end.

Definition sampleLabels (o : sample) : gmap string string :=
  match o with
  | TheCluster => ∅
  | PodA | PodB => {[ "app" := "X" ]}
  | ConfA => {[ "owner" := "pod-a" ]}
  | ConfB => {[ "owner" := "pod-b" ]}
  end.

(** What the scheme instantiates and the reader fills: a typed list, or a
    single object. *)
Inductive sampleRuntime : Type :=
  | ListOf (gvk : GroupVersionKind) (items : list sample)
  | Single (o : sample).

(** Label values naming the primary are replaced by its name. *)
Definition sampleParseLabels (o : sample) (labels : gmap string string)
    : gmap string string :=
  (λ v, if decide (v = "$(primary.name)") then sampleName o else v) <$> labels.

Definition sampleParseSelector (o : sample) (path : string)
    : error + gmap string string :=
  inl (ErrExternal "no such field").

(** A reader over [world]: it lists the objects of the list's element kind
    that carry all the requested labels. *)
Definition sampleClient
    : Client sample sampleRuntime (GroupVersionKind * list sample) :=
  {| ParseGroupVersion := parseGroupVersion;
     GroupVersionString := groupVersionString;
     parseSelector := sampleParseSelector;
     parseLabels := sampleParseLabels;
     GVKForObject := λ o, inr (sampleGVK o);
     SchemeNew := λ gvk,
       if decide (Kind gvk ∈ ["ClusterList"; "PodList"; "ConfigMapList"])
       then inr (ListOf gvk [])
       else inl (ErrExternal "no kind is registered");
     asObjectList := λ r,
       match r with ListOf gvk items => Some (gvk, items) | Single _ => None end;
     ListObjects := λ l ml,
       inr (l.1, filter (λ o, Group (sampleGVK o) = Group l.1 ∧
                              Version (sampleGVK o) = Version l.1 ∧
                              Kind (sampleGVK o) +:+ "List" = Kind l.1 ∧
                              ml ⊆ sampleLabels o) world);
     ExtractList := λ l, inr (Single <$> l.2);
     asObject := λ r,
       match r with Single o => Some o | ListOf _ _ => None end;
     GetNamespace := λ _, "default";
     GetName := sampleName;
     GetUID := λ o, "uid-" +:+ sampleName o;
     GetResourceVersion := λ _, "1" |}.

Definition clusterType : ObjectType := mkType "apps.kubeblocks.io/v1alpha1" "Cluster".
Definition podType : ObjectType := mkType "v1" "Pod".
Definition confType : ObjectType := mkType "v1" "ConfigMap".

Definition byLabel (k v : string) : OwnershipCriteria :=
  {| SelectorCriteria := None; LabelCriteria := Some {[ k := v ]} |}.

(** Cluster owns the pods labelled app=X; a pod owns the config maps labelled
    with its name. *)
Definition sampleRules : list OwnershipRule :=
  [ mkRule clusterType [mkOwned podType (byLabel "app" "X")];
    mkRule podType [mkOwned confType (byLabel "owner" "$(primary.name)")] ].

(** The same, with a second cluster rule that matches the same pods. *)
Definition twoPathRules : list OwnershipRule :=
  mkRule clusterType [mkOwned podType (byLabel "app" "X")] :: sampleRules.

(** A pod owns the pods labelled app=X, itself among them. *)
Definition cyclicRules : list OwnershipRule :=
  [ mkRule podType [mkOwned podType (byLabel "app" "X")] ].

(** Cluster owns the pods; what a pod owns is selected by a field of the
    pod, which the fixture cannot read. *)
Definition brokenRules : list OwnershipRule :=
  [ mkRule clusterType [mkOwned podType (byLabel "app" "X")];
    mkRule podType
      [mkOwned confType
         {| SelectorCriteria := Some "spec.selector"; LabelCriteria := None |}] ].



(** The height of an object of the fixture in the ownership hierarchy of
    [sampleRules]. *)
Definition sampleDepth (o : sample) : nat :=
  match o with
  | TheCluster => 2
  | PodA | PodB => 1
  | ConfA | ConfB => 0
  end.

(** The identity of [PodA]. *)
Definition podAKey : GVKNObjKey := mkKey (mkGVK "" "v1" "Pod") "default" "pod-a".

(** The functions of the package on the fixture. *)
Definition sampleSecondaries : sample → list OwnershipRule → error + list sample :=
  getSecondaryObjectsOf sampleClient.

Definition sampleTree
    : nat → option sample → list OwnershipRule →
      option (error + option ObjectTreeNode) :=
  getObjectTreeFromCache sampleClient.

Definition sampleObjects
    : nat → sample → list OwnershipRule →
      option (error + (gset GVKNObjKey * gmap GVKNObjKey sample)) :=
  getObjectsFromCache sampleClient.

End View.

(** * The SidecarDefinition controller ([controllers/apps]) *)

Module Sidecar.

(** ** Data model *)

(** The values of Go's [error] in this code: those it builds itself and
    those its libraries and the API server return. *)
Inductive error : Type :=
  | ErrExternal (msg : string)
  | ErrOwnerRequired
  | ErrNoMatchedOwner (owner : string)
  | ErrImmutableFields
  | ErrOverlapped (names : gset string)
  | ErrNotUpToDate (name : string)
  | ErrUnavailable (name : string)
  | ErrPanic.

#[global] Instance error_eq_dec : EqDecision error.
Proof. solve_decision. Defined.

(** [appsv1.SidecarDefinition], the fields this controller reads or writes.
    Modelled from their uses: the declarations are not among the sources.
    [spec_Rest] stands for the fields of the spec that only the serialiser
    looks at. *)
Record SidecarDefinitionSpec (Rest : Type) : Type := mkSpec {
  spec_Name : string;
  spec_Owner : string;
  spec_Selectors : list string;
  spec_Rest : Rest
}.

Arguments mkSpec {_} _ _ _ _.
Arguments spec_Name {_} _.
Arguments spec_Owner {_} _.
Arguments spec_Selectors {_} _.
Arguments spec_Rest {_} _.

Record SidecarDefinitionStatus : Type := mkStatus {
  st_ObservedGeneration : Z;
  st_Phase : string;
  st_Message : string;
  st_Owners : string;
  st_Selectors : string
}.

(** [Annotations] is a Go map that may be nil. *)
Record SidecarDefinition (Rest : Type) : Type := mkSidecarDefinition {
  sd_Name : string;
  sd_Generation : Z;
  sd_Annotations : option (gmap string string);
  sd_Spec : SidecarDefinitionSpec Rest;
  sd_Status : SidecarDefinitionStatus
}.

Arguments mkSidecarDefinition {_} _ _ _ _ _.
Arguments sd_Name {_} _.
Arguments sd_Generation {_} _.
Arguments sd_Annotations {_} _.
Arguments sd_Spec {_} _.
Arguments sd_Status {_} _.

(** [ctrl.Result] *)
Record Result : Type := mkResult { Requeue : bool; RequeueAfter : Z }.

(** What one reconciliation sends out: patches of the object, patches of its
    status, the line it prints, the event it records. *)
Inductive call (Rest : Type) : Type :=
  | PatchCall (sidecarDef : SidecarDefinition Rest)
  | StatusPatchCall (sidecarDef : SidecarDefinition Rest)
  | PrintfCall (err : error)
  | CreatedEvent (sidecarDef : SidecarDefinition Rest).

Arguments PatchCall {_} _.
Arguments StatusPatchCall {_} _.
Arguments PrintfCall {_} _.
Arguments CreatedEvent {_} _.

(** How [Reconcile] returns: [intctrlutil.Reconciled()],
    [intctrlutil.CheckedRequeueWithError(err, ...)], or what the deletion
    handling returned. *)
Inductive outcome : Type :=
  | Reconciled
  | CheckedRequeueWithError (err : error)
  | Returned (res : Result) (err : option error).

(** What the code consumes from outside: the two annotation keys and the two
    phases (constants of other packages), [strings.ToLower], the serialiser
    and hash of [specHash] ([json.Marshal], [fnv.New32a] with [Sum32],
    [fmt.Sprintf] with the verb d, [rand.SafeEncodeString]), [err.Error],
    [strings.Split] at the commas, the name checks of package component,
    the list of the names of the ComponentDefinitions, the list of the
    SidecarDefinitions, and the answers of the API server to a patch of the
    object and of its status: an error, or the object as the server has it
    after the patch.  [HandleCRDeletion] gives the object as it leaves it
    and, when it wants [Reconcile] to return, what to return; what it sends
    out itself is not recorded. *)
Record Env (Rest Data : Type) : Type := mkEnv {
  immutableHashAnnotationKey : string;
  SkipImmutableCheckAnnotationKey : string;
  AvailablePhase : string;
  UnavailablePhase : string;
  ToLower : string → string;
  Marshal : SidecarDefinitionSpec Rest → error + Data;
  Sum32 : Data → Z;
  Sprintf_d : Z → string;
  SafeEncodeString : string → string;
  Error : error → string;
  Split : string → list string;
  ValidateDefNameRegexp : string → option error;
  DefNameMatched : string → string → bool;
  ListComponentDefinitions : error + list string;
  ListSidecarDefinitions : error + list (SidecarDefinition Rest);
  HandleCRDeletion :
    SidecarDefinition Rest →
    SidecarDefinition Rest * option (Result * option error);
  Patch : SidecarDefinition Rest → error + SidecarDefinition Rest;
  StatusPatch : SidecarDefinition Rest → error + SidecarDefinition Rest
}.

Arguments immutableHashAnnotationKey {_ _} _.
Arguments SkipImmutableCheckAnnotationKey {_ _} _.
Arguments AvailablePhase {_ _} _.
Arguments UnavailablePhase {_ _} _.
Arguments ToLower {_ _} _ _.
Arguments Marshal {_ _} _ _.
Arguments Sum32 {_ _} _ _.
Arguments Sprintf_d {_ _} _ _.
Arguments SafeEncodeString {_ _} _ _.
Arguments Error {_ _} _ _.
Arguments Split {_ _} _ _.
Arguments ValidateDefNameRegexp {_ _} _ _.
Arguments DefNameMatched {_ _} _ _ _.
Arguments ListComponentDefinitions {_ _} _.
Arguments ListSidecarDefinitions {_ _} _.
Arguments HandleCRDeletion {_ _} _ _.
Arguments Patch {_ _} _ _.
Arguments StatusPatch {_ _} _ _.

Section sidecar.
Context {Rest Data : Type}.
Context (env : Env Rest Data).

(** Field updates of the object. *)
Definition withAnnotations (sidecarDef : SidecarDefinition Rest)
    (annotations : gmap string string) : SidecarDefinition Rest :=
  {| sd_Name := sd_Name sidecarDef;
     sd_Generation := sd_Generation sidecarDef;
     sd_Annotations := Some annotations;
     sd_Spec := sd_Spec sidecarDef;
     sd_Status := sd_Status sidecarDef |}.

Definition withStatus (sidecarDef : SidecarDefinition Rest)
    (status : SidecarDefinitionStatus) : SidecarDefinition Rest :=
  {| sd_Name := sd_Name sidecarDef;
     sd_Generation := sd_Generation sidecarDef;
     sd_Annotations := sd_Annotations sidecarDef;
     sd_Spec := sd_Spec sidecarDef;
     sd_Status := status |}.

Definition withSpec (sidecarDef : SidecarDefinition Rest)
    (spec : SidecarDefinitionSpec Rest) : SidecarDefinition Rest :=
  {| sd_Name := sd_Name sidecarDef;
     sd_Generation := sd_Generation sidecarDef;
     sd_Annotations := sd_Annotations sidecarDef;
     sd_Spec := spec;
     sd_Status := sd_Status sidecarDef |}.

(** [cli.Patch(ctx, sidecarDef, patch)] and [Status().Patch]: the client
    sends the object it is given; when the call succeeds it writes the
    server's answer into that object, and when it fails the object stays as
    it was sent. *)
Definition patched (sent : SidecarDefinition Rest)
    (answer : error + SidecarDefinition Rest)
    : SidecarDefinition Rest * option error :=
  match answer with
  | inl err => (sent, Some err)
  | inr reply => (reply, None)
  end.

(** [v, ok := sidecarDef.Annotations[key]]: reading a nil map finds
    nothing. *)
Definition annotation (sidecarDef : SidecarDefinition Rest) (key : string)
    : option string :=
  match sd_Annotations sidecarDef with
  | None => None
  | Some annotations => annotations !! key
  end.

(** ** Validation *)

Definition validateOwner (sidecarDef : SidecarDefinition Rest) : option error :=
  let owner := spec_Owner (sd_Spec sidecarDef) in
  if decide (String.length owner = 0) then Some ErrOwnerRequired
  else
    match ValidateDefNameRegexp env owner with
    | Some err => Some err
    | None =>
        match ListComponentDefinitions env with
        | inl err => Some err
        | inr items =>
            if decide (Exists (λ compDef, DefNameMatched env compDef owner = true)
                         items)
            then None
            else Some (ErrNoMatchedOwner owner)
        end
    end.

(** The loop of [validateSelectors]. *)
Fixpoint checkSelectors (selectors : list string) : option error :=
  match selectors with
  | [] => None
  | selector :: rest =>
      match ValidateDefNameRegexp env selector with
      | Some err => Some err
      | None => checkSelectors rest
      end
  end.

Definition validateSelectors (sidecarDef : SidecarDefinition Rest)
    : option error :=
  checkSelectors (spec_Selectors (sd_Spec sidecarDef)).

Definition skipImmutableCheck (sidecarDef : SidecarDefinition Rest) : bool :=
  match sd_Annotations sidecarDef with
  | None => false
  | Some annotations =>
      match annotations !! SkipImmutableCheckAnnotationKey env with
      | Some skip => bool_decide (ToLower env skip = "true")
      | None => false
      end
  end.

(** [specHash] returns the empty string along with an error. *)
Definition specHash (sidecarDef : SidecarDefinition Rest)
    : string * option error :=
  match Marshal env (sd_Spec sidecarDef) with
  | inl err => (EmptyString, Some err)
  | inr data =>
      (SafeEncodeString env (Sprintf_d env (Sum32 env data)), None)
  end.

Definition immutableCheck (sidecarDef : SidecarDefinition Rest)
    : option error :=
  if skipImmutableCheck sidecarDef then None
  else
    match specHash sidecarDef with
    | (_, Some err) => Some err
    | (newHashValue, None) =>
        match annotation sidecarDef (immutableHashAnnotationKey env) with
        | Some hashValue =>
            if decide (hashValue ≠ newHashValue) then Some ErrImmutableFields
            else None
        | None => None
        end
    end.

(** The loop of [validate] over its validators. *)
Fixpoint firstError
    (validators : list (SidecarDefinition Rest → option error))
    (sidecarDef : SidecarDefinition Rest) : option error :=
  match validators with
  | [] => None
  | validator :: rest =>
      match validator sidecarDef with
      | Some err => Some err
      | None => firstError rest sidecarDef
      end
  end.

Definition validate (sidecarDef : SidecarDefinition Rest) : option error :=
  match firstError [validateOwner; validateSelectors] sidecarDef with
  | Some err => Some err
  | None => immutableCheck sidecarDef
  end.

(** ** The hash annotation *)

(** [immutableHash]: the object as it leaves it, the patches it sent, and
    the error it returns.  The error of [specHash] is dropped. *)
Definition immutableHash (sidecarDef : SidecarDefinition Rest)
    : SidecarDefinition Rest * list (call Rest) * option error :=
  if skipImmutableCheck sidecarDef then (sidecarDef, [], None)
  else if decide (is_Some (annotation sidecarDef
                             (immutableHashAnnotationKey env)))
  then (sidecarDef, [], None)
  else
    let annotations := default ∅ (sd_Annotations sidecarDef) in
    let sidecarDef' :=
      withAnnotations sidecarDef
        (<[immutableHashAnnotationKey env := (specHash sidecarDef).1]>
           annotations) in
    let '(sidecarDef'', err) := patched sidecarDef' (Patch env sidecarDef') in
    (sidecarDef'', [PatchCall sidecarDef'], err).

(** ** Status *)

(** [status]: the object as it leaves it, the status patch it sent, and the
    error it returns. *)
Definition status (sidecarDef : SidecarDefinition Rest)
    (phase message : string)
    : SidecarDefinition Rest * list (call Rest) * option error :=
  let sidecarDef' :=
    withStatus sidecarDef
      {| st_ObservedGeneration := sd_Generation sidecarDef;
         st_Phase := phase;
         st_Message := message;
         st_Owners := st_Owners (sd_Status sidecarDef);
         st_Selectors := st_Selectors (sd_Status sidecarDef) |} in
  let '(sidecarDef'', err) :=
    patched sidecarDef' (StatusPatch env sidecarDef') in
  (sidecarDef'', [StatusPatchCall sidecarDef'], err).

Definition available (sidecarDef : SidecarDefinition Rest)
    : SidecarDefinition Rest * list (call Rest) * option error :=
  status sidecarDef (AvailablePhase env) EmptyString.

Definition unavailable (sidecarDef : SidecarDefinition Rest)
    (err : option error)
    : SidecarDefinition Rest * list (call Rest) * option error :=
  status sidecarDef (UnavailablePhase env)
    (match err with Some err => Error env err | None => EmptyString end).

(** ** Reconcile *)

(** [got] is what [r.Client.Get] returns for the request.  The result is
    the object as [Reconcile] leaves it (none when the read failed), what it
    sent out itself, and how it returns. *)
Definition Reconcile (got : error + SidecarDefinition Rest)
    : option (SidecarDefinition Rest) * list (call Rest) * outcome :=
  match got with
  | inl err => (None, [], CheckedRequeueWithError err)
  | inr sidecarDef =>
      match HandleCRDeletion env sidecarDef with
      | (sidecarDef, Some (res, err)) => (Some sidecarDef, [], Returned res err)
      | (sidecarDef, None) =>
          if decide (st_ObservedGeneration (sd_Status sidecarDef)
                     = sd_Generation sidecarDef ∧
                     st_Phase (sd_Status sidecarDef) = AvailablePhase env)
          then (Some sidecarDef, [], Reconciled)
          else
            match validate sidecarDef with
            | Some err =>
                match unavailable sidecarDef (Some err) with
                | (sidecarDef, sent, Some err1) =>
                    (Some sidecarDef, PrintfCall err :: sent,
                     CheckedRequeueWithError err1)
                | (sidecarDef, sent, None) =>
                    (Some sidecarDef, PrintfCall err :: sent,
                     CheckedRequeueWithError err)
                end
            | None =>
                match immutableHash sidecarDef with
                | (sidecarDef, sent, Some err) =>
                    (Some sidecarDef, sent, CheckedRequeueWithError err)
                | (sidecarDef, sent, None) =>
                    match available sidecarDef with
                    | (sidecarDef, sent', Some err) =>
                        (Some sidecarDef, sent ++ sent',
                         CheckedRequeueWithError err)
                    | (sidecarDef, sent', None) =>
                        (Some sidecarDef,
                         sent ++ sent' ++ [CreatedEvent sidecarDef],
                         Reconciled)
                    end
                end
            end
      end
  end.

(** [matchedCompDefinition]: the names of the SidecarDefinitions to
    reconcile when a ComponentDefinition changes; [compDef] is its name, or
    nothing when the object is not a ComponentDefinition. *)
Definition matchedCompDefinition (compDef : option string) : list string :=
  match compDef with
  | None => []
  | Some compDefName =>
      match ListSidecarDefinitions env with
      | inl _ => []
      | inr items =>
          sd_Name <$>
            filter (λ sidecarDef,
                      Exists (λ name, DefNameMatched env compDefName name = true)
                        (spec_Owner (sd_Spec sidecarDef)
                           :: spec_Selectors (sd_Spec sidecarDef)))
              items
      end
  end.

(** ** The sidecars of a set of ComponentDefinitions *)

(** [a > b] on Go strings: byte by byte, a proper prefix being smaller. *)
Definition nameGt (a b : string) : Prop :=
  OrdersEx.String_as_OT.compare a b = Gt.

#[global] Instance nameGt_dec a b : Decision (nameGt a b).
Proof. unfold nameGt. apply _. Defined.

Definition nameLe (a b : string) : Prop := ¬ nameGt a b.

#[global] Instance nameLe_dec a b : Decision (nameLe a b).
Proof. unfold nameLe. apply _. Defined.

(** The closure [match]: the ComponentDefinitions of [compDefsSet] that
    the sidecar is hosted by, none unless it owns one of the set too;
    [sets.List] gives them sorted. *)
Definition matchDefs (compDefsSet : gset string)
    (sidecarDef : SidecarDefinition Rest) : error + list string :=
  let owners : gset string :=
    list_to_set (Split env (st_Owners (sd_Status sidecarDef))) in
  let selectors : gset string :=
    list_to_set (Split env (st_Selectors (sd_Status sidecarDef))) in
  let owned := compDefsSet ∩ owners in
  if decide (size owned = 0) then inr []
  else
    let hosted := compDefsSet ∩ selectors in
    if decide (size hosted = 0) then inr []
    else if decide (size (hosted ∩ owned) ≠ 0)
         then inl (ErrOverlapped (hosted ∩ owned))
         else inr (merge_sort nameLe (elements hosted)).

(** The body of the loop over [defs]: under [def], the sidecar is kept for
    its spec name if none was, or if its name is greater than that of the
    one kept. *)
Definition group (sidecarDef : SidecarDefinition Rest)
    (grouped : gmap string (gmap string (SidecarDefinition Rest)))
    (def : string) : gmap string (gmap string (SidecarDefinition Rest)) :=
  let sidecarDefs := default ∅ (grouped !! def) in
  match sidecarDefs !! spec_Name (sd_Spec sidecarDef) with
  | Some o =>
      if decide (nameGt (sd_Name sidecarDef) (sd_Name o))
      then <[def := <[spec_Name (sd_Spec sidecarDef) := sidecarDef]> sidecarDefs]>
             grouped
      else grouped
  | None =>
      <[def := <[spec_Name (sd_Spec sidecarDef) := sidecarDef]> sidecarDefs]>
        grouped
  end.

(** The loop over the listed items. *)
Fixpoint groupAll (compDefsSet : gset string)
    (items : list (SidecarDefinition Rest))
    (grouped : gmap string (gmap string (SidecarDefinition Rest)))
    : error + gmap string (gmap string (SidecarDefinition Rest)) :=
  match items with
  | [] => inr grouped
  | sidecarDef :: rest =>
      match matchDefs compDefsSet sidecarDef with
      | inl err => inl err
      | inr defs =>
          groupAll compDefsSet rest (foldl (group sidecarDef) grouped defs)
      end
  end.

(** The closure [available] of [matchedSidecarDef4CompDefs]. *)
Definition upToDate (sidecarDef : SidecarDefinition Rest) : option error :=
  if decide (sd_Generation sidecarDef
             ≠ st_ObservedGeneration (sd_Status sidecarDef))
  then Some (ErrNotUpToDate (sd_Name sidecarDef))
  else if decide (st_Phase (sd_Status sidecarDef) ≠ AvailablePhase env)
       then Some (ErrUnavailable (sd_Name sidecarDef))
       else None.

(** The loop over the sorted [names] of one group; a name without entry
    would yield a nil pointer. *)
Fixpoint collect (sidecarDefs : gmap string (SidecarDefinition Rest))
    (names : list string) (result : list (SidecarDefinition Rest))
    : error + list (SidecarDefinition Rest) :=
  match names with
  | [] => inr result
  | name :: rest =>
      match sidecarDefs !! name with
      | None => inl ErrPanic
      | Some sidecarDef =>
          match upToDate sidecarDef with
          | Some err => inl err
          | None => collect sidecarDefs rest (result ++ [sidecarDef])
          end
      end
  end.

(** The loop over the groups, in the order [entries] that a [range] over
    the map yields them. *)
Fixpoint collectAll
    (entries : list (string * gmap string (SidecarDefinition Rest)))
    (result : gmap string (list (SidecarDefinition Rest)))
    : error + gmap string (list (SidecarDefinition Rest)) :=
  match entries with
  | [] => inr result
  | (compDef, sidecarDefs) :: rest =>
      match collect sidecarDefs
              (merge_sort nameLe (map_to_list sidecarDefs).*1) [] with
      | inl err => inl err
      | inr defs => collectAll rest (<[compDef := defs]> result)
      end
  end.

Definition matchedSidecarDef4CompDefs (compDefs : list string)
    : error + gmap string (list (SidecarDefinition Rest)) :=
  match ListSidecarDefinitions env with
  | inl err => inl err
  | inr items =>
      match groupAll (list_to_set compDefs) items ∅ with
      | inl err => inl err
      | inr grouped => collectAll (map_to_list grouped) ∅
      end
  end.

(** ** Notions the properties are stated with *)

(** The sidecar is hosted by [def], one of the ComponentDefinitions asked
    for. *)
Definition hosts (compDefs : list string)
    (sidecarDef : SidecarDefinition Rest) (def : string) : Prop :=
  ∃ defs, matchDefs (list_to_set compDefs) sidecarDef = inr defs ∧ def ∈ defs.

(** What the loop over the items maintains, [pairs] being the sidecars
    taken up so far with the ComponentDefinitions hosting them: no group is
    empty; a group holds, under a spec name, a sidecar of that spec name that
    was taken up for the group; and for every sidecar taken up for a group,
    the one the group holds under its spec name has no smaller name. *)
Definition grouped_inv (pairs : list (SidecarDefinition Rest * string))
    (grouped : gmap string (gmap string (SidecarDefinition Rest))) : Prop :=
  (∀ def sidecarDefs, grouped !! def = Some sidecarDefs → sidecarDefs ≠ ∅) ∧
  (∀ def sidecarDefs name e,
     grouped !! def = Some sidecarDefs → sidecarDefs !! name = Some e →
     (e, def) ∈ pairs ∧ spec_Name (sd_Spec e) = name) ∧
  (∀ sidecarDef def,
     (sidecarDef, def) ∈ pairs →
     ∃ sidecarDefs e,
       grouped !! def = Some sidecarDefs ∧
       sidecarDefs !! spec_Name (sd_Spec sidecarDef) = Some e ∧
       nameLe (sd_Name sidecarDef) (sd_Name e)).

End sidecar.

(** ** A fixture *)

(** [strings.Split(s, ",")]: the pieces between the commas, one more than
    there are commas. *)
Fixpoint splitComma (s : string) : list string :=
  match s with
  | EmptyString => [EmptyString]
  | String c s' =>
      if Ascii.eqb c (Ascii.ascii_of_nat 44) then EmptyString :: splitComma s'
      else match splitComma s' with
           | piece :: pieces => String c piece :: pieces
           | [] => [String c EmptyString]
           end
  end.

(** A number written in unary. *)
Fixpoint unary (n : nat) : string :=
  match n with
  | O => EmptyString
  | S n' => String (Ascii.ascii_of_nat 49) (unary n')
  end.

(** A reconciled sidecar [name] of generation 1 with spec name [specName],
    owned by mysql and hosted by the ComponentDefinitions of [selectors]. *)
Definition listedSidecar (name specName selectors : string)
    : SidecarDefinition unit :=
  {| sd_Name := name;
     sd_Generation := 1;
     sd_Annotations := None;
     sd_Spec := mkSpec specName "mysql" [] ();
     sd_Status := mkStatus 1 "Available" "" "mysql" selectors |}.

(** Two versions of the exporter sidecar and a logger. *)
Definition sampleListed : list (SidecarDefinition unit) :=
  [ listedSidecar "exporter-1" "exporter" "redis,postgres";
    listedSidecar "logger-1" "logger" "redis";
    listedSidecar "exporter-2" "exporter" "redis,postgres" ].

(** The spec is serialised to its name and owner; the hash is the length of
    that string, written in unary.  The server answers a patch with the
    object as it was sent. *)
Definition sampleEnv : Env unit string :=
  {| immutableHashAnnotationKey := "apps.kubeblocks.io/immutable-hash";
     SkipImmutableCheckAnnotationKey := "apps.kubeblocks.io/skip-immutable-check";
     AvailablePhase := "Available";
     UnavailablePhase := "Unavailable";
     ToLower := λ s, if decide (s = "True" ∨ s = "TRUE") then "true" else s;
     Marshal := λ spec, inr (spec_Name spec +:+ "/" +:+ spec_Owner spec);
     Sum32 := λ data, Z.of_nat (String.length data);
     Sprintf_d := λ n, unary (Z.to_nat n);
     SafeEncodeString := λ s, s;
     Error := λ _, "error";
     Split := splitComma;
     ValidateDefNameRegexp := λ _, None;
     DefNameMatched := λ compDef name, bool_decide (compDef = name);
     ListComponentDefinitions := inr ["mysql"; "redis"];
     ListSidecarDefinitions := inr sampleListed;
     HandleCRDeletion := λ sidecarDef, (sidecarDef, None);
     Patch := λ sidecarDef, inr sidecarDef;
     StatusPatch := λ sidecarDef, inr sidecarDef |}.

(** A new SidecarDefinition of generation 1, not yet reconciled. *)
Definition sampleSidecar : SidecarDefinition unit :=
  {| sd_Name := "exporter-1";
     sd_Generation := 1;
     sd_Annotations := None;
     sd_Spec := mkSpec "exporter" "mysql" ["redis"] ();
     sd_Status := mkStatus 0 "" "" "" "" |}.

End Sidecar.

Module GraphFacts.
Import Graph.

(** Propositional goals over equations between vertices. *)
Ltac prop_solve := intuition (subst; simpl in *; eauto; congruence).

(** ** The store: invariants are kept, and what the mutators change *)

Lemma wf_NewDAG : wf NewDAG.
Proof.
  repeat split; simpl; try constructor. apply not_elem_of_nil.
Qed.

Lemma wf_AddVertex d v : wf d → wf (AddVertex d v).1.
Proof.
  intros (Hnd & Hnil & Hends & Hdd). unfold AddVertex.
  destruct (decide (v = Nil)) as [->|Hv]; [done|]. simpl.
  repeat split; simpl; try done.
  - destruct (decide (v ∈ vertices d)); [done|].
    apply NoDup_app. repeat split; [done| |apply NoDup_singleton].
    intros x Hx Hxv. apply list_elem_of_singleton in Hxv. by subst.
  - destruct (decide (v ∈ vertices d)); [done|].
    rewrite elem_of_app, list_elem_of_singleton. prop_solve.
Qed.

Lemma wf_RemoveVertex d v : wf d → wf (RemoveVertex d v).1.
Proof.
  intros (Hnd & Hnil & Hends & Hdd). unfold RemoveVertex.
  destruct (decide (v = Nil)); [done|].
  repeat split; simpl.
  - by apply NoDup_filter.
  - rewrite list_elem_of_filter. prop_solve.
  - apply Forall_forall. intros e [_ He]%list_elem_of_filter.
    by apply (proj1 (Forall_forall _ _) Hends).
  - by apply NoDup_filter.
Qed.

Lemma wf_add_edge vs es e :
  wf {| vertices := vs; edges := es |} →
  From e ≠ Nil → To e ≠ Nil → ¬ Exists (sameEnds (From e) (To e)) es →
  wf {| vertices := vs; edges := es ++ [e] |}.
Proof.
  intros (Hnd & Hnil & Hends & Hdd) Hf Ht Hex. repeat split; simpl in *; try done.
  - apply Forall_app. split; [done|]. by repeat constructor.
  - apply NoDup_app. repeat split; [done| |apply NoDup_singleton].
    intros x Hx Hxv. apply list_elem_of_singleton in Hxv. subst. apply Hex.
    apply Exists_exists. by exists e.
Qed.

Lemma wf_AddEdge d e : wf d → wf (AddEdge d e).1.
Proof.
  intros Hwf. unfold AddEdge.
  destruct (decide (From e = Nil ∨ To e = Nil)) as [|Hn]; [done|].
  destruct (decide (Exists _ _)) as [|Hex]; [done|]. simpl.
  destruct d as [vs es]. apply wf_add_edge; prop_solve.
Qed.

Lemma wf_Connect d from to : wf d → wf (Connect d from to).1.
Proof.
  intros Hwf. unfold Connect.
  destruct (decide (from = Nil ∨ to = Nil)) as [|Hn]; [done|].
  destruct (decide (Exists _ _)) as [|Hex]; [done|]. simpl.
  destruct d as [vs es]. apply (wf_add_edge vs es (RealEdge from to)); prop_solve.
Qed.

Lemma wf_RemoveEdge d e : wf d → wf (RemoveEdge d e).1.
Proof.
  intros (Hnd & Hnil & Hends & Hdd). repeat split; simpl; try done.
  - apply Forall_forall. intros k [_ Hk]%list_elem_of_filter.
    by apply (proj1 (Forall_forall _ _) Hends).
  - by apply NoDup_filter.
Qed.

(** In a list without repetition, the elements satisfying a predicate that
    only [x] satisfies are [x] alone. *)
Lemma filter_unique {A} (P : A → Prop) `{∀ x, Decision (P x)} (l : list A) x :
  NoDup l → x ∈ l → P x → (∀ y, y ∈ l → P y → y = x) → filter P l = [x].
Proof.
  induction l as [|a l IH]; intros Hnd Hx HP Huniq.
  - by apply elem_of_nil in Hx.
  - apply NoDup_cons in Hnd as [Ha Hnd].
    destruct (decide (P a)) as [HPa|HPa].
    + rewrite filter_cons_True by done.
      assert (a = x) as -> by (apply Huniq; [left|done]).
      f_equal. apply elem_of_nil_inv. intros y [HPy Hy]%list_elem_of_filter.
      assert (y = x) as -> by (apply Huniq; [by right|done]). done.
    + rewrite filter_cons_False by done.
      apply elem_of_cons in Hx as [->|Hx]; [done|].
      apply IH; try done. intros y Hy. apply Huniq. by right.
Qed.

Lemma filter_two {A} (P : A → Prop) `{∀ x, Decision (P x)} (l : list A) x y :
  x ≠ y → x ∈ l → y ∈ l → P x → P y → 2 ≤ length (filter P l).
Proof.
  induction l as [|a l IH]; intros Hne Hx Hy HPx HPy.
  - by apply elem_of_nil in Hx.
  - apply elem_of_cons in Hx as [->|Hx]; apply elem_of_cons in Hy as [->|Hy];
      try done.
    + rewrite filter_cons_True by done. simpl.
      assert (y ∈ filter P l) as Hin by (by apply list_elem_of_filter).
      destruct (filter P l); [by apply elem_of_nil in Hin|simpl; lia].
    + rewrite filter_cons_True by done. simpl.
      assert (x ∈ filter P l) as Hin by (by apply list_elem_of_filter).
      destruct (filter P l); [by apply elem_of_nil in Hin|simpl; lia].
    + rewrite filter_cons. destruct (decide (P a)); simpl;
        specialize (IH Hne Hx Hy HPx HPy); lia.
Qed.

Lemma inAdj_nil d v : length (inAdj d v) = 0 ↔ zeroIn d v.
Proof.
  unfold inAdj, zeroIn. rewrite length_fmap. split.
  - intros Hlen e He Hto.
    assert (e ∈ filter (λ e, To e = v) (edges d)) as Hin
      by (by apply list_elem_of_filter).
    destruct (filter _ _); [by apply elem_of_nil in Hin|done].
  - intros Hz. destruct (filter _ _) as [|e l] eqn:Heq; [done|].
    assert (e ∈ filter (λ e, To e = v) (edges d)) as [Hto He]%list_elem_of_filter
      by (rewrite Heq; left).
    by destruct (Hz e He).
Qed.

Lemma elem_of_outAdj d u v : v ∈ outAdj d u ↔ edge d u v.
Proof.
  unfold outAdj, edge. rewrite list_elem_of_fmap. split.
  - intros ([f t] & -> & [Hf He]%list_elem_of_filter). simpl in *. by subst.
  - intros He. exists (RealEdge u v). split; [done|].
    by apply list_elem_of_filter.
Qed.

Lemma elem_of_inAdj d u v : u ∈ inAdj d v ↔ edge d u v.
Proof.
  unfold inAdj, edge. rewrite list_elem_of_fmap. split.
  - intros ([f t] & -> & [Hf He]%list_elem_of_filter). simpl in *. by subst.
  - intros He. exists (RealEdge u v). split; [done|].
    by apply list_elem_of_filter.
Qed.

(** ** Connect and AddEdge *)

Lemma countEdges_stored d a b :
  NoDup (edges d) → RealEdge a b ∈ edges d → countEdges d a b = 1.
Proof.
  intros Hnd Hin. unfold countEdges.
  rewrite (filter_unique _ _ (RealEdge a b)); try done.
  intros [f t] _ [Hf Ht]. simpl in *. by subst.
Qed.

Lemma Exists_sameEnds es a b : Exists (sameEnds a b) es ↔ RealEdge a b ∈ es.
Proof.
  rewrite Exists_exists. split.
  - intros ([f t] & Hin & Hf & Ht). simpl in *. by subst.
  - intros Hin. by exists (RealEdge a b).
Qed.

Lemma Connect_stores_edge d a b :
  a ≠ Nil → b ≠ Nil →
  (Connect d a b).2 = true ∧ RealEdge a b ∈ edges (Connect d a b).1.
Proof.
  intros Ha Hb. unfold Connect.
  destruct (decide (a = Nil ∨ b = Nil)); [prop_solve|].
  destruct (decide (Exists _ _)) as [Hex|Hex]; simpl.
  - split; [done|]. by apply Exists_sameEnds.
  - split; [done|]. apply elem_of_app. right. left.
Qed.

(** C3. Calling [Connect a b] twice leaves exactly one stored edge from [a]
    to [b]: both calls succeed and the second changes nothing.  With a nil
    argument [Connect] returns false and the DAG is unchanged. *)
Theorem Connect_twice_one_edge d a b :
  wf d →
  (a ≠ Nil → b ≠ Nil →
     (Connect d a b).2 = true ∧
     Connect (Connect d a b).1 a b = ((Connect d a b).1, true) ∧
     countEdges (Connect d a b).1 a b = 1) ∧
  (a = Nil ∨ b = Nil → Connect d a b = (d, false)).
Proof.
  intros Hwf. split.
  - intros Ha Hb.
    assert (RealEdge a b ∈ edges (Connect d a b).1) as Hin.
    { unfold Connect. destruct (decide (a = Nil ∨ b = Nil)); [prop_solve|].
      destruct (decide (Exists _ _)) as [Hex|Hex]; simpl.
      - by apply Exists_sameEnds.
      - apply elem_of_app. right. left. }
    split; [|split].
    + unfold Connect. destruct (decide (a = Nil ∨ b = Nil)); [prop_solve|].
      by destruct (decide (Exists _ _)).
    + unfold Connect at 1.
      destruct (decide (a = Nil ∨ b = Nil)); [prop_solve|].
      destruct (decide (Exists _ _)) as [|Hex]; [done|].
      destruct Hex. by apply Exists_sameEnds.
    + apply countEdges_stored; [|done].
      by apply (wf_Connect d a b) in Hwf as (_ & _ & _ & ?).
  - intros Hnil. unfold Connect. by destruct (decide (a = Nil ∨ b = Nil)).
Qed.

(** ** RemoveVertex *)

(** C4. After [RemoveVertex v] no stored edge has [v] as an endpoint and
    [v] is not a stored vertex, and nothing else was removed;
    [RemoveVertex Nil] changes nothing. *)
Theorem RemoveVertex_cascades d v :
  (v ≠ Nil →
     (v ∉ vertices (RemoveVertex d v).1) ∧
     (∀ e, e ∈ edges (RemoveVertex d v).1 → From e ≠ v ∧ To e ≠ v) ∧
     (∀ x, x ∈ vertices (RemoveVertex d v).1 ↔ x ∈ vertices d ∧ x ≠ v) ∧
     (∀ e, e ∈ edges (RemoveVertex d v).1 ↔
           e ∈ edges d ∧ From e ≠ v ∧ To e ≠ v)) ∧
  RemoveVertex d Nil = (d, true).
Proof.
  split; [|done]. intros Hv. unfold RemoveVertex.
  destruct (decide (v = Nil)); [done|]. simpl.
  assert (∀ e, e ∈ filter (λ k, ¬ touches v k) (edges d) ↔
               e ∈ edges d ∧ From e ≠ v ∧ To e ≠ v) as Hedges.
  { intros e. rewrite list_elem_of_filter. unfold touches. tauto. }
  split; [|split; [|split]].
  - rewrite list_elem_of_filter. tauto.
  - intros e He. by apply Hedges in He as (_ & ? & ?).
  - intros x. rewrite list_elem_of_filter. tauto.
  - exact Hedges.
Qed.

(** ** Root *)

Lemma roots_spec d v : v ∈ roots d ↔ v ∈ vertices d ∧ zeroIn d v.
Proof.
  unfold roots. rewrite list_elem_of_filter, inAdj_nil. prop_solve.
Qed.

Lemma Root_unique_root d r :
  NoDup (vertices d) → r ∈ vertices d → zeroIn d r →
  (∀ v, v ∈ vertices d → zeroIn d v → v = r) → Root d = r ∧ roots d = [r].
Proof.
  intros Hnd Hr Hz Huniq. unfold Root.
  assert (roots d = [r]) as ->; [|done]. unfold roots.
  apply filter_unique; try done.
  - by apply inAdj_nil.
  - intros y Hy Hlen. apply Huniq; [done|]. by apply inAdj_nil.
Qed.

Lemma Root_two_roots d u v :
  u ≠ v → u ∈ vertices d → v ∈ vertices d → zeroIn d u → zeroIn d v →
  Root d = Nil.
Proof.
  intros Hne Hu Hv Hzu Hzv. unfold Root.
  pose proof (filter_two (λ n, length (inAdj d n) = 0) (vertices d) u v
                Hne Hu Hv) as Hlen.
  fold (roots d) in Hlen.
  destruct (roots d) as [|r [|r' l]]; try done.
  simpl in Hlen. rewrite !inAdj_nil in Hlen. specialize (Hlen Hzu Hzv). lia.
Qed.

(** C5. [Root] returns the vertex with no incoming edge when exactly one
    stored vertex has none, and nil when the vertex set is empty, when no
    stored vertex is without incoming edge, and when two or more are. *)
Theorem Root_unique_or_nil d :
  (wf d → ∀ r, r ∈ vertices d → zeroIn d r →
     (∀ v, v ∈ vertices d → zeroIn d v → v = r) → Root d = r) ∧
  (vertices d = [] → Root d = Nil) ∧
  ((∀ v, v ∈ vertices d → ¬ zeroIn d v) → Root d = Nil) ∧
  (∀ u v, u ≠ v → u ∈ vertices d → v ∈ vertices d →
     zeroIn d u → zeroIn d v → Root d = Nil).
Proof.
  split; [|split; [|split]].
  - intros (Hnd & _) r Hr Hz Huniq. by apply Root_unique_root.
  - intros Hempty. unfold Root, roots. by rewrite Hempty.
  - intros Hnone. unfold Root.
    destruct (roots d) as [|r l] eqn:Heq; [done|].
    assert (r ∈ roots d) as Hin by (rewrite Heq; left).
    apply roots_spec in Hin as [Hr Hz]. by destruct (Hnone r Hr).
  - apply Root_two_roots.
Qed.

(** ** Connect and AddEdge leave the vertex set alone *)

(** C10. [Connect] and [AddEdge] change the edge set only: the stored
    vertices are the same afterwards, so a successful [Connect a b] on a DAG
    holding neither [a] nor [b] stores an edge whose endpoints [Vertices]
    does not list; [AddVertex] is what stores a vertex. *)
Theorem Connect_keeps_vertices d a b e :
  vertices (Connect d a b).1 = vertices d ∧
  vertices (AddEdge d e).1 = vertices d ∧
  (a ≠ Nil → b ≠ Nil → a ∉ vertices d → b ∉ vertices d →
     (Connect d a b).2 = true ∧
     (a ∉ Vertices (Connect d a b).1) ∧ (b ∉ Vertices (Connect d a b).1) ∧
     RealEdge a b ∈ edges (Connect d a b).1 ∧
     ¬ closed (Connect d a b).1 ∧
     a ∈ Vertices (AddVertex (Connect d a b).1 a).1) ∧
  (From e ≠ Nil → To e ≠ Nil → From e ∉ vertices d →
     (AddEdge d e).2 = true ∧ (From e ∉ Vertices (AddEdge d e).1) ∧
     ∃ k, k ∈ edges (AddEdge d e).1 ∧ sameEnds (From e) (To e) k).
Proof.
  assert (vertices (Connect d a b).1 = vertices d) as HC.
  { unfold Connect. destruct (decide (a = Nil ∨ b = Nil)); [done|].
    by destruct (decide (Exists _ _)). }
  assert (vertices (AddEdge d e).1 = vertices d) as HA.
  { unfold AddEdge. destruct (decide (From e = Nil ∨ To e = Nil)); [done|].
    by destruct (decide (Exists _ _)). }
  split; [done|]. split; [done|]. split.
  - intros Ha Hb Hna Hnb.
    destruct (Connect_stores_edge d a b Ha Hb) as [Hok Hin].
    unfold Vertices. rewrite HC. repeat split; try done.
    + intros Hcl. apply (proj1 (Forall_forall _ _) Hcl) in Hin as [Hin _].
      simpl in Hin. by rewrite HC in Hin.
    + unfold AddVertex. destruct (decide (a = Nil)); [done|]. simpl.
      destruct (decide (a ∈ _)); [done|]. apply elem_of_app. right. left.
  - intros Hf Ht Hnf. unfold Vertices. rewrite HA. repeat split; try done.
    + unfold AddEdge. destruct (decide (From e = Nil ∨ To e = Nil)); [prop_solve|].
      by destruct (decide (Exists _ _)).
    + unfold AddEdge. destruct (decide (From e = Nil ∨ To e = Nil)); [prop_solve|].
      destruct (decide (Exists _ _)) as [Hex|Hex]; simpl.
      * by apply Exists_exists in Hex.
      * exists e. split; [|done]. apply elem_of_app. right. left.
Qed.

(** ** Loops *)

Section loops.
Context {St : Type} (f : Vertex → St → option (error + St)).

(** A relation every successful call is in holds across the loop. *)
Lemma forEach_rel (R : relation St) (HR : PreOrder R) vs s s' :
  (∀ v s s', v ∈ vs → f v s = Some (inr s') → R s s') →
  forEach f vs s = Some (inr s') → R s s'.
Proof.
  revert s. induction vs as [|v vs IH]; intros s Hf Hrun; simpl in Hrun.
  - by simplify_eq.
  - destruct (f v s) as [[e|s1]|] eqn:Hv; try done.
    transitivity s1.
    + apply (Hf v); [left|done].
    + apply IH; [|done]. intros x t t' Hx. apply Hf. by right.
Qed.

(** Each element of the list was passed to a call that succeeded. *)
Lemma forEach_each (R : relation St) (HR : PreOrder R) vs s s' :
  (∀ v s s', v ∈ vs → f v s = Some (inr s') → R s s') →
  forEach f vs s = Some (inr s') →
  ∀ v, v ∈ vs → ∃ s1 s2, R s s1 ∧ f v s1 = Some (inr s2) ∧ R s2 s'.
Proof.
  revert s. induction vs as [|v vs IH]; intros s Hf Hrun x Hx; simpl in Hrun.
  - by apply elem_of_nil in Hx.
  - destruct (f v s) as [[e|s1]|] eqn:Hv; try done.
    assert (∀ x t t', x ∈ vs → f x t = Some (inr t') → R t t') as Hf'
      by (intros y t t' Hy; apply Hf; by right).
    apply elem_of_cons in Hx as [->|Hx].
    + exists s, s1. split; [done|]. split; [done|]. by apply (forEach_rel R HR vs).
    + destruct (IH s1 Hf' Hrun x Hx) as (t1 & t2 & H1 & H2 & H3).
      exists t1, t2. split; [|done]. transitivity s1; [|done].
      apply (Hf v); [left|done].
Qed.

(** The loop returns when every call does, under an invariant of the
    state. *)
Lemma forEach_is_Some (I : St → Prop) vs s :
  (∀ v s, v ∈ vs → I s → is_Some (f v s)) →
  (∀ v s s', v ∈ vs → I s → f v s = Some (inr s') → I s') →
  I s → is_Some (forEach f vs s).
Proof.
  revert s. induction vs as [|v vs IH]; intros s Hsome Hinv Hs; simpl.
  - by eexists.
  - destruct (Hsome v s) as [[e|s1] Hv]; [left|done| |]; rewrite Hv.
    + by eexists.
    + apply IH.
      * intros x t Hx. apply Hsome. by right.
      * intros x t t' Hx. apply Hinv. by right.
      * apply (Hinv v s); [left|done|done].
Qed.

(** The loop fails only where a call fails. *)
Lemma forEach_no_error (I : St → Prop) vs s e :
  (∀ v s e, v ∈ vs → I s → f v s ≠ Some (inl e)) →
  (∀ v s s', v ∈ vs → I s → f v s = Some (inr s') → I s') →
  I s → forEach f vs s ≠ Some (inl e).
Proof.
  revert s. induction vs as [|v vs IH]; intros s Hok Hinv Hs; simpl; [done|].
  destruct (f v s) as [[e'|s1]|] eqn:Hv; [| |done].
  - by destruct (Hok v s e'); [left|done|].
  - apply IH.
    + intros x t e' Hx. apply Hok. by right.
    + intros x t t' Hx. apply Hinv. by right.
    + apply (Hinv v s); [left|done|done].
Qed.
End loops.

(** More fuel does not change a result. *)
Lemma forEach_mono {St} (f g : Vertex → St → option (error + St)) vs s r :
  (∀ v s r, f v s = Some r → g v s = Some r) →
  forEach f vs s = Some r → forEach g vs s = Some r.
Proof.
  intros Hfg. revert s. induction vs as [|v vs IH]; intros s Hrun; simpl in *.
  - done.
  - destruct (f v s) as [[e|s1]|] eqn:Hv; try done.
    + by rewrite (Hfg _ _ _ Hv).
    + rewrite (Hfg _ _ _ Hv). by apply IH.
Qed.

(** ** validate: the depth-first search for cycles *)

Lemma filter_ne_id (v : Vertex) (l : list Vertex) : v ∉ l → filter (λ x, x ≠ v) l = l.
Proof.
  induction l as [|a l IH]; intros Hv; [done|].
  apply not_elem_of_cons in Hv as [Hne Hv].
  rewrite filter_cons_True by done. by rewrite IH.
Qed.

Lemma step_ok_preorder d : PreOrder (step_ok d).
Proof.
  split.
  - intros s. repeat split; try done. by left.
  - intros s1 s2 s3 (Hm1 & Hs1 & Hn1 & Hf1) (Hm2 & Hs2 & Hn2 & Hf2).
    repeat split.
    + congruence.
    + by transitivity (s2.1).
    + intros x Hx. destruct (Hn2 x Hx) as [Hx2|Hx2].
      * by apply Hn1.
      * right. by rewrite <- Hm1.
    + intros Hfin. by apply Hf2, Hf1.
Qed.

Lemma outAdj_nodes d v x : x ∈ outAdj d v → x ∈ nodes d.
Proof.
  unfold outAdj, nodes. intros (e & -> & [_ He]%list_elem_of_filter)%list_elem_of_fmap.
  apply elem_of_app. right. by apply list_elem_of_fmap_2.
Qed.

(** A call that returns normally finishes its vertex. *)
Lemma cycleWalk_ok d fuel : ∀ v s s',
  v ∈ nodes d → cycleWalk d fuel v s = Some (inr s') →
  step_ok d s s' ∧ v ∈ s'.1.
Proof.
  induction fuel as [|fuel IH]; intros v s s' Hv Hrun; simpl in Hrun; [done|].
  destruct (decide (v ∈ s.1)) as [Hw|Hw].
  { simplify_eq. split; [|done]. by apply step_ok_preorder. }
  destruct (decide (v ∈ s.2)) as [Hm|Hm]; [done|].
  destruct (forEach _ _ _) as [[e|st]|] eqn:Hloop; simplify_eq.
  assert (∀ x t t', x ∈ outAdj d v →
            cycleWalk d fuel x t = Some (inr t') → step_ok d t t') as Hstep.
  { intros x t t' Hx Hxrun. apply (IH x); [|done]. by eapply outAdj_nodes. }
  pose proof (forEach_rel _ _ (step_ok_preorder d) _ _ _ Hstep Hloop)
    as (Hmk & Hsuf & Hnew & Hfin). simpl in *.
  assert (v ∉ st.1) as Hvst.
  { intros Hin. destruct (Hnew v Hin) as [|[Hn _]]; [done|].
    apply Hn. left. }
  split; [|left]. repeat split; simpl.
  - rewrite Hmk, filter_cons_False by (intros ?; done).
    by apply filter_ne_id.
  - by apply suffix_cons_r.
  - intros x [->|Hx]%elem_of_cons.
    + by right.
    + destruct (Hnew x Hx) as [|[Hn ?]]; [by left|right].
      split; [|done]. intros ?. apply Hn. by right.
  - intros Hf. constructor; [by apply Hfin|done|].
    intros x Hx.
    destruct (forEach_each _ _ (step_ok_preorder d) _ _ _ Hstep Hloop x Hx)
      as (t1 & t2 & _ & Hxrun & (_ & Hsuf2 & _)).
    apply (IH x) in Hxrun as [_ Hin]; [|by eapply outAdj_nodes].
    by eapply elem_of_suffix.
Qed.

Lemma unmarked_cons d m v :
  v ∈ nodes d → v ∉ m → unmarked d (v :: m) < unmarked d m.
Proof.
  unfold unmarked. generalize (nodes d). intros l.
  induction l as [|a l IH]; intros Hv Hm.
  - by apply elem_of_nil in Hv.
  - rewrite !filter_cons.
    destruct (decide (a = v)) as [->|Hne].
    + destruct (decide (v ∉ v :: m)) as [Hn|_]; [destruct Hn; left|].
      destruct (decide (v ∉ m)); [|done]. simpl.
      enough (length (filter (λ x, x ∉ v :: m) l)
              ≤ length (filter (λ x, x ∉ m) l)) by lia.
      clear. induction l as [|b l IH]; [done|]. rewrite !filter_cons.
      destruct (decide (b ∉ v :: m)) as [Hb|Hb];
        destruct (decide (b ∉ m)) as [Hb'|Hb']; simpl; try lia.
      destruct Hb'. intros ?. apply Hb. by right.
    + apply elem_of_cons in Hv as [->|Hv]; [done|]. specialize (IH Hv Hm).
      destruct (decide (a ∉ v :: m)) as [Hb|Hb];
        destruct (decide (a ∉ m)) as [Hb'|Hb']; simpl; try lia.
      destruct Hb'. intros ?. apply Hb. by right.
Qed.

(** The search returns: its depth is bounded by the number of unmarked
    nodes. *)
Lemma cycleWalk_is_Some d fuel : ∀ v s,
  v ∈ nodes d → unmarked d s.2 < fuel → is_Some (cycleWalk d fuel v s).
Proof.
  induction fuel as [|fuel IH]; intros v s Hv Hlt; [lia|]. simpl.
  destruct (decide (v ∈ s.1)); [by eexists|].
  destruct (decide (v ∈ s.2)) as [|Hm]; [by eexists|].
  pose proof (unmarked_cons d _ v Hv Hm) as Hdec.
  destruct (forEach_is_Some (cycleWalk d fuel) (λ t, t.2 = v :: s.2)
              (outAdj d v) (s.1, v :: s.2)) as [[e|st] Hloop]; try done;
    [| |rewrite Hloop; by eexists..].
  - intros x t Hx Ht. apply IH; [by eapply outAdj_nodes|]. rewrite Ht. lia.
  - intros x t t' Hx Ht Hrun.
    apply cycleWalk_ok in Hrun as [(Hmk & _) _]; [|by eapply outAdj_nodes].
    congruence.
Qed.

Lemma cycleWalk_mono d fuel : ∀ fuel' v s r,
  fuel ≤ fuel' → cycleWalk d fuel v s = Some r → cycleWalk d fuel' v s = Some r.
Proof.
  induction fuel as [|fuel IH]; intros fuel' v s r Hle Hrun; [done|].
  destruct fuel' as [|fuel']; [lia|]. simpl in *.
  destruct (decide (v ∈ s.1)); [done|].
  destruct (decide (v ∈ s.2)); [done|].
  destruct (forEach (cycleWalk d fuel) _ _) as [r'|] eqn:Hloop; [|done].
  rewrite (forEach_mono _ (cycleWalk d fuel') _ _ _
             (λ x t q, IH fuel' x t q ltac:(lia)) Hloop).
  done.
Qed.

(** On an acyclic graph the search meets no marked vertex. *)
Lemma cycleWalk_no_error d fuel : acyclic d → ∀ v s e,
  (∀ x, x ∈ s.2 → tc (edge d) x v) → cycleWalk d fuel v s ≠ Some (inl e).
Proof.
  intros Hacyc. induction fuel as [|fuel IH]; intros v s e Hpath; [done|].
  simpl. destruct (decide (v ∈ s.1)); [done|].
  destruct (decide (v ∈ s.2)) as [Hm|Hm].
  { destruct (Hacyc v). by apply Hpath. }
  destruct (forEach _ _ _) as [[e'|st]|] eqn:Hloop; try done.
  exfalso. revert Hloop.
  apply (forEach_no_error _ (λ t, t.2 = v :: s.2)); [| |done].
  - intros x t e'' Hx Ht. apply IH. rewrite Ht.
    apply elem_of_outAdj in Hx.
    intros y [->|Hy]%elem_of_cons; [by apply tc_once|].
    eapply tc_r; [|done]. by apply Hpath.
  - intros x t t' Hx Ht Hrun.
    apply cycleWalk_ok in Hrun as [(Hmk & _) _]; [|by eapply outAdj_nodes].
    congruence.
Qed.

Lemma vertices_nodes d v : v ∈ vertices d → v ∈ nodes d.
Proof. intros Hv. apply elem_of_app. by left. Qed.

Lemma unmarked_le d m : unmarked d m ≤ length (nodes d).
Proof. apply length_filter. Qed.

(** [validate] returns, whatever the graph. *)
Lemma validate_is_Some d fuel :
  length (nodes d) < fuel → is_Some (validate fuel d).
Proof.
  intros Hfuel. unfold validate.
  destruct (decide (Root d = Nil)); [by eexists|].
  destruct (selfCycle d); [by eexists|].
  destruct (forEach_is_Some (cycleWalk d fuel) (λ t, t.2 = [])
              (vertices d) ([], [])) as [[e|st] Hloop]; try done;
    [| |rewrite Hloop; by eexists..].
  - intros x t Hx Ht. apply cycleWalk_is_Some; [by apply vertices_nodes|].
    pose proof (unmarked_le d t.2). lia.
  - intros x t t' Hx Ht Hrun.
    apply cycleWalk_ok in Hrun as [(Hmk & _) _]; [|by apply vertices_nodes].
    congruence.
Qed.

Lemma validate_mono d fuel fuel' r :
  fuel ≤ fuel' → validate fuel d = Some r → validate fuel' d = Some r.
Proof.
  intros Hle. unfold validate.
  destruct (decide (Root d = Nil)); [done|].
  destruct (selfCycle d); [done|].
  destruct (forEach (cycleWalk d fuel) _ _) as [q|] eqn:Hloop; [|done].
  rewrite (forEach_mono _ (cycleWalk d fuel') _ _ _
             (λ x t q, cycleWalk_mono d fuel fuel' x t q Hle) Hloop).
  done.
Qed.

(** When [validate] accepts, its search has finished every stored vertex. *)
Lemma validate_finished d fuel :
  validate fuel d = Some None →
  Root d ≠ Nil ∧ selfCycle d = None ∧
  ∃ w, finished (outAdj d) w ∧ (∀ v, v ∈ vertices d → v ∈ w) ∧
       (∀ v, v ∈ w → v ∈ nodes d).
Proof.
  unfold validate. destruct (decide (Root d = Nil)); [done|].
  destruct (selfCycle d); [done|].
  destruct (forEach _ _ _) as [[e|st]|] eqn:Hloop; try done. intros _.
  split; [done|]. split; [done|]. exists st.1.
  assert (∀ x t t', x ∈ vertices d →
            cycleWalk d fuel x t = Some (inr t') → step_ok d t t') as Hstep.
  { intros x t t' Hx Hxrun. apply (cycleWalk_ok d fuel x); [|done].
    by apply vertices_nodes. }
  pose proof (forEach_rel _ _ (step_ok_preorder d) _ _ _ Hstep Hloop)
    as (_ & _ & Hnew & Hfin). simpl in *.
  split; [apply Hfin; constructor|]. split.
  - intros v Hv.
    destruct (forEach_each _ _ (step_ok_preorder d) _ _ _ Hstep Hloop v Hv)
      as (t1 & t2 & _ & Hxrun & (_ & Hsuf2 & _)).
    apply cycleWalk_ok in Hxrun as [_ Hin]; [|by apply vertices_nodes].
    by eapply elem_of_suffix.
  - intros v Hv. destruct (Hnew v Hv) as [Hnil|[_ ?]]; [|done].
    by apply elem_of_nil in Hnil.
Qed.

(** ** Finished lists rank the vertices *)

Section finished.
Context (adj : Vertex → list Vertex).

Lemma finished_NoDup w : finished adj w → NoDup w.
Proof. induction 1; constructor; done. Qed.

Lemma finished_closed w u x : finished adj w → u ∈ w → x ∈ adj u → x ∈ w.
Proof.
  induction 1 as [|v w Hfin IH Hv Hadj]; intros Hu Hx.
  - by apply elem_of_nil in Hu.
  - apply elem_of_cons in Hu as [->|Hu]; right; [by apply Hadj|by apply IH].
Qed.

Lemma rank_le w u : rank w u ≤ length w.
Proof.
  induction w as [|x w IH]; simpl; [done|]. destruct (decide (x = u)); lia.
Qed.

(** A vertex finishes after all its successors. *)
Lemma finished_rank w u x :
  finished adj w → u ∈ w → x ∈ adj u → rank w x < rank w u.
Proof.
  induction 1 as [|v w Hfin IH Hv Hadj]; intros Hu Hx.
  - by apply elem_of_nil in Hu.
  - simpl. destruct (decide (v = u)) as [->|Hne].
    + destruct (decide (u = x)) as [->|_].
      * destruct Hv. by apply Hadj.
      * pose proof (rank_le w x). lia.
    + apply elem_of_cons in Hu as [->|Hu]; [done|].
      destruct (decide (v = x)) as [->|_].
      * destruct Hv. by eapply finished_closed.
      * by apply IH.
Qed.
End finished.

(** An acyclic graph with one root passes [validate]. *)
Lemma validate_accepts d fuel :
  wf d → single_rooted d → acyclic d → length (nodes d) < fuel →
  validate fuel d = Some None.
Proof.
  intros (Hnd & Hnil & _) (r & Hr & Hz & Huniq) Hacyc Hfuel.
  destruct (validate_is_Some d fuel Hfuel) as [res Hres].
  rewrite Hres. f_equal. revert Hres. unfold validate.
  destruct (decide (Root d = Nil)) as [Hroot|_].
  { destruct (Root_unique_root d r) as [Hrr _]; try done.
    rewrite Hrr in Hroot. by subst. }
  destruct (selfCycle d) as [v|] eqn:Hself.
  { unfold selfCycle in Hself.
    destruct (head _) as [e|] eqn:Hhead; [|done].
    apply head_Some_elem_of, list_elem_of_filter in Hhead as [Heq He].
    destruct (Hacyc (From e)). apply tc_once. unfold edge.
    destruct e as [f t]. simpl in *. by subst. }
  destruct (forEach _ _ _) as [[e|st]|] eqn:Hloop;
    [|intros; by simplify_eq..].
  exfalso. revert Hloop.
  apply (forEach_no_error _ (λ t, t.2 = [])); [| |done].
  - intros x t e' Hx Ht. apply cycleWalk_no_error; [done|]. rewrite Ht.
    intros y Hy. by apply elem_of_nil in Hy.
  - intros x t t' Hx Ht Hrun.
    apply cycleWalk_ok in Hrun as [(Hmk & _) _]; [|by apply vertices_nodes].
    congruence.
Qed.

(** ** topologicalOrder *)

Section fold.
Context (f : Vertex → order_state → option order_state).

Lemma foldWalk_rel (R : relation order_state) (HR : PreOrder R) vs s s' :
  (∀ v s s', v ∈ vs → f v s = Some s' → R s s') →
  foldWalk f vs s = Some s' → R s s'.
Proof.
  revert s. induction vs as [|v vs IH]; intros s Hf Hrun; simpl in Hrun.
  - by simplify_eq.
  - destruct (f v s) as [s1|] eqn:Hv; [|done].
    transitivity s1.
    + apply (Hf v); [left|done].
    + apply IH; [|done]. intros x t t' Hx. apply Hf. by right.
Qed.

Lemma foldWalk_each (R : relation order_state) (HR : PreOrder R) vs s s' :
  (∀ v s s', v ∈ vs → f v s = Some s' → R s s') →
  foldWalk f vs s = Some s' →
  ∀ v, v ∈ vs → ∃ s1 s2, R s s1 ∧ f v s1 = Some s2 ∧ R s2 s'.
Proof.
  revert s. induction vs as [|v vs IH]; intros s Hf Hrun x Hx; simpl in Hrun.
  - by apply elem_of_nil in Hx.
  - destruct (f v s) as [s1|] eqn:Hv; [|done].
    assert (∀ x t t', x ∈ vs → f x t = Some t' → R t t') as Hf'
      by (intros y t t' Hy; apply Hf; by right).
    apply elem_of_cons in Hx as [->|Hx].
    + exists s, s1. split; [done|]. split; [done|].
      by apply (foldWalk_rel R HR vs).
    + destruct (IH s1 Hf' Hrun x Hx) as (t1 & t2 & H1 & H2 & H3).
      exists t1, t2. split; [|done]. transitivity s1; [|done].
      apply (Hf v); [left|done].
Qed.

Lemma foldWalk_is_Some vs s :
  (∀ v s, v ∈ vs → is_Some (f v s)) → is_Some (foldWalk f vs s).
Proof.
  revert s. induction vs as [|v vs IH]; intros s Hsome; simpl.
  - by eexists.
  - destruct (Hsome v s) as [s1 Hv]; [left|]. rewrite Hv.
    apply IH. intros x t Hx. apply Hsome. by right.
Qed.
End fold.

Lemma foldWalk_mono (f g : Vertex → order_state → option order_state) vs s r :
  (∀ v s r, f v s = Some r → g v s = Some r) →
  foldWalk f vs s = Some r → foldWalk g vs s = Some r.
Proof.
  intros Hfg. revert s. induction vs as [|v vs IH]; intros s Hrun; simpl in *.
  - done.
  - destruct (f v s) as [s1|] eqn:Hv; [|done].
    rewrite (Hfg _ _ _ Hv). by apply IH.
Qed.

Lemma topoWalk_mono d reverse fuel : ∀ fuel' v s r,
  fuel ≤ fuel' →
  topoWalk d reverse fuel v s = Some r → topoWalk d reverse fuel' v s = Some r.
Proof.
  induction fuel as [|fuel IH]; intros fuel' v s r Hle Hrun; [done|].
  destruct fuel' as [|fuel']; [lia|]. simpl in *.
  destruct (decide (v ∈ s.1)); [done|].
  destruct (foldWalk (topoWalk d reverse fuel) _ _) as [r'|] eqn:Hloop; [|done].
  rewrite (foldWalk_mono _ (topoWalk d reverse fuel') _ _ _
             (λ x t q, IH fuel' x t q ltac:(lia)) Hloop).
  done.
Qed.

Lemma topologicalOrder_mono d reverse fuel fuel' orders :
  fuel ≤ fuel' →
  topologicalOrder fuel d reverse = Some orders →
  topologicalOrder fuel' d reverse = Some orders.
Proof.
  intros Hle. unfold topologicalOrder.
  destruct (foldWalk (topoWalk d reverse fuel) _ _) as [r|] eqn:Hloop; [|done].
  rewrite (foldWalk_mono _ (topoWalk d reverse fuel') _ _ _
             (λ x t q, topoWalk_mono d reverse fuel fuel' x t q Hle) Hloop).
  done.
Qed.

Lemma ordered_NoDup adj l : ordered adj l → NoDup l.
Proof.
  induction 1 as [|l v Hord IH Hv Hadj]; [constructor|].
  apply NoDup_app. split; [done|]. split; [|apply NoDup_singleton].
  intros x Hx Hxv. apply list_elem_of_singleton in Hxv. by subst.
Qed.

(** In a compatible order, all of [adj v] stand strictly before [v]. *)
Lemma ordered_before adj l u v :
  ordered adj l → v ∈ l → u ∈ adj v → before l u v.
Proof.
  induction 1 as [|l x Hord IH Hx Hadj]; intros Hv Hu.
  - by apply elem_of_nil in Hv.
  - apply elem_of_app in Hv as [Hv|Hv].
    + destruct (IH Hv Hu) as (l1 & l2 & l3 & ->).
      exists l1, l2, (l3 ++ [x]). by repeat (rewrite <- app_assoc; simpl).
    + apply list_elem_of_singleton in Hv as ->.
      apply Hadj, list_elem_of_split in Hu as (l1 & l2 & ->).
      exists l1, l2, []. by repeat (rewrite <- app_assoc; simpl).
Qed.

Lemma adjacent_closed d reverse v x :
  closed d → x ∈ adjacent d reverse v → x ∈ vertices d.
Proof.
  intros Hcl. unfold adjacent, outAdj, inAdj. destruct reverse;
    intros (e & -> & [_ He]%list_elem_of_filter)%list_elem_of_fmap;
    by apply (proj1 (Forall_forall _ _) Hcl) in He as [? ?].
Qed.

Section topo.
Context (d : DAG) (reverse : bool) (m : Vertex → nat).
Hypothesis Hclosed : closed d.
Hypothesis Hm : ∀ v u,
  v ∈ vertices d → u ∈ adjacent d reverse v → m u < m v.

Lemma order_ok_preorder k : PreOrder (order_ok d reverse m k).
Proof.
  split.
  - intros s. split; [done|]. split; [done|]. split; [|done].
    intros x Hx. by left.
  - intros s1 s2 s3 (Hw1 & Ho1 & Hn1 & Hi1) (Hw2 & Ho2 & Hn2 & Hi2).
    split; [|split; [|split]].
    + by transitivity (s2.1).
    + by transitivity (s2.2).
    + intros x Hx. destruct (Hn2 x Hx) as [Hx2|Hx2]; [by apply Hn1|by right].
    + intros Hinv. by apply Hi2, Hi1.
Qed.

Lemma order_ok_weaken k k' s s' :
  k ≤ k' → order_ok d reverse m k s s' → order_ok d reverse m k' s s'.
Proof.
  intros Hle (Hw & Ho & Hn & Hi). split; [done|]. split; [done|].
  split; [|done].
  intros x Hx. destruct (Hn x Hx) as [|[? ?]]; [by left|right].
  split; [lia|done].
Qed.

(** A returning call walks its vertex, after everything adjacent to it. *)
Lemma topoWalk_ok fuel : ∀ v s s',
  v ∈ vertices d → topoWalk d reverse fuel v s = Some s' →
  order_ok d reverse m (S (m v)) s s' ∧ v ∈ s'.1.
Proof using Hclosed Hm.
  induction fuel as [|fuel IH]; intros v s s' Hv Hrun; simpl in Hrun; [done|].
  destruct (decide (v ∈ s.1)) as [Hw|Hw].
  { simplify_eq. split; [|done]. by apply order_ok_preorder. }
  destruct (foldWalk _ _ _) as [st|] eqn:Hloop; simplify_eq.
  assert (∀ x t t', x ∈ adjacent d reverse v →
            topoWalk d reverse fuel x t = Some t' →
            order_ok d reverse m (m v) t t') as Hstep.
  { intros x t t' Hx Hxrun.
    apply (order_ok_weaken (S (m x))); [by apply Hm|].
    apply (IH x); [|done]. by eapply adjacent_closed. }
  pose proof (foldWalk_rel _ _ (order_ok_preorder (m v)) _ _ _ Hstep Hloop)
    as (Hsuf & Hpre & Hnew & Hinv).
  assert (v ∉ st.1) as Hvst.
  { intros Hin. destruct (Hnew v Hin) as [|[Hlt _]]; [done|lia]. }
  split; [|left]. split; [|split; [|split]]; simpl.
  - by apply suffix_cons_r.
  - by apply prefix_app_r.
  - intros x [->|Hx]%elem_of_cons.
    + right. split; [lia|done].
    + destruct (Hnew x Hx) as [|[? ?]]; [by left|right]. split; [lia|done].
  - intros Hs. destruct (Hinv Hs) as [Hiff Hord]. split; simpl.
    { intros x. rewrite elem_of_cons, elem_of_app, list_elem_of_singleton.
      specialize (Hiff x). tauto. }
    constructor; [done| |].
    + intros Hin. by apply Hvst, Hiff.
    + intros x Hx.
      destruct (foldWalk_each _ _ (order_ok_preorder (m v)) _ _ _
                  Hstep Hloop x Hx) as (t1 & t2 & _ & Hxrun & (Hsuf2 & _)).
      apply (IH x) in Hxrun as [_ Hin]; [|by eapply adjacent_closed].
      apply Hiff. by eapply elem_of_suffix.
Qed.

Lemma topoWalk_is_Some fuel : ∀ v s,
  v ∈ vertices d → m v < fuel → is_Some (topoWalk d reverse fuel v s).
Proof using Hclosed Hm.
  induction fuel as [|fuel IH]; intros v s Hv Hlt; [lia|]. simpl.
  destruct (decide (v ∈ s.1)); [by eexists|].
  destruct (foldWalk_is_Some (topoWalk d reverse fuel)
              (adjacent d reverse v) s) as [st Hloop].
  - intros x t Hx. apply IH; [by eapply adjacent_closed|].
    specialize (Hm v x Hv Hx). lia.
  - rewrite Hloop. by eexists.
Qed.

(** The order computed: a compatible order of exactly the stored
    vertices. *)
Lemma topologicalOrder_ordered fuel :
  (∀ v, v ∈ vertices d → m v < fuel) →
  ∃ orders, topologicalOrder fuel d reverse = Some orders ∧
            ordered (adjacent d reverse) orders ∧
            ∀ v, v ∈ orders ↔ v ∈ vertices d.
Proof using Hclosed Hm.
  intros Hfuel. unfold topologicalOrder.
  destruct (foldWalk_is_Some (topoWalk d reverse fuel) (vertices d) ([], []))
    as [st Hloop].
  { intros x t Hx. apply topoWalk_is_Some; [done|by apply Hfuel]. }
  rewrite Hloop. exists st.2. split; [done|].
  assert (∀ x t t', x ∈ vertices d →
            topoWalk d reverse fuel x t = Some t' →
            order_ok d reverse m fuel t t') as Hstep.
  { intros x t t' Hx Hxrun.
    apply (order_ok_weaken (S (m x))); [by apply Hfuel|].
    by apply (topoWalk_ok fuel x). }
  pose proof (foldWalk_rel _ _ (order_ok_preorder fuel) _ _ _ Hstep Hloop)
    as (_ & _ & Hnew & Hinv).
  destruct Hinv as [Hiff Hord]; [split; [done|constructor]|].
  split; [done|]. intros v. split.
  - intros Hin%Hiff. destruct (Hnew v Hin) as [Hnil|[_ ?]]; [|done].
    by apply elem_of_nil in Hnil.
  - intros Hv.
    destruct (foldWalk_each _ _ (order_ok_preorder fuel) _ _ _
                Hstep Hloop v Hv) as (t1 & t2 & _ & Hxrun & (Hsuf2 & _)).
    apply (topoWalk_ok fuel v) in Hxrun as [_ Hin]; [|done].
    apply Hiff. by eapply elem_of_suffix.
Qed.
End topo.

(** ** The walks *)

Lemma walkAll_logged {St} (fn : WalkFunc St) l s log :
  (∀ v t, (fn v t).2 = None) →
  walkAll (logged fn) l (s, log) = (((walkAll fn l s).1, log ++ l), None).
Proof.
  intros Hok. revert s log. induction l as [|x l IH]; intros s log; simpl.
  - by rewrite app_nil_r.
  - unfold logged at 1. simpl. specialize (Hok x s).
    destruct (fn x s) as [s' [e|]]; [done|].
    rewrite IH. by rewrite <- app_assoc.
Qed.

(** The loop stops at the first error: the calls made are those on the
    vertices up to and including the failing one. *)
Lemma walkAll_stops {St} (fn : WalkFunc St) pre v post s s1 s2 err log :
  walkAll fn pre s = (s1, None) → fn v s1 = (s2, Some err) →
  walkAll fn (pre ++ v :: post) s = (s2, Some err) ∧
  walkAll (logged fn) (pre ++ v :: post) (s, log)
    = ((s2, log ++ pre ++ [v]), Some err).
Proof.
  revert s log. induction pre as [|x pre IH]; intros s log Hpre Hv; simpl in *.
  - simplify_eq. unfold logged. simpl. by rewrite Hv.
  - unfold logged at 1. simpl.
    destruct (fn x s) as [s' [e|]]; [done|].
    destruct (IH s' (log ++ [x]) Hpre Hv) as [-> ->].
    by rewrite <- app_assoc.
Qed.

(** The finishing order of [validate]'s search yields the measures under
    which both topological orders are computed. *)
Lemma validate_measure d fuel reverse :
  closed d → validate fuel d = Some None →
  ∃ m : Vertex → nat,
    (∀ v u, v ∈ vertices d → u ∈ adjacent d reverse v → m u < m v) ∧
    (∀ v, m v ≤ length (nodes d)).
Proof.
  intros Hcl (_ & _ & w & Hfin & Hall & Hsub)%validate_finished.
  assert (length w ≤ length (nodes d)) as Hlen.
  { apply submseteq_length, NoDup_submseteq; [|done].
    by eapply finished_NoDup. }
  destruct reverse.
  - exists (rank w). split.
    + intros v u Hv Hu. eapply finished_rank; [done|by apply Hall|done].
    + intros v. pose proof (rank_le w v). lia.
  - exists (λ x, length w - rank w x). split; [|intros v; lia].
    intros v u Hv Hu. simpl in Hu.
    assert (u ∈ vertices d) as Huv by (by eapply (adjacent_closed d false)).
    apply elem_of_inAdj, elem_of_outAdj in Hu.
    pose proof (finished_rank _ w u v Hfin (Hall u Huv) Hu).
    pose proof (rank_le w u). lia.
Qed.

(** What [topologicalOrder] returns on a graph [validate] accepted. *)
Lemma topologicalOrder_valid d fuel reverse :
  wf d → closed d → validate fuel d = Some None → length (nodes d) < fuel →
  ∃ orders, topologicalOrder fuel d reverse = Some orders ∧
            orders ≡ₚ vertices d ∧
            ∀ v u, v ∈ vertices d → u ∈ adjacent d reverse v →
                   before orders u v.
Proof.
  intros (Hnd & _) Hcl Hval Hfuel.
  destruct (validate_measure d fuel reverse Hcl Hval) as (m & Hm & Hbound).
  destruct (topologicalOrder_ordered d reverse m Hcl Hm fuel)
    as (orders & Hrun & Hord & Hiff).
  { intros v _. specialize (Hbound v). lia. }
  exists orders. split; [done|]. split.
  - apply NoDup_Permutation; [by eapply ordered_NoDup|done|done].
  - intros v u Hv Hu. eapply ordered_before; [done|by apply Hiff|done].
Qed.

(** How the two walks unfold once [validate] has accepted. *)
Lemma WalkTopoOrder_unfold {St} d fuel (fn : WalkFunc St) s orders :
  validate fuel d = Some None → topologicalOrder fuel d false = Some orders →
  WalkTopoOrder fuel d fn s = Some (walkAll fn orders s).
Proof. intros Hval Hord. unfold WalkTopoOrder. by rewrite Hval, Hord. Qed.

Lemma WalkReverseTopoOrder_unfold {St} d fuel (fn : WalkFunc St) s orders :
  validate fuel d = Some None → topologicalOrder fuel d true = Some orders →
  WalkReverseTopoOrder fuel d fn s = Some (walkAll fn orders s).
Proof. intros Hval Hord. unfold WalkReverseTopoOrder. by rewrite Hval, Hord. Qed.

(** C1. On a DAG whose stored edges join stored vertices, with exactly one
    root and no cycle, [WalkTopoOrder] succeeds and invokes the walk function
    on every stored vertex exactly once (the log of invocations is a
    permutation of the vertex set), and for every edge u -> v it invokes it
    on u strictly before v; [WalkReverseTopoOrder] does the same with v
    strictly before u. *)
Theorem WalkTopoOrder_visits_in_order d fuel :
  wf d → closed d → single_rooted d → acyclic d → length (nodes d) < fuel →
  ∃ fwd rev,
    topologicalOrder fuel d false = Some fwd ∧
    topologicalOrder fuel d true = Some rev ∧
    fwd ≡ₚ vertices d ∧ rev ≡ₚ vertices d ∧
    (∀ u v, edge d u v → before fwd u v ∧ before rev v u) ∧
    ∀ (St : Type) (fn : WalkFunc St) (s : St),
      (∀ v t, (fn v t).2 = None) →
      WalkTopoOrder fuel d (logged fn) (s, [])
        = Some (((walkAll fn fwd s).1, fwd), None) ∧
      WalkReverseTopoOrder fuel d (logged fn) (s, [])
        = Some (((walkAll fn rev s).1, rev), None).
Proof.
  intros Hwf Hcl Hroot Hacyc Hfuel.
  pose proof (validate_accepts d fuel Hwf Hroot Hacyc Hfuel) as Hval.
  destruct (topologicalOrder_valid d fuel false Hwf Hcl Hval Hfuel)
    as (fwd & Hfwd & Hpf & Hbf).
  destruct (topologicalOrder_valid d fuel true Hwf Hcl Hval Hfuel)
    as (rev & Hrev & Hpr & Hbr).
  exists fwd, rev. repeat (split; [done|]). split.
  - intros u v He.
    pose proof (proj1 (Forall_forall _ _) Hcl _ He) as [Hu Hv]. simpl in *.
    split.
    + apply Hbf; [done|]. by apply elem_of_inAdj.
    + apply Hbr; [done|]. by apply elem_of_outAdj.
  - intros St fn s Hok. split.
    + rewrite (WalkTopoOrder_unfold d fuel _ _ fwd Hval Hfwd).
      by rewrite walkAll_logged.
    + rewrite (WalkReverseTopoOrder_unfold d fuel _ _ rev Hval Hrev).
      by rewrite walkAll_logged.
Qed.

(** ** Rejections *)

(** A graph [validate] accepts has no edge pair a -> b, b -> a with a stored
    vertex [a]. *)
Lemma validate_no_two_cycle d fuel a b :
  validate fuel d = Some None → a ∈ vertices d → edge d a b → edge d b a →
  False.
Proof.
  intros (_ & _ & w & Hfin & Hall & _)%validate_finished Ha Hab Hba.
  apply elem_of_outAdj in Hab, Hba.
  assert (b ∈ w) as Hb by (eapply finished_closed; [done|by apply Hall|done]).
  pose proof (finished_rank _ w a b Hfin (Hall a Ha) Hab).
  pose proof (finished_rank _ w b a Hfin Hb Hba). lia.
Qed.

Lemma validate_self_loop d fuel a :
  validate fuel d = Some None → edge d a a → False.
Proof.
  intros (_ & Hself & _)%validate_finished He. unfold selfCycle in Hself.
  apply fmap_None, head_None in Hself.
  assert (RealEdge a a ∈ filter (λ e, From e = To e) (edges d)) as Hin
    by (by apply list_elem_of_filter).
  rewrite Hself in Hin. by apply elem_of_nil in Hin.
Qed.

(** C2. [validate] returns an error on a graph with a stored vertex a and
    edges a -> b and b -> a, on a graph with an edge from a vertex to
    itself, and on a graph with two or more stored vertices without incoming
    edge.  When [validate] returns an error, both walks return that error
    and the walk function is not invoked (the log of invocations is empty
    and the caller's state is as it was). *)
Theorem validate_rejects d fuel :
  length (nodes d) < fuel →
  (∀ a b, a ∈ vertices d → edge d a b → edge d b a →
     ∃ err, validate fuel d = Some (Some err)) ∧
  (∀ a, edge d a a → ∃ err, validate fuel d = Some (Some err)) ∧
  (∀ u v, u ≠ v → u ∈ vertices d → v ∈ vertices d → zeroIn d u → zeroIn d v →
     validate fuel d = Some (Some ErrNoSingleRoot)) ∧
  (∀ err, validate fuel d = Some (Some err) →
     ∀ (St : Type) (fn : WalkFunc St) (s : St),
       WalkTopoOrder fuel d (logged fn) (s, []) = Some ((s, []), Some err) ∧
       WalkReverseTopoOrder fuel d (logged fn) (s, [])
         = Some ((s, []), Some err)).
Proof.
  intros Hfuel. destruct (validate_is_Some d fuel Hfuel) as [[err|] Hres].
  - split; [by eauto|]. split; [by eauto|]. split.
    + intros u v Hne Hu Hv Hzu Hzv. unfold validate.
      destruct (decide (Root d = Nil)) as [|Hroot]; [done|]. destruct Hroot.
      by apply (Root_two_roots d u v).
    + intros err' Herr St fn s. unfold WalkTopoOrder, WalkReverseTopoOrder.
      by rewrite Herr.
  - split; [|split; [|split]].
    + intros a b Ha Hab Hba.
      by destruct (validate_no_two_cycle d fuel a b).
    + intros a Ha. by destruct (validate_self_loop d fuel a).
    + intros u v Hne Hu Hv Hzu Hzv.
      apply validate_finished in Hres as (Hroot & _). destruct Hroot.
      by apply (Root_two_roots d u v).
    + intros err Herr. congruence.
Qed.

(** ** Fail-fast walks *)

(** C6. When the walk function returns an error on the k-th vertex of the
    computed order (and on none before it), [WalkTopoOrder] returns that
    error and the walk function has been invoked exactly k times, on the
    first k vertices of the order. *)
Theorem WalkTopoOrder_stops_at_first_error
    {St} d fuel (fn : WalkFunc St) s orders pre v post s1 s2 err :
  validate fuel d = Some None →
  topologicalOrder fuel d false = Some orders →
  orders = pre ++ v :: post →
  walkAll fn pre s = (s1, None) → fn v s1 = (s2, Some err) →
  WalkTopoOrder fuel d fn s = Some (s2, Some err) ∧
  WalkTopoOrder fuel d (logged fn) (s, [])
    = Some ((s2, take (S (length pre)) orders), Some err) ∧
  length (take (S (length pre)) orders) = S (length pre).
Proof.
  intros Hval Hord -> Hpre Hv.
  rewrite !(WalkTopoOrder_unfold d fuel _ _ _ Hval Hord).
  destruct (walkAll_stops fn pre v post s s1 s2 err [] Hpre Hv) as [-> ->].
  assert (take (S (length pre)) (pre ++ v :: post) = pre ++ [v]) as ->.
  { rewrite take_app_ge by lia.
    replace (S (length pre) - length pre) with 1 by lia. done. }
  split; [done|]. split; [done|]. rewrite length_app. simpl. lia.
Qed.

(** ** The sample graphs *)

Lemma single_rooted_intro d r :
  NoDup (vertices d) → roots d = [r] → single_rooted d.
Proof.
  intros Hnd Hroots. exists r.
  assert (∀ v, v ∈ vertices d ∧ zeroIn d v ↔ v = r) as Hiff.
  { intros v. rewrite <- roots_spec, Hroots. apply list_elem_of_singleton. }
  split; [by apply Hiff|]. split; [by apply Hiff|].
  intros v Hv Hz. by apply Hiff.
Qed.

(** A numbering of the vertices that increases along every edge shows that
    there is no cycle. *)
Lemma acyclic_intro d (r : Vertex → nat) :
  Forall (λ e, r (From e) < r (To e)) (edges d) → acyclic d.
Proof.
  intros Hr v Hcyc.
  assert (∀ u w, tc (edge d) u w → r u < r w) as Hlt.
  { induction 1 as [u w He|u w z He _ IH].
    - by apply (proj1 (Forall_forall _ _) Hr) in He.
    - apply (proj1 (Forall_forall _ _) Hr) in He. simpl in He. lia. }
  specialize (Hlt v v Hcyc). lia.
Qed.

Lemma chain5_valid :
  wf chain5 ∧ closed chain5 ∧ single_rooted chain5 ∧ acyclic chain5.
Proof.
  split; [compute_done|]. split; [compute_done|]. split.
  - apply (single_rooted_intro _ (Ref 1)); [compute_done|done].
  - apply (acyclic_intro _ addrOf). compute_done.
Qed.

Lemma diamond_valid :
  wf diamond ∧ closed diamond ∧ single_rooted diamond ∧ acyclic diamond.
Proof.
  split; [compute_done|]. split; [compute_done|]. split.
  - apply (single_rooted_intro _ (Ref 1)); [compute_done|done].
  - apply (acyclic_intro _ addrOf). compute_done.
Qed.

Lemma WalkTopoOrder_visits_in_order_witness :
  ∃ fwd rev,
    topologicalOrder 9 diamond false = Some fwd ∧
    topologicalOrder 9 diamond true = Some rev ∧
    fwd ≡ₚ vertices diamond ∧ rev ≡ₚ vertices diamond ∧
    (∀ u v, edge diamond u v → before fwd u v ∧ before rev v u) ∧
    ∀ (St : Type) (fn : WalkFunc St) (s : St),
      (∀ v t, (fn v t).2 = None) →
      WalkTopoOrder 9 diamond (logged fn) (s, [])
        = Some (((walkAll fn fwd s).1, fwd), None) ∧
      WalkReverseTopoOrder 9 diamond (logged fn) (s, [])
        = Some (((walkAll fn rev s).1, rev), None).
Proof.
  apply (WalkTopoOrder_visits_in_order diamond 9).
  - apply diamond_valid.
  - apply diamond_valid.
  - apply diamond_valid.
  - apply diamond_valid.
  - simpl. lia.
Defined.

Lemma validate_rejects_witness :
  (∃ err, validate 7 twoCycle = Some (Some err)) ∧
  (∃ err, validate 5 selfLoop = Some (Some err)) ∧
  validate 3 twoRoots = Some (Some ErrNoSingleRoot) ∧
  WalkTopoOrder 7 twoCycle (logged countCalls) (0, [])
    = Some ((0, []), Some ErrCycleFound).
Proof.
  split; [|split; [|split]].
  - apply (validate_rejects twoCycle 7 ltac:(simpl; lia)) with (Ref 2) (Ref 3);
      compute_done.
  - apply (validate_rejects selfLoop 5 ltac:(simpl; lia)) with (Ref 2).
    compute_done.
  - apply (validate_rejects twoRoots 3 ltac:(simpl; lia)) with (Ref 1) (Ref 2);
      compute_done.
  - by apply (validate_rejects twoCycle 7 ltac:(simpl; lia)).
Defined.

Lemma WalkTopoOrder_stops_at_first_error_witness :
  WalkTopoOrder 10 chain5 (failOn (Ref 3)) 0 = Some (3, Some (ErrCaller 1)) ∧
  WalkTopoOrder 10 chain5 (logged (failOn (Ref 3))) (0, [])
    = Some ((3, [Ref 1; Ref 2; Ref 3]), Some (ErrCaller 1)).
Proof.
  destruct (WalkTopoOrder_stops_at_first_error chain5 10 (failOn (Ref 3)) 0
              [Ref 1; Ref 2; Ref 3; Ref 4; Ref 5] [Ref 1; Ref 2] (Ref 3)
              [Ref 4; Ref 5] 2 3 (ErrCaller 1))
    as (H1 & H2 & _); try reflexivity.
  split; [exact H1|exact H2].
Defined.

Lemma Connect_twice_one_edge_witness :
  Connect (Connect chain5 (Ref 1) (Ref 3)).1 (Ref 1) (Ref 3)
    = ((Connect chain5 (Ref 1) (Ref 3)).1, true) ∧
  countEdges (Connect chain5 (Ref 1) (Ref 3)).1 (Ref 1) (Ref 3) = 1 ∧
  Connect chain5 Nil (Ref 3) = (chain5, false).
Proof.
  destruct (Connect_twice_one_edge chain5 (Ref 1) (Ref 3)) as [Hok _];
    [apply chain5_valid|].
  destruct (Connect_twice_one_edge chain5 Nil (Ref 3)) as [_ Hnil];
    [apply chain5_valid|].
  destruct Hok as (_ & Htwice & Hone); [done|done|].
  split; [exact Htwice|]. split; [exact Hone|]. apply Hnil. by left.
Defined.

Lemma RemoveVertex_cascades_witness :
  (Ref 3 ∉ vertices (RemoveVertex chain5 (Ref 3)).1) ∧
  (∀ e, e ∈ edges (RemoveVertex chain5 (Ref 3)).1 →
        From e ≠ Ref 3 ∧ To e ≠ Ref 3) ∧
  RemoveVertex chain5 Nil = (chain5, true).
Proof.
  destruct (RemoveVertex_cascades chain5 (Ref 3)) as [Hrm Hnil].
  destruct Hrm as (Hv & He & _); [done|].
  split; [exact Hv|]. split; [exact He|].
  apply (RemoveVertex_cascades chain5 Nil).
Defined.

Lemma Root_unique_or_nil_witness :
  Root diamond = Ref 1 ∧ Root NewDAG = Nil ∧ Root twoRoots = Nil ∧
  Root {| vertices := [Ref 2]; edges := [RealEdge (Ref 1) (Ref 2)] |} = Nil.
Proof.
  split; [|split; [|split]].
  - apply (proj1 (Root_unique_or_nil diamond));
      [apply diamond_valid|compute_done|compute_done|].
    apply (proj1 (Forall_forall (λ v, zeroIn diamond v → v = Ref 1) _)).
    compute_done.
  - by apply (proj1 (proj2 (Root_unique_or_nil NewDAG))).
  - apply (proj2 (proj2 (proj2 (Root_unique_or_nil twoRoots))) (Ref 1) (Ref 2));
      compute_done.
  - apply (proj1 (proj2 (proj2 (Root_unique_or_nil
             {| vertices := [Ref 2]; edges := [RealEdge (Ref 1) (Ref 2)] |})))).
    intros v Hv Hz. apply list_elem_of_singleton in Hv as ->.
    revert Hz. compute_done.
Defined.

Lemma Connect_keeps_vertices_witness :
  vertices (Connect NewDAG (Ref 1) (Ref 2)).1 = [] ∧
  RealEdge (Ref 1) (Ref 2) ∈ edges (Connect NewDAG (Ref 1) (Ref 2)).1 ∧
  (Ref 1 ∉ Vertices (Connect NewDAG (Ref 1) (Ref 2)).1) ∧
  Ref 1 ∈ Vertices (AddVertex (Connect NewDAG (Ref 1) (Ref 2)).1 (Ref 1)).1.
Proof.
  destruct (Connect_keeps_vertices NewDAG (Ref 1) (Ref 2)
              (RealEdge (Ref 1) (Ref 2))) as (Hv & _ & Hc & _).
  destruct Hc as (_ & Hn1 & _ & He & _ & Hadd);
    [done|done|apply not_elem_of_nil|apply not_elem_of_nil|].
  split; [exact Hv|]. split; [exact He|]. split; [exact Hn1|exact Hadd].
Defined.

(** ** What validate decides, and where it does not protect the walk *)

(** On a graph whose edges join stored vertices, [validate] accepts exactly
    the graphs with one root and no cycle. *)
Theorem validate_characterised d fuel :
  wf d → closed d → length (nodes d) < fuel →
  (validate fuel d = Some None ↔ single_rooted d ∧ acyclic d).
Proof.
  intros Hwf Hcl Hfuel. split; [|by intros [? ?]; apply validate_accepts].
  intros (Hroot & _ & w & Hfin & Hall & _)%validate_finished. split.
  - unfold Root in Hroot. destruct (roots d) as [|r [|r' l]] eqn:Hr; try done.
    apply (single_rooted_intro d r); [apply Hwf|done].
  - assert (∀ u x, tc (edge d) u x → rank w x < rank w u) as Hlt.
    { assert (∀ u x, edge d u x → rank w x < rank w u) as Hedge.
      { intros u x He.
        pose proof (proj1 (Forall_forall _ _) Hcl _ He) as [Hu _].
        eapply finished_rank; [done|by apply Hall|by apply elem_of_outAdj]. }
      induction 1 as [u x He|u x z He _ IH]; [by apply Hedge|].
      specialize (Hedge u x He). lia. }
    intros v Hcyc. specialize (Hlt v v Hcyc). lia.
Qed.

Lemma validate_characterised_witness :
  validate 9 diamond = Some None ↔ single_rooted diamond ∧ acyclic diamond.
Proof.
  apply (validate_characterised diamond 9).
  - apply diamond_valid.
  - apply diamond_valid.
  - simpl. lia.
Defined.

(** [validate] returns on every graph, with a result that more fuel does not
    change. *)
Theorem validate_returns d fuel :
  length (nodes d) < fuel →
  ∃ r, ∀ fuel', fuel ≤ fuel' → validate fuel' d = Some r.
Proof.
  intros Hfuel. destruct (validate_is_Some d fuel Hfuel) as [r Hr].
  exists r. intros fuel' Hle. by apply (validate_mono d fuel).
Qed.

Lemma validate_returns_witness :
  ∃ r, ∀ fuel', 7 ≤ fuel' → validate fuel' twoCycle = Some r.
Proof. apply (validate_returns twoCycle 7). simpl. lia. Defined.

(** Every mutator keeps the invariant of the store. *)
Theorem wf_preserved d v e from to :
  wf d →
  wf (AddVertex d v).1 ∧ wf (RemoveVertex d v).1 ∧ wf (AddEdge d e).1 ∧
  wf (RemoveEdge d e).1 ∧ wf (Connect d from to).1.
Proof.
  intros Hwf. split; [by apply wf_AddVertex|]. split; [by apply wf_RemoveVertex|].
  split; [by apply wf_AddEdge|]. split; [by apply wf_RemoveEdge|].
  by apply wf_Connect.
Qed.

Lemma wf_preserved_witness :
  wf (AddVertex chain5 (Ref 3)).1 ∧ wf (RemoveVertex chain5 (Ref 3)).1 ∧
  wf (AddEdge chain5 (RealEdge (Ref 1) (Ref 2))).1 ∧
  wf (RemoveEdge chain5 (RealEdge (Ref 1) (Ref 2))).1 ∧
  wf (Connect chain5 (Ref 5) (Ref 6)).1.
Proof. apply (wf_preserved chain5). compute_done. Defined.

(** An edge whose source was never added as a vertex passes [validate]; the
    forward walk visits that source, which [Vertices] does not list, and the
    reverse walk does not visit it. *)
Theorem validate_accepts_strayEdge :
  validate 5 strayEdge = Some None ∧
  Vertices strayEdge = [Ref 1; Ref 2] ∧
  WalkTopoOrder 5 strayEdge (logged countCalls) (0, [])
  = Some ((3, [Ref 1; Ref 9; Ref 2]), None) ∧
  WalkReverseTopoOrder 5 strayEdge (logged countCalls) (0, [])
  = Some ((2, [Ref 2; Ref 1]), None).
Proof. repeat split. Qed.

(** ** topologicalOrder on any graph *)

Section anygraph.
Context (d : DAG) (reverse : bool).

Lemma walk_ok_preorder (P : Vertex → Prop) : PreOrder (walk_ok d reverse P).
Proof.
  split.
  - intros s. split; [done|]. split; [done|]. split; [by left|done].
  - intros s1 s2 s3 (Hw1 & Ho1 & Hn1 & Hi1) (Hw2 & Ho2 & Hn2 & Hi2).
    split; [by transitivity (s2.1)|]. split; [by transitivity (s2.2)|].
    split.
    + intros y Hy. destruct (Hn2 y Hy) as [Hy2|Hy2]; [by apply Hn1|by right].
    + intros Hfree. destruct (Hi1 Hfree) as [Hfree2 Hinv1].
      destruct (Hi2 Hfree2) as [Hfree3 Hinv2]. split; [done|].
      intros Hinv. by apply Hinv2, Hinv1.
Qed.

Lemma walk_ok_weaken (P Q : Vertex → Prop) s s' :
  (∀ y, P y → Q y) → walk_ok d reverse P s s' → walk_ok d reverse Q s s'.
Proof.
  intros HPQ (Hw & Ho & Hn & Hi). split; [done|]. split; [done|].
  split; [|done]. intros y Hy. destruct (Hn y Hy); [by left|right; auto].
Qed.

(** A vertex that leads to a cycle has a next vertex that does. *)
Lemma leads_to_cycle_next v :
  leads_to_cycle d reverse v →
  ∃ u, follows d reverse v u ∧ leads_to_cycle d reverse u.
Proof.
  intros (x & Hreach & Hcyc). apply rtc_inv in Hreach as [->|(u & Hvu & Hux)].
  - assert (∃ u, follows d reverse x u ∧ rtc (follows d reverse) u x)
      as (u & Hxu & Hux).
    { inversion Hcyc as [? ? Hxx|? y ? Hxy Hyx]; simplify_eq.
      - by exists x.
      - exists y. split; [done|]. by apply tc_rtc. }
    exists u. split; [done|]. exists u. split; [done|].
    eapply tc_rtc_l; [done|]. by apply tc_once.
  - exists u. split; [done|]. by exists x.
Qed.

Lemma leads_to_cycle_prev v u :
  follows d reverse v u → leads_to_cycle d reverse u →
  leads_to_cycle d reverse v.
Proof.
  intros Hvu (x & Hreach & Hcyc). exists x. split; [|done].
  by eapply rtc_l.
Qed.

(** A returning call has walked its vertex and only vertices the walk
    reaches from it, keeps the state consistent, and has met no vertex that
    leads to a cycle. *)
Lemma topoWalk_any fuel : ∀ v s s',
  topoWalk d reverse fuel v s = Some s' →
  walk_ok d reverse (rtc (follows d reverse) v) s s' ∧ v ∈ s'.1.
Proof.
  induction fuel as [|fuel IH]; intros v s s' Hrun; simpl in Hrun; [done|].
  destruct (decide (v ∈ s.1)) as [Hw|Hw].
  { simplify_eq. split; [|done]. by apply walk_ok_preorder. }
  destruct (foldWalk _ _ _) as [st|] eqn:Hloop; simplify_eq.
  set (P := λ y, ∃ u, follows d reverse v u ∧ rtc (follows d reverse) u y).
  assert (∀ x t t', x ∈ adjacent d reverse v →
            topoWalk d reverse fuel x t = Some t' →
            walk_ok d reverse P t t') as Hstep.
  { intros x t t' Hx Hxrun. apply IH in Hxrun as [Hok _].
    eapply walk_ok_weaken; [|done]. intros y Hy. by exists x. }
  pose proof (foldWalk_rel _ _ (walk_ok_preorder P) _ _ _ Hstep Hloop)
    as (Hsuf & Hpre & Hnew & Hinv).
  assert (∀ x, x ∈ adjacent d reverse v → x ∈ st.1) as Hadj.
  { intros x Hx.
    destruct (foldWalk_each _ _ (walk_ok_preorder P) _ _ _ Hstep Hloop x Hx)
      as (t1 & t2 & _ & Hxrun & (Hsuf2 & _)).
    apply IH in Hxrun as [_ Hin]. by eapply elem_of_suffix. }
  split; [|left]. split; [by apply suffix_cons_r|].
  split; [by apply prefix_app_r|]. split; simpl.
  - intros y [->|Hy]%elem_of_cons; [by right|].
    destruct (Hnew y Hy) as [|(u & Hvu & Huy)]; [by left|right].
    by eapply rtc_l.
  - intros Hfree. destruct (Hinv Hfree) as [Hfree' Hinv'].
    assert (¬ leads_to_cycle d reverse v) as Hv.
    { intros (u & Hvu & Hu)%leads_to_cycle_next.
      by apply (Hfree' u (Hadj u Hvu)). }
    split.
    + intros y [->|Hy]%elem_of_cons; [done|by apply Hfree'].
    + intros Hs. destruct (Hinv' Hs) as [Hiff Hord]. split; simpl.
      { intros x. rewrite elem_of_cons, elem_of_app, list_elem_of_singleton.
        specialize (Hiff x). tauto. }
      constructor; [done| |].
      * intros Hin%Hiff. destruct (Hnew v Hin) as [|(u & Hvu & Huv)]; [done|].
        apply Hv. exists v. split; [done|].
        eapply tc_rtc_r; [by apply tc_once|done].
      * intros x Hx. by apply Hiff, Hadj.
Qed.

(** Along a path of distinct vertices the recursion cannot be deeper than
    there are vertices, so it returns from a vertex that does not lead to a
    cycle. *)
Lemma adjacent_endpoints v u : u ∈ adjacent d reverse v → u ∈ endpoints d.
Proof.
  unfold adjacent, outAdj, inAdj, endpoints. rewrite !elem_of_app.
  destruct reverse; intros (e & -> & He)%list_elem_of_fmap;
    apply list_elem_of_filter in He as [_ He].
  - right. right. by apply list_elem_of_fmap_2.
  - right. left. by apply list_elem_of_fmap_2.
Qed.

Lemma topoWalk_returns fuel : ∀ v s path,
  NoDup path →
  (∀ p, p ∈ path → p ∈ endpoints d ∧ tc (follows d reverse) p v) →
  v ∈ endpoints d → ¬ leads_to_cycle d reverse v →
  length (endpoints d) < fuel + length path →
  is_Some (topoWalk d reverse fuel v s).
Proof.
  induction fuel as [|fuel IH]; intros v s path Hnd Hpath Hv Hgood Hlen.
  - assert (length path ≤ length (endpoints d)); [|simpl in *; lia].
    apply submseteq_length, NoDup_submseteq; [done|].
    intros p Hp. by apply Hpath.
  - simpl. destruct (decide (v ∈ s.1)); [by eexists|].
    destruct (foldWalk_is_Some (topoWalk d reverse fuel)
                (adjacent d reverse v) s) as [st Hloop];
      [|rewrite Hloop; by eexists].
    intros u t Hu. apply (IH u t (v :: path)).
    + apply NoDup_cons. split; [|done]. intros Hin.
      apply Hgood. exists v. split; [done|]. by apply Hpath.
    + intros p [->|Hp]%elem_of_cons.
      * split; [done|]. by apply tc_once.
      * destruct (Hpath p Hp) as [? Hpv]. split; [done|].
        by eapply tc_r.
    + by eapply adjacent_endpoints.
    + intros Hbad. by apply Hgood, (leads_to_cycle_prev v u).
    + simpl. lia.
Qed.

Lemma ordered_follows l v u :
  ordered (adjacent d reverse) l → v ∈ l →
  rtc (follows d reverse) v u → u ∈ l.
Proof.
  intros Hord Hv Hreach. induction Hreach as [|v u' u Hstep _ IH]; [done|].
  apply IH. clear IH. induction Hord as [|l x Hord IHord Hx Hadj].
  - by apply elem_of_nil in Hv.
  - apply elem_of_app in Hv as [Hv|Hv]; apply elem_of_app; left.
    + by apply IHord.
    + apply list_elem_of_singleton in Hv as ->. by apply Hadj.
Qed.

End anygraph.

Lemma topologicalOrder_any d reverse fuel orders :
  topologicalOrder fuel d reverse = Some orders →
  NoDup orders ∧
  (∀ y, y ∈ orders ↔
        ∃ v, v ∈ vertices d ∧ rtc (follows d reverse) v y) ∧
  (∀ y u, y ∈ orders → follows d reverse y u → before orders u y) ∧
  (∀ v, v ∈ vertices d → ¬ leads_to_cycle d reverse v).
Proof.
  unfold topologicalOrder.
  destruct (foldWalk _ _ _) as [st|] eqn:Hloop; [|done].
  intros ?. simplify_eq/=.
  set (P := λ y, ∃ v, v ∈ vertices d ∧ rtc (follows d reverse) v y).
  assert (∀ x t t', x ∈ vertices d →
            topoWalk d reverse fuel x t = Some t' →
            walk_ok d reverse P t t') as Hstep.
  { intros x t t' Hx Hxrun. apply topoWalk_any in Hxrun as [Hok _].
    eapply walk_ok_weaken; [|done]. intros y Hy. by exists x. }
  pose proof (foldWalk_rel _ _ (walk_ok_preorder d reverse P) _ _ _
                Hstep Hloop) as (_ & _ & Hnew & Hinv).
  destruct Hinv as [Hfree [Hiff Hord]]; [by intros y ?%elem_of_nil| |].
  { split; [done|constructor]. }
  assert (∀ v, v ∈ vertices d → v ∈ st.1) as Hall.
  { intros v Hv.
    destruct (foldWalk_each _ _ (walk_ok_preorder d reverse P) _ _ _
                Hstep Hloop v Hv) as (t1 & t2 & _ & Hxrun & (Hsuf2 & _)).
    apply topoWalk_any in Hxrun as [_ Hin]. by eapply elem_of_suffix. }
  split; [by eapply ordered_NoDup|]. split; [|split].
  - intros y. split.
    + intros Hy%Hiff. destruct (Hnew y Hy) as [Hnil|?]; [|done].
      by apply elem_of_nil in Hnil.
    + intros (v & Hv & Hreach).
      eapply ordered_follows; [done|by apply Hiff, Hall|done].
  - intros y u Hy Hyu. by eapply ordered_before.
  - intros v Hv. by apply Hfree, Hall.
Qed.

Lemma topologicalOrder_enough d reverse fuel :
  (∀ v, v ∈ vertices d → ¬ leads_to_cycle d reverse v) →
  length (endpoints d) < fuel →
  is_Some (topologicalOrder fuel d reverse).
Proof.
  intros Hgood Hfuel. unfold topologicalOrder.
  destruct (foldWalk_is_Some (topoWalk d reverse fuel) (vertices d) ([], []))
    as [st Hloop]; [|rewrite Hloop; by eexists].
  intros v t Hv. apply (topoWalk_returns d reverse fuel v t []).
  - constructor.
  - by intros p ?%elem_of_nil.
  - apply elem_of_app. by left.
  - by apply Hgood.
  - simpl. lia.
Qed.

(** [topologicalOrder], on any graph at all: when it returns, it lists once
    each the stored vertices and every vertex reached from them along the
    direction of the walk (stored or not), each after all the vertices it
    goes to next; and no stored vertex leads to a cycle. *)
Theorem topologicalOrder_lists_reachable d reverse fuel orders :
  topologicalOrder fuel d reverse = Some orders →
  NoDup orders ∧
  (∀ y, y ∈ orders ↔
        ∃ v, v ∈ vertices d ∧ rtc (follows d reverse) v y) ∧
  (∀ y u, y ∈ orders → follows d reverse y u → before orders u y) ∧
  (∀ v, v ∈ vertices d → ¬ leads_to_cycle d reverse v).
Proof. apply topologicalOrder_any. Qed.

Lemma topologicalOrder_lists_reachable_witness :
  NoDup [Ref 1; Ref 9; Ref 2] ∧
  (∀ y, y ∈ [Ref 1; Ref 9; Ref 2] ↔
        ∃ v, v ∈ vertices strayEdge ∧ rtc (follows strayEdge false) v y) ∧
  (∀ y u, y ∈ [Ref 1; Ref 9; Ref 2] → follows strayEdge false y u →
          before [Ref 1; Ref 9; Ref 2] u y) ∧
  (∀ v, v ∈ vertices strayEdge → ¬ leads_to_cycle strayEdge false v).
Proof.
  apply (topologicalOrder_lists_reachable strayEdge false 5). reflexivity.
Defined.

(** [topologicalOrder] returns exactly when no stored vertex leads to a
    cycle along the direction of the walk: then a recursion budget above the
    number of vertices the store mentions is enough, and otherwise none
    is. *)
Theorem topologicalOrder_returns_iff d reverse :
  ((∀ v, v ∈ vertices d → ¬ leads_to_cycle d reverse v) →
   ∀ fuel, length (endpoints d) < fuel →
     is_Some (topologicalOrder fuel d reverse)) ∧
  (∀ v, v ∈ vertices d → leads_to_cycle d reverse v →
   ∀ fuel, topologicalOrder fuel d reverse = None).
Proof.
  split.
  - intros Hgood fuel Hfuel. by apply topologicalOrder_enough.
  - intros v Hv Hbad fuel.
    destruct (topologicalOrder fuel d reverse) as [orders|] eqn:Hrun; [|done].
    apply topologicalOrder_any in Hrun as (_ & _ & _ & Hgood).
    by destruct (Hgood v Hv).
Qed.

(** ** What validate decides on any graph *)

Lemma follows_out d v u : follows d true v u ↔ edge d v u.
Proof. unfold follows. simpl. apply elem_of_outAdj. Qed.

Lemma follows_in d v u : follows d false v u ↔ edge d u v.
Proof. unfold follows. simpl. apply elem_of_inAdj. Qed.

(** From a finished vertex the search has finished everything it reaches,
    earlier. *)
Lemma finished_reach d w u y :
  finished (outAdj d) w → u ∈ w → rtc (follows d true) u y → y ∈ w.
Proof.
  intros Hfin Hu Hreach. induction Hreach as [|u x y Hux _ IH]; [done|].
  apply IH. by eapply finished_closed.
Qed.

Lemma finished_tc d w u y :
  finished (outAdj d) w → u ∈ w → tc (follows d true) u y →
  rank w y < rank w u.
Proof.
  intros Hfin Hu Hreach. induction Hreach as [u y Huy|u x y Hux _ IH].
  - by eapply finished_rank.
  - pose proof (finished_rank _ w u x Hfin Hu Hux).
    assert (x ∈ w) as Hx by (by eapply finished_closed).
    specialize (IH Hx). lia.
Qed.

(** The search meets no marked vertex from a vertex that does not lead to a
    cycle. *)
Lemma cycleWalk_no_error_from d fuel : ∀ v s e,
  ¬ leads_to_cycle d true v →
  (∀ x, x ∈ s.2 → tc (follows d true) x v) →
  cycleWalk d fuel v s ≠ Some (inl e).
Proof.
  induction fuel as [|fuel IH]; intros v s e Hgood Hpath; [done|].
  simpl. destruct (decide (v ∈ s.1)); [done|].
  destruct (decide (v ∈ s.2)) as [Hm|Hm].
  { destruct Hgood. exists v. split; [done|]. by apply Hpath. }
  destruct (forEach _ _ _) as [[e'|st]|] eqn:Hloop; try done.
  exfalso. revert Hloop.
  apply (forEach_no_error _ (λ t, t.2 = v :: s.2)); [| |done].
  - intros x t e'' Hx Ht. apply IH.
    + intros Hbad. by apply Hgood, (leads_to_cycle_prev d true v x).
    + rewrite Ht. intros y [->|Hy]%elem_of_cons; [by apply tc_once|].
      eapply tc_r; [|done]. by apply Hpath.
  - intros x t t' Hx Ht Hrun.
    apply cycleWalk_ok in Hrun as [(Hmk & _) _]; [|by eapply outAdj_nodes].
    congruence.
Qed.

(** [validate] accepts exactly the graphs with one stored root, no edge from
    a vertex to itself anywhere, and no cycle that a stored vertex reaches
    along outgoing edges.  A cycle among vertices that no stored vertex
    reaches is not looked for. *)
Theorem validate_decides d fuel :
  length (nodes d) < fuel →
  (validate fuel d = Some None ↔
   Root d ≠ Nil ∧ (∀ a, ¬ edge d a a) ∧
   ∀ v, v ∈ vertices d → ¬ leads_to_cycle d true v).
Proof.
  intros Hfuel. split.
  - intros Hval. split; [|split].
    + by apply validate_finished in Hval as (? & _).
    + intros a Ha. by apply (validate_self_loop d fuel a).
    + apply validate_finished in Hval as (_ & _ & w & Hfin & Hall & _).
      intros v Hv (x & Hreach & Hcyc).
      assert (x ∈ w) as Hx by (eapply finished_reach; [done|by apply Hall|done]).
      pose proof (finished_tc d w x x Hfin Hx Hcyc). lia.
  - intros (Hroot & Hself & Hgood).
    destruct (validate_is_Some d fuel Hfuel) as [res Hres].
    rewrite Hres. f_equal. revert Hres. unfold validate.
    destruct (decide (Root d = Nil)); [done|].
    destruct (selfCycle d) as [v|] eqn:Hsc.
    { unfold selfCycle in Hsc. destruct (head _) as [e|] eqn:Hhead; [|done].
      apply head_Some_elem_of, list_elem_of_filter in Hhead as [Heq He].
      destruct (Hself (From e)). unfold edge.
      destruct e as [f t]. simpl in *. by subst. }
    destruct (forEach _ _ _) as [[e|st]|] eqn:Hloop;
      [|intros; by simplify_eq..].
    exfalso. revert Hloop.
    apply (forEach_no_error _ (λ t, t.2 = [])); [| |done].
    + intros x t e' Hx Ht. apply cycleWalk_no_error_from; [by apply Hgood|].
      rewrite Ht. by intros y ?%elem_of_nil.
    + intros x t t' Hx Ht Hrun.
      apply cycleWalk_ok in Hrun as [(Hmk & _) _]; [|by apply vertices_nodes].
      congruence.
Qed.

Lemma validate_decides_witness :
  validate 7 dangling = Some None ↔
  Root dangling ≠ Nil ∧ (∀ a, ¬ edge dangling a a) ∧
  ∀ v, v ∈ vertices dangling → ¬ leads_to_cycle dangling true v.
Proof. apply (validate_decides dangling 7). simpl. lia. Defined.

Lemma nodes_endpoints d : length (nodes d) ≤ length (endpoints d).
Proof. unfold nodes, endpoints. rewrite !length_app. lia. Qed.

(** [WalkReverseTopoOrder] returns on every graph: [validate] has excluded
    the cycles a reverse walk could run into.  [WalkTopoOrder] returns
    exactly when [validate] rejects or no stored vertex is reached from a
    cycle along edges; [validate] does not look for those. *)
Theorem walks_return {St : Type} d fuel (fn : WalkFunc St) s :
  length (endpoints d) < fuel →
  is_Some (WalkReverseTopoOrder fuel d fn s) ∧
  (is_Some (WalkTopoOrder fuel d fn s) ↔
   validate fuel d ≠ Some None ∨
   ∀ v, v ∈ vertices d → ¬ leads_to_cycle d false v).
Proof.
  intros Hfuel. pose proof (nodes_endpoints d) as Hle.
  destruct (validate_is_Some d fuel ltac:(lia)) as [res Hres].
  unfold WalkReverseTopoOrder, WalkTopoOrder. rewrite Hres.
  destruct res as [err|].
  - split; [by eexists|]. split; [by left|by eexists].
  - pose proof (proj1 (validate_decides d fuel ltac:(lia)) Hres)
      as (_ & _ & Hgood).
    split.
    + destruct (topologicalOrder_enough d true fuel Hgood Hfuel)
        as [orders ->]. by eexists.
    + split.
      * destruct (topologicalOrder fuel d false) as [orders|] eqn:Hrun;
          [|by intros [? ?]].
        intros _. right.
        by apply topologicalOrder_any in Hrun as (_ & _ & _ & ?).
      * intros [?|Hfwd]; [done|].
        destruct (topologicalOrder_enough d false fuel Hfwd Hfuel)
          as [orders ->]. by eexists.
Qed.

Lemma walks_return_witness :
  is_Some (WalkReverseTopoOrder 11 dangling countCalls 0) ∧
  (is_Some (WalkTopoOrder 11 dangling countCalls 0) ↔
   validate 11 dangling ≠ Some None ∨
   ∀ v, v ∈ vertices dangling → ¬ leads_to_cycle dangling false v).
Proof. apply (walks_return dangling 11). simpl. lia. Defined.

(** ** The order in which the maps are ranged over *)

Lemma inAdj_length_perm d d' n :
  edges d ≡ₚ edges d' → length (inAdj d n) = length (inAdj d' n).
Proof.
  intros Hperm. unfold inAdj. rewrite !length_fmap.
  apply Permutation_length. by rewrite Hperm.
Qed.

Lemma roots_perm d d' :
  vertices d ≡ₚ vertices d' → edges d ≡ₚ edges d' → roots d ≡ₚ roots d'.
Proof.
  intros Hv He. unfold roots. rewrite Hv.
  rewrite (list_filter_iff (λ n, length (inAdj d n) = 0)
             (λ n, length (inAdj d' n) = 0)); [done|].
  intros n. by rewrite (inAdj_length_perm d d' n He).
Qed.

Lemma leads_to_cycle_perm d d' reverse v :
  edges d ≡ₚ edges d' →
  leads_to_cycle d reverse v → leads_to_cycle d' reverse v.
Proof.
  intros He (x & Hreach & Hcyc).
  assert (∀ a b, follows d reverse a b → follows d' reverse a b) as Hsub.
  { intros a b. destruct reverse.
    - rewrite !follows_out. unfold edge. by rewrite He.
    - rewrite !follows_in. unfold edge. by rewrite He. }
  exists x. split.
  - by apply (rtc_congruence id (follows d' reverse)) in Hreach.
  - by apply (tc_congruence id (follows d' reverse)) in Hcyc.
Qed.

(** Go ranges over the two maps in an unspecified order.  Whatever the order,
    [Root] is the same vertex and [validate] gives the same verdict (the
    error it reports may differ). *)
Theorem validate_order_independent d d' fuel :
  vertices d ≡ₚ vertices d' → edges d ≡ₚ edges d' →
  length (nodes d) < fuel →
  Root d = Root d' ∧
  (validate fuel d = Some None ↔ validate fuel d' = Some None).
Proof.
  intros Hv He Hfuel.
  assert (Root d = Root d') as Hroot.
  { pose proof (roots_perm d d' Hv He) as Hr. unfold Root.
    destruct (roots d) as [|r [|r' l]].
    - by apply Permutation_nil_l in Hr as <-.
    - by apply Permutation_singleton_l in Hr as <-.
    - apply Permutation_length in Hr.
      destruct (roots d') as [|q [|q' l']]; simpl in Hr; try done. }
  split; [done|].
  assert (length (nodes d') < fuel) as Hfuel'.
  { unfold nodes in *. rewrite length_app, length_fmap in *.
    by rewrite <- (Permutation_length Hv), <- (Permutation_length He). }
  rewrite (validate_decides d fuel Hfuel), (validate_decides d' fuel Hfuel').
  rewrite Hroot. unfold edge. setoid_rewrite He. setoid_rewrite Hv.
  split; intros (? & ? & Hgood); (split; [done|]); (split; [done|]);
    intros v Hin Hbad; apply (Hgood v Hin);
    by eapply leads_to_cycle_perm.
Qed.

Lemma validate_order_independent_witness :
  Root diamond
  = Root {| vertices := reverse (vertices diamond);
            edges := reverse (edges diamond) |} ∧
  (validate 9 diamond = Some None ↔
   validate 9 {| vertices := reverse (vertices diamond);
                 edges := reverse (edges diamond) |} = Some None).
Proof.
  apply (validate_order_independent diamond
           {| vertices := reverse (vertices diamond);
              edges := reverse (edges diamond) |} 9).
  - simpl. by rewrite reverse_Permutation.
  - simpl. by rewrite reverse_Permutation.
  - simpl. lia.
Defined.

(** ** What the mutators do to the vertex set and the edge relation *)

Lemma filter_keeps_all {A} (P : A → Prop) `{!∀ x, Decision (P x)} (l : list A) :
  (∀ x, x ∈ l → P x) → filter P l = l.
Proof.
  induction l as [|a l IH]; intros Hall; [done|].
  rewrite filter_cons_True by (apply Hall; by left).
  rewrite IH; [done|]. intros x Hx. apply Hall. by right.
Qed.

Lemma filter_drops_all {A} (P : A → Prop) `{!∀ x, Decision (P x)} (l : list A) :
  (∀ x, x ∈ l → ¬ P x) → filter P l = [].
Proof.
  induction l as [|a l IH]; intros Hall; [done|].
  rewrite filter_cons_False by (apply Hall; by left).
  apply IH. intros x Hx. apply Hall. by right.
Qed.

(** [AddVertex] refuses exactly the nil vertex and then changes nothing;
    otherwise the vertex set gains [v] and nothing else, the edges stay, and
    adding [v] again changes nothing. *)
Theorem AddVertex_adds d v :
  ((AddVertex d v).2 = false ↔ v = Nil) ∧
  (v = Nil → (AddVertex d v).1 = d) ∧
  (∀ x, x ∈ vertices (AddVertex d v).1 ↔ x ∈ vertices d ∨ (x = v ∧ v ≠ Nil)) ∧
  edges (AddVertex d v).1 = edges d ∧
  AddVertex (AddVertex d v).1 v = AddVertex d v.
Proof.
  unfold AddVertex. destruct (decide (v = Nil)) as [->|Hv]; simpl.
  - split; [done|]. split; [done|]. by split; [prop_solve|].
  - split; [prop_solve|]. split; [done|]. split; [|split; [done|]].
    + intros x. destruct (decide (v ∈ vertices d)) as [Hin|Hin].
      * prop_solve.
      * rewrite elem_of_app, list_elem_of_singleton. prop_solve.
    + destruct (decide (v ∈ vertices d)); simpl.
      * by rewrite decide_True.
      * rewrite decide_True; [done|].
        apply elem_of_app. right. by apply list_elem_of_singleton.
Qed.

(** Removing a vertex that was just added to a store that did not mention it
    gives the store back. *)
Theorem AddVertex_RemoveVertex d v :
  (v ∉ vertices d) → (∀ e, e ∈ edges d → ¬ touches v e) →
  (RemoveVertex (AddVertex d v).1 v).1 = d.
Proof.
  intros Hv He. unfold AddVertex, RemoveVertex.
  destruct (decide (v = Nil)); simpl; [done|].
  rewrite decide_False by done. simpl.
  destruct d as [vs es]. simpl in *. f_equal.
  - rewrite filter_app, filter_cons_False, filter_nil, app_nil_r by tauto.
    by apply filter_ne_id.
  - by apply filter_keeps_all.
Qed.

Lemma AddVertex_RemoveVertex_witness :
  (RemoveVertex (AddVertex chain5 (Ref 7)).1 (Ref 7)).1 = chain5.
Proof.
  apply (AddVertex_RemoveVertex chain5 (Ref 7)); [compute_done|].
  apply (proj1 (Forall_forall (λ e, ¬ touches (Ref 7) e) (edges chain5))).
  compute_done.
Defined.

(** [RemoveEdge] always reports success, keeps the vertices, and removes
    every stored edge with the endpoints of [e] and no other. *)
Theorem RemoveEdge_removes d e :
  (RemoveEdge d e).2 = true ∧
  vertices (RemoveEdge d e).1 = vertices d ∧
  (∀ a b, edge (RemoveEdge d e).1 a b ↔
          edge d a b ∧ ¬ (a = From e ∧ b = To e)) ∧
  countEdges (RemoveEdge d e).1 (From e) (To e) = 0 ∧
  (RemoveEdge (RemoveEdge d e).1 e).1 = (RemoveEdge d e).1.
Proof.
  unfold RemoveEdge, edge, countEdges. simpl.
  split; [done|]. split; [done|]. split; [|split].
  - intros a b. rewrite list_elem_of_filter. unfold sameEnds. simpl.
    prop_solve.
  - apply length_zero_iff_nil, filter_drops_all.
    intros k [Hk _]%list_elem_of_filter. tauto.
  - f_equal. apply filter_keeps_all.
    by intros k [Hk _]%list_elem_of_filter.
Qed.

(** [RemoveEdge] undoes a [Connect] that added an edge. *)
Theorem Connect_RemoveEdge d from to :
  ¬ edge d from to →
  (RemoveEdge (Connect d from to).1 (RealEdge from to)).1 = d.
Proof.
  intros Hnew.
  assert (filter (λ k, ¬ sameEnds from to k) (edges d) = edges d) as Hsame.
  { apply filter_keeps_all. intros [f t] Hk [Hf Ht]. simpl in *. by subst. }
  unfold Connect, RemoveEdge.
  destruct (decide (from = Nil ∨ to = Nil)); simpl.
  { rewrite Hsame. by destruct d. }
  destruct (decide (Exists _ _)) as [Hex|_]; simpl.
  { by apply Exists_sameEnds in Hex. }
  rewrite filter_app, Hsame, filter_cons_False, filter_nil, app_nil_r.
  - by destruct d.
  - unfold sameEnds. simpl. tauto.
Qed.

Lemma Connect_RemoveEdge_witness :
  (RemoveEdge (Connect chain5 (Ref 1) (Ref 5)).1
              (RealEdge (Ref 1) (Ref 5))).1 = chain5.
Proof. apply (Connect_RemoveEdge chain5 (Ref 1) (Ref 5)). compute_done. Defined.

(** ** Removal from a graph that [validate] accepts *)

(** A store with fewer vertices and edges has no cycles that the larger one
    lacks. *)
Lemma leads_to_cycle_sub d d' reverse v :
  (∀ e, e ∈ edges d' → e ∈ edges d) →
  leads_to_cycle d' reverse v → leads_to_cycle d reverse v.
Proof.
  intros He (x & Hreach & Hcyc).
  assert (∀ a b, follows d' reverse a b → follows d reverse a b) as Hsub.
  { intros a b. destruct reverse.
    - rewrite !follows_out. apply He.
    - rewrite !follows_in. apply He. }
  exists x. split.
  - by apply (rtc_congruence id (follows d reverse)) in Hreach.
  - by apply (tc_congruence id (follows d reverse)) in Hcyc.
Qed.

Lemma validate_sub d d' fuel :
  (∀ v, v ∈ vertices d' → v ∈ vertices d) →
  (∀ e, e ∈ edges d' → e ∈ edges d) →
  length (nodes d) < fuel → length (nodes d') ≤ length (nodes d) →
  validate fuel d = Some None → Root d' ≠ Nil →
  validate fuel d' = Some None.
Proof.
  intros Hv He Hfuel Hlen Hval Hroot.
  apply (validate_decides d fuel Hfuel) in Hval as (_ & Hself & Hgood).
  apply validate_decides; [lia|]. split; [done|]. split.
  - intros a Ha. apply (Hself a). by apply He.
  - intros v Hin Hbad. apply (Hgood v); [by apply Hv|].
    by eapply leads_to_cycle_sub.
Qed.

(** Removing a vertex or an edge from a graph that [validate] accepts can
    only make it invalid by changing the number of roots: no self-loop and
    no cycle appears. *)
Theorem removal_keeps_acyclic d fuel v e :
  length (nodes d) < fuel → validate fuel d = Some None →
  (Root (RemoveVertex d v).1 ≠ Nil →
     validate fuel (RemoveVertex d v).1 = Some None) ∧
  (Root (RemoveEdge d e).1 ≠ Nil →
     validate fuel (RemoveEdge d e).1 = Some None).
Proof.
  intros Hfuel Hval. split; intros Hroot.
  - revert Hroot. unfold RemoveVertex. destruct (decide (v = Nil)); [done|].
    simpl. intros Hroot.
    apply (validate_sub d _ fuel); [| |done| |done|done]; simpl.
    + by intros x [_ ?]%list_elem_of_filter.
    + by intros k [_ ?]%list_elem_of_filter.
    + unfold nodes. simpl. rewrite !length_app, !length_fmap.
      pose proof (length_filter (λ x, x ≠ v) (vertices d)).
      pose proof (length_filter (λ k, ¬ touches v k) (edges d)). lia.
  - apply (validate_sub d _ fuel); [| |done| |done|done]; simpl.
    + done.
    + by intros k [_ ?]%list_elem_of_filter.
    + unfold nodes. simpl. rewrite !length_app, !length_fmap.
      pose proof (length_filter (λ k, ¬ sameEnds (From e) (To e) k) (edges d)).
      lia.
Qed.

Lemma removal_keeps_acyclic_witness :
  Root (RemoveVertex chain5 (Ref 5)).1 = Ref 1 ∧
  validate 10 (RemoveVertex chain5 (Ref 5)).1 = Some None ∧
  Root (RemoveEdge diamond (RealEdge (Ref 2) (Ref 4))).1 = Ref 1 ∧
  validate 10 (RemoveEdge diamond (RealEdge (Ref 2) (Ref 4))).1 = Some None.
Proof.
  split; [reflexivity|]. split; [|split; [reflexivity|]].
  - apply (removal_keeps_acyclic chain5 10 (Ref 5) (RealEdge Nil Nil));
      [simpl; lia|reflexivity|done].
  - apply (removal_keeps_acyclic diamond 10 Nil (RealEdge (Ref 2) (Ref 4)));
      [simpl; lia|reflexivity|done].
Defined.

(** A vertex added to a graph with a root, and not yet the target of an
    edge, is a second root: [validate] rejects the graph and both walks
    return the error without invoking the walk function. *)
Theorem AddVertex_second_root {St : Type} d v fuel (fn : WalkFunc St) s :
  Root d ≠ Nil → v ≠ Nil → (v ∉ vertices d) → zeroIn d v →
  Root (AddVertex d v).1 = Nil ∧
  validate fuel (AddVertex d v).1 = Some (Some ErrNoSingleRoot) ∧
  WalkTopoOrder fuel (AddVertex d v).1 (logged fn) (s, [])
    = Some ((s, []), Some ErrNoSingleRoot) ∧
  WalkReverseTopoOrder fuel (AddVertex d v).1 (logged fn) (s, [])
    = Some ((s, []), Some ErrNoSingleRoot).
Proof.
  intros Hroot Hv Hnew Hzero.
  assert (Root (AddVertex d v).1 = Nil) as Hnil.
  { unfold AddVertex. rewrite decide_False by done. simpl.
    rewrite decide_False by done. revert Hroot. unfold Root, roots, inAdj.
    simpl. rewrite filter_app.
    rewrite (filter_cons_True _ v []); [|by apply inAdj_nil].
    rewrite filter_nil.
    by destruct (filter _ (vertices d)) as [|r [|r' l]]. }
  assert (validate fuel (AddVertex d v).1 = Some (Some ErrNoSingleRoot)) as Hval.
  { unfold validate. by rewrite decide_True. }
  unfold WalkTopoOrder, WalkReverseTopoOrder. by rewrite Hval.
Qed.

Lemma AddVertex_second_root_witness :
  Root (AddVertex chain5 (Ref 7)).1 = Nil ∧
  validate 3 (AddVertex chain5 (Ref 7)).1 = Some (Some ErrNoSingleRoot) ∧
  WalkTopoOrder 3 (AddVertex chain5 (Ref 7)).1 (logged countCalls) (0, [])
    = Some ((0, []), Some ErrNoSingleRoot) ∧
  WalkReverseTopoOrder 3 (AddVertex chain5 (Ref 7)).1 (logged countCalls) (0, [])
    = Some ((0, []), Some ErrNoSingleRoot).
Proof.
  apply (AddVertex_second_root chain5 (Ref 7) 3 countCalls 0); compute_done.
Defined.

(** [validate] does not protect the forward walk: on a graph it accepts in
    which a stored vertex is reached from a cycle (through edges whose
    sources were never added as vertices), [WalkTopoOrder] recurses without
    end, whatever the recursion budget. *)
Theorem WalkTopoOrder_never_returns {St : Type} d v fuel0 (fn : WalkFunc St) s :
  validate fuel0 d = Some None → v ∈ vertices d → leads_to_cycle d false v →
  ∀ fuel, WalkTopoOrder fuel d fn s = None.
Proof.
  intros Hval Hv Hbad fuel. unfold WalkTopoOrder.
  destruct (validate fuel d) as [[err|]|] eqn:Hres; [|  |done].
  - apply (validate_mono d fuel (fuel `max` fuel0)) in Hres; [|lia].
    apply (validate_mono d fuel0 (fuel `max` fuel0)) in Hval; [|lia].
    congruence.
  - destruct (topologicalOrder fuel d false) as [orders|] eqn:Hrun; [|done].
    apply topologicalOrder_any in Hrun as (_ & _ & _ & Hgood).
    by destruct (Hgood v Hv).
Qed.

Lemma WalkTopoOrder_never_returns_witness :
  validate 7 dangling = Some None ∧
  ∀ fuel, WalkTopoOrder fuel dangling countCalls 0 = None.
Proof.
  split; [reflexivity|].
  apply (WalkTopoOrder_never_returns dangling (Ref 2) 7 countCalls 0).
  - reflexivity.
  - compute_done.
  - exists (Ref 8). split.
    + apply rtc_once. unfold follows. compute_done.
    + apply (tc_l _ _ (Ref 9)); [|apply tc_once]; unfold follows; compute_done.
Defined.

(** In [dangling] the vertices 8 and 9 precede each other, so the closure of
    [topologicalOrder] never returns from either. *)
Lemma dangling_walk fuel : ∀ s,
  Ref 8 ∉ s.1 → Ref 9 ∉ s.1 →
  topoWalk dangling false fuel (Ref 8) s = None ∧
  topoWalk dangling false fuel (Ref 9) s = None.
Proof.
  induction fuel as [|fuel IH]; intros s H8 H9; [done|].
  destruct (IH s H8 H9) as [IH8 IH9]. cbn [topoWalk].
  rewrite !decide_False by done.
  change (adjacent dangling false (Ref 8)) with [Ref 9].
  change (adjacent dangling false (Ref 9)) with [Ref 8].
  cbn [foldWalk]. by rewrite IH8, IH9.
Qed.

(** [validate] looks for cycles along outgoing edges from the stored
    vertices only, and [Connect] stores edges between vertices that were
    never added: [validate] accepts [dangling], and the forward order, which
    follows incoming edges, is never computed. *)
Theorem validate_accepts_dangling :
  validate 7 dangling = Some None ∧
  (∀ fuel, topologicalOrder fuel dangling false = None) ∧
  (∀ fuel, WalkTopoOrder fuel dangling countCalls 0 = None).
Proof.
  assert (∀ fuel, topologicalOrder fuel dangling false = None) as Hdiv.
  { intros [|fuel]; [done|]. unfold topologicalOrder.
    change (vertices dangling) with [Ref 1; Ref 2].
    change (foldWalk (topoWalk dangling false (S fuel)) [Ref 1; Ref 2] ([], []))
      with (match topoWalk dangling false (S fuel) (Ref 2) ([Ref 1], [Ref 1])
            with
            | Some s' => Some s'
            | None => None
            end).
    cbn [topoWalk]. rewrite decide_False by compute_done.
    change (adjacent dangling false (Ref 2)) with [Ref 1; Ref 8].
    cbn [foldWalk].
    destruct (topoWalk dangling false fuel (Ref 1) ([Ref 1], [Ref 1]))
      as [s'|] eqn:H1; [|done].
    assert (s' = ([Ref 1], [Ref 1])) as ->.
    { destruct fuel; [done|]. cbn [topoWalk] in H1.
      rewrite decide_True in H1 by compute_done. congruence. }
    destruct (dangling_walk fuel ([Ref 1], [Ref 1])) as [-> _];
      [compute_done..|done]. }
  split; [done|]. split; [done|].
  intros fuel. unfold WalkTopoOrder. rewrite Hdiv.
  destruct (validate fuel dangling) as [[err|]|] eqn:Hval; try done.
  apply (validate_mono _ _ (fuel + 7)) in Hval; [|lia].
  assert (validate 7 dangling = Some None) as H7 by done.
  apply (validate_mono _ _ (fuel + 7)) in H7; [|lia]. congruence.
Qed.

End GraphFacts.


Module ViewFacts.
Import View.

Section facts.
Context {Object RuntimeObject ObjectList : Type}.
Context (cli : Client Object RuntimeObject ObjectList).

(** ** The rule matcher *)

Lemma objectTypeToGVK_non_nil ot : objectTypeToGVK cli (Some ot) ≠ inr None.
Proof. simpl. by destruct (ParseGroupVersion _ _). Qed.

(** The matcher returns normally exactly when every Primary parses, and
    then appends to its accumulator the rules that parse to [objGVK], in
    order. *)
Lemma matchRules_inr objGVK ownershipRules : ∀ rules selected,
  matchRules cli objGVK ownershipRules rules = inr selected ↔
  Forall (λ r, ∃ gvk, objectTypeToGVK cli (Some (Primary r)) = inr (Some gvk))
    ownershipRules ∧
  selected
  = rules ++ filter (λ r, objectTypeToGVK cli (Some (Primary r)) = inr (Some objGVK))
               ownershipRules.
Proof.
  induction ownershipRules as [|rule rest IH]; intros rules selected.
  - simpl. rewrite app_nil_r. split.
    + intros ?. simplify_eq. by split.
    + by intros [_ ->].
  - cbn [matchRules]. rewrite filter_cons, Forall_cons.
    destruct (objectTypeToGVK cli (Some (Primary rule))) as [err|[gvk|]] eqn:Hparse.
    + split; [done|]. by intros [[[gvk ?] _] _].
    + rewrite IH. destruct (decide (gvk = objGVK)) as [->|Hne].
      * rewrite decide_True by done. rewrite <- app_assoc. simpl.
        split; [intros [? ?]|intros [[_ ?] ?]]; eauto.
      * rewrite decide_False by congruence.
        split; [intros [? ?]|intros [[_ ?] ?]]; eauto.
    + by destruct (objectTypeToGVK_non_nil (Primary rule)).
Qed.

(** The matcher fails only with the error of a Primary that does not
    parse. *)
Lemma matchRules_inl objGVK ownershipRules : ∀ rules err,
  matchRules cli objGVK ownershipRules rules = inl err →
  ∃ r, r ∈ ownershipRules ∧ objectTypeToGVK cli (Some (Primary r)) = inl err.
Proof.
  induction ownershipRules as [|rule rest IH]; intros rules err; [done|].
  cbn [matchRules].
  destruct (objectTypeToGVK cli (Some (Primary rule))) as [err'|[gvk|]] eqn:Hparse.
  - intros ?. simplify_eq. exists rule. split; [left|done].
  - intros (r & Hr & Hrerr)%IH. exists r. split; [by right|done].
  - by destruct (objectTypeToGVK_non_nil (Primary rule)).
Qed.

Lemma filter_idemp {A} (P : A → Prop) `{∀ x, Decision (P x)} (l : list A) :
  filter P (filter P l) = filter P l.
Proof.
  induction l as [|x l IH]; [done|]. rewrite filter_cons.
  destruct (decide (P x)); [|done]. rewrite filter_cons_True by done.
  by rewrite IH.
Qed.

(** Matching the matched rules again changes nothing. *)
Lemma matchRules_again objGVK ownershipRules matched :
  matchRules cli objGVK ownershipRules [] = inr matched →
  matchRules cli objGVK matched [] = inr matched.
Proof.
  rewrite !matchRules_inr. simpl. intros [Hall ->]. split.
  - apply Forall_forall. intros r [_ Hr]%list_elem_of_filter.
    by apply (proj1 (Forall_forall _ _) Hall).
  - by rewrite filter_idemp.
Qed.

(** So [getObjectTreeFromCache], which matches before it calls
    [getSecondaryObjectsOf], queries for the same secondaries as
    [getObjectsFromCache], which does not. *)
Lemma secondaries_of_matched obj objGVK ownershipRules matched :
  GVKForObject cli obj = inr objGVK →
  matchRules cli objGVK ownershipRules [] = inr matched →
  getSecondaryObjectsOf cli obj matched = getSecondaryObjectsOf cli obj ownershipRules.
Proof.
  intros Hgvk Hmatch. unfold getSecondaryObjectsOf.
  by rewrite Hgvk, Hmatch, (matchRules_again _ _ _ Hmatch).
Qed.

(** C7. The rule matcher of [getSecondaryObjectsOf] selects exactly the
    rules whose Primary type parses to the group, version and kind of the
    object, in the order of the rule list: a rule whose Primary differs in
    group, version or kind is not selected.  (When some Primary does not
    parse, nothing is selected: the call returns that error.) *)
Theorem matchRules_selects_exactly obj objGVK ownershipRules :
  GVKForObject cli obj = inr objGVK →
  (∃ rules,
     matchRules cli objGVK ownershipRules [] = inr rules ∧
     getSecondaryObjectsOf cli obj ownershipRules
     = rulesObjects cli obj rules [] ∧
     rules
     = filter (λ r, objectTypeToGVK cli (Some (Primary r)) = inr (Some objGVK))
         ownershipRules ∧
     ∀ r, r ∈ rules ↔
          r ∈ ownershipRules ∧
          ∃ gv, ParseGroupVersion cli (ot_APIVersion (Primary r)) = inr gv ∧
                gv_Group gv = Group objGVK ∧
                gv_Version gv = Version objGVK ∧
                ot_Kind (Primary r) = Kind objGVK) ∨
  (∃ err r,
     r ∈ ownershipRules ∧ objectTypeToGVK cli (Some (Primary r)) = inl err ∧
     matchRules cli objGVK ownershipRules [] = inl err ∧
     getSecondaryObjectsOf cli obj ownershipRules = inl err).
Proof.
  intros Hgvk. unfold getSecondaryObjectsOf. rewrite Hgvk.
  destruct (matchRules cli objGVK ownershipRules []) as [err|rules] eqn:Hmatch.
  - right. destruct (matchRules_inl _ _ _ _ Hmatch) as (r & Hr & Herr).
    by exists err, r.
  - left. exists rules. split; [done|]. split; [done|].
    apply matchRules_inr in Hmatch as [_ ->]. simpl. split; [done|].
    intros r. rewrite list_elem_of_filter. simpl.
    destruct (ParseGroupVersion cli (ot_APIVersion (Primary r))) as [e|gv].
    + split; [by intros [? _]|by intros [_ (gv & ? & _)]].
    + split.
      * intros [Heq Hr]. split; [done|]. exists gv. split; [done|].
        injection Heq as <-. by repeat split.
      * intros [Hr (gv' & Hgv & Hg & Hv & Hk)]. split; [|done].
        simplify_eq. do 2 f_equal. unfold WithKind.
        destruct objGVK; simpl in *. by subst.
Qed.

(** ** The tree builder *)

Lemma primaries_node p ss ref :
  ref ∈ primaries (mkNode p ss) ↔
  ref = p ∨ ∃ c, Some c ∈ ss ∧ ref ∈ primaries c.
Proof.
  simpl. rewrite elem_of_cons. apply or_iff_compat_l.
  induction ss as [|[c|] ss IH].
  - split; [by intros ?%elem_of_nil|by intros (c & ?%elem_of_nil & _)].
  - rewrite elem_of_app, IH. split.
    + intros [Hc|(c' & Hin & Hc')].
      * exists c. split; [left|done].
      * exists c'. split; [by right|done].
    + intros (c' & Hin & Hc'). apply elem_of_cons in Hin as [Heq|Hin].
      * left. by simplify_eq.
      * right. by exists c'.
  - rewrite IH. split.
    + intros (c' & Hin & Hc'). exists c'. split; [by right|done].
    + intros (c' & Hin & Hc'). apply elem_of_cons in Hin as [Heq|Hin]; [done|].
      by exists c'.
Qed.

(** The loop over the secondaries appends one subtree per secondary. *)
Lemma subTrees_inr (build : Object → option (error + option ObjectTreeNode))
    secondaries : ∀ trees result,
  subTrees build secondaries trees = Some (inr result) →
  ∃ ts, result = trees ++ ts ∧
        Forall2 (λ s t, build s = Some (inr t)) secondaries ts.
Proof.
  induction secondaries as [|s rest IH]; intros trees result Hrun;
    simpl in Hrun.
  - simplify_eq. exists []. split; [by rewrite app_nil_r|constructor].
  - destruct (build s) as [[err|t]|] eqn:Hs; try done.
    destruct (IH _ _ Hrun) as (ts & -> & Hall).
    exists (t :: ts). split; [by rewrite <- app_assoc|by constructor].
Qed.

(** The Primary references of the tree built for [o] are the references of
    the objects [o] owns, directly or through other objects, and of [o]. *)
Lemma tree_primaries ownershipRules fuel : ∀ o t,
  getObjectTreeFromCache cli fuel (Some o) ownershipRules = Some (inr t) →
  ∃ tree, t = Some tree ∧
    ∀ ref, ref ∈ primaries tree ↔
           ∃ o', rtc (owns cli ownershipRules) o o' ∧
                 getObjectReference cli o' = inr ref.
Proof.
  induction fuel as [|fuel IH]; intros o t Hrun; simpl in Hrun; [done|].
  destruct (getObjectReference cli o) as [|reference] eqn:Href; [done|].
  destruct (GVKForObject cli o) as [|primaryGVK] eqn:Hgvk; [done|].
  destruct (matchRules cli primaryGVK ownershipRules [])
    as [|matchedRules] eqn:Hmatch; [done|].
  rewrite (secondaries_of_matched _ _ _ _ Hgvk Hmatch) in Hrun.
  destruct (getSecondaryObjectsOf cli o ownershipRules)
    as [|secondaries] eqn:Hsecs; [done|].
  destruct (subTrees _ _ _) as [[|trees]|] eqn:Hsub; try done.
  simplify_eq. eexists. split; [done|].
  apply subTrees_inr in Hsub as (ts & -> & Hall).
  intros ref. rewrite primaries_node. rewrite app_nil_l. split.
  - intros [->|(c & Hc & Hin)].
    + by exists o.
    + apply list_elem_of_lookup in Hc as [i Hi].
      destruct (Forall2_lookup_r _ _ _ _ _ Hall Hi) as (s & Hs & Hbuild).
      destruct (IH _ _ Hbuild) as (c' & ? & Hiff). simplify_eq.
      apply Hiff in Hin as (o' & Hreach & Ho').
      exists o'. split; [|done]. eapply rtc_l; [|done].
      exists secondaries. split; [done|]. apply list_elem_of_lookup. eauto.
  - intros (o' & Hreach & Ho').
    apply rtc_inv in Hreach as [<-|(s & (secs & Hsecs' & Hs) & Hreach)].
    + left. congruence.
    + right. assert (secs = secondaries) as -> by congruence.
      apply list_elem_of_lookup in Hs as [i Hi].
      destruct (Forall2_lookup_l _ _ _ _ _ Hall Hi) as (t & Ht & Hbuild).
      destruct (IH _ _ Hbuild) as (c & -> & Hiff).
      exists c. split; [apply list_elem_of_lookup; eauto|].
      apply Hiff. by exists o'.
Qed.

(** ** The flat collector *)

Lemma drain_nil fuel ownershipRules (w : work Object) :
  waitingList w = [] →
  drain cli fuel ownershipRules w = Some (inr (objectSet w, objectMap w)).
Proof. intros Hw. destruct fuel; simpl; by rewrite Hw. Qed.

Lemma drain_cons fuel ownershipRules (w : work Object) obj rest :
  waitingList w = obj :: rest →
  drain cli (S fuel) ownershipRules w
  = match iteration cli ownershipRules obj
            (mkWork rest (objectSet w) (objectMap w)) with
    | inl err => Some (inl err)
    | inr w' => drain cli fuel ownershipRules w'
    end.
Proof. intros Hw. simpl. by rewrite Hw. Qed.

(** The identities collected are those of the waiting objects and of
    everything they own, directly or through other objects, besides the
    ones collected before; the map has the set as its domain. *)
Lemma drain_collects ownershipRules fuel : ∀ (w : work Object) set map,
  drain cli fuel ownershipRules w = Some (inr (set, map)) →
  (∀ k, k ∈ set ↔
        k ∈ objectSet w ∨
        ∃ q o, q ∈ waitingList w ∧ rtc (owns cli ownershipRules) q o ∧
               getObjectRef cli o = inr k) ∧
  (dom (objectMap w) = objectSet w → dom map = set).
Proof.
  induction fuel as [|fuel IH]; intros w set map Hrun.
  - destruct (waitingList w) as [|obj rest] eqn:Hw.
    + rewrite drain_nil in Hrun by done. simplify_eq. split; [|done].
      intros k. split; [by left|].
      by intros [?|(q & o & ?%elem_of_nil & _)].
    + simpl in Hrun. by rewrite Hw in Hrun.
  - destruct (waitingList w) as [|obj rest] eqn:Hw.
    + rewrite drain_nil in Hrun by done. simplify_eq. split; [|done].
      intros k. split; [by left|].
      by intros [?|(q & o & ?%elem_of_nil & _)].
    + rewrite (drain_cons _ _ _ _ _ Hw) in Hrun. unfold iteration in Hrun.
      destruct (getObjectRef cli obj) as [|objKey] eqn:Hkey; [done|].
      destruct (getSecondaryObjectsOf cli obj ownershipRules)
        as [|secondaries] eqn:Hsecs; [done|].
      apply IH in Hrun as [Hiff Hdom]. simpl in *. split.
      * intros k. rewrite Hiff, elem_of_union, elem_of_singleton. split.
        -- intros [[->|Hk]|(q & o & Hq & Hreach & Ho)].
           ++ right. exists obj, obj. split; [left|done].
           ++ by left.
           ++ right. apply elem_of_app in Hq as [Hq|Hq].
              ** exists q, o. split; [by right|done].
              ** exists obj, o. split; [left|]. split; [|done].
                 eapply rtc_l; [|done]. by exists secondaries.
        -- intros [Hk|(q & o & Hq & Hreach & Ho)]; [by left; right|].
           apply elem_of_cons in Hq as [->|Hq].
           ++ apply rtc_inv in Hreach
                as [<-|(s & (secs & Hsecs' & Hs) & Hreach)].
              ** left. left. congruence.
              ** right. assert (secs = secondaries) as -> by congruence.
                 exists s, o.
                 split; [|done]. apply elem_of_app. by right.
           ++ right. exists q, o. split; [|done]. apply elem_of_app. by left.
      * intros Hd. apply Hdom. by rewrite dom_insert_L, Hd.
Qed.

(** A reference and an identity taken from the same object agree, when the
    API version written into the reference parses back. *)
Lemma reference_identity o ref k :
  (∀ o gvk, GVKForObject cli o = inr gvk →
     ParseGroupVersion cli (GroupVersionString cli (GroupVersionOf gvk))
     = inr (GroupVersionOf gvk)) →
  getObjectReference cli o = inr ref → getObjectRef cli o = inr k →
  objectReferenceToRef cli (Some ref) = inr (Some k).
Proof.
  intros Hparse. unfold getObjectReference, getObjectRef.
  destruct (GVKForObject cli o) as [|gvk] eqn:Hgvk; [done|].
  intros ? ?. simplify_eq. simpl. rewrite (Hparse _ _ Hgvk).
  by destruct gvk.
Qed.

Lemma reference_iff_identity o :
  (∃ ref, getObjectReference cli o = inr ref) ↔
  (∃ k, getObjectRef cli o = inr k).
Proof.
  unfold getObjectReference, getObjectRef.
  destruct (GVKForObject cli o); split; intros [? ?]; by eauto.
Qed.

(** C8. When both builders succeed on a root and a rule set, the identity
    set of [getObjectsFromCache] is the set of the identities of the Primary
    references in the tree of [getObjectTreeFromCache]: every Primary has an
    identity, which is in the set, and every member of the set is the
    identity of a Primary.  The set lists no identity twice, and it is the
    domain of the identity-to-object map.  (An API version written by
    [getObjectReference] is taken to parse back to its group and
    version.) *)
Theorem getObjectsFromCache_matches_tree
    fuel1 fuel2 root ownershipRules tree set map :
  (∀ o gvk, GVKForObject cli o = inr gvk →
     ParseGroupVersion cli (GroupVersionString cli (GroupVersionOf gvk))
     = inr (GroupVersionOf gvk)) →
  getObjectTreeFromCache cli fuel1 (Some root) ownershipRules
  = Some (inr (Some tree)) →
  getObjectsFromCache cli fuel2 root ownershipRules = Some (inr (set, map)) →
  (∀ ref, ref ∈ primaries tree →
     ∃ k, objectReferenceToRef cli (Some ref) = inr (Some k) ∧ k ∈ set) ∧
  (∀ k, k ∈ set →
     ∃ ref, ref ∈ primaries tree ∧
            objectReferenceToRef cli (Some ref) = inr (Some k)) ∧
  NoDup (elements set) ∧ dom map = set.
Proof.
  intros Hparse Htree Hflat.
  apply tree_primaries in Htree as (tree' & ? & Htree). simplify_eq.
  apply drain_collects in Hflat as [Hflat Hdom]. simpl in *.
  split; [|split; [|split]].
  - intros ref (o & Hreach & Href)%Htree.
    destruct (proj1 (reference_iff_identity o)) as [k Hk]; [by eauto|].
    exists k. split; [by eapply reference_identity|].
    apply Hflat. right. exists root, o. split; [left|done].
  - intros k [Hk|(q & o & Hq & Hreach & Ho)]%Hflat; [by apply elem_of_empty in Hk|].
    apply list_elem_of_singleton in Hq as ->.
    destruct (proj2 (reference_iff_identity o)) as [ref Href]; [by eauto|].
    exists ref. split; [apply Htree; by exists o|].
    by eapply reference_identity.
  - apply NoDup_elements.
  - apply Hdom. by rewrite dom_empty_L.
Qed.

(** ** The loop of the flat collector *)




End facts.

(** ** The fixture *)

Lemma sample_parses_back o gvk :
  GVKForObject sampleClient o = inr gvk →
  ParseGroupVersion sampleClient
    (GroupVersionString sampleClient (GroupVersionOf gvk))
  = inr (GroupVersionOf gvk).
Proof. intros Hgvk. injection Hgvk as <-. by destruct o. Qed.

Lemma matchRules_selects_exactly_witness :
  matchRules sampleClient (sampleGVK PodA) sampleRules []
  = inr [mkRule podType [mkOwned confType (byLabel "owner" "$(primary.name)")]].
Proof.
  destruct (matchRules_selects_exactly sampleClient PodA (sampleGVK PodA)
              sampleRules eq_refl)
    as [(rules & Hm & _ & Hf & _)|(err & r & _ & _ & Hm & _)].
  - rewrite Hm, Hf. reflexivity.
  - vm_compute in Hm. discriminate Hm.
Defined.

Lemma getObjectsFromCache_matches_tree_witness :
  ∃ tree set map,
    sampleTree 4 (Some TheCluster) twoPathRules = Some (inr (Some tree)) ∧
    sampleObjects 12 TheCluster twoPathRules = Some (inr (set, map)) ∧
    length (primaries tree) = 9 ∧ size set = 5 ∧
    (∀ ref, ref ∈ primaries tree →
       ∃ k, objectReferenceToRef sampleClient (Some ref) = inr (Some k) ∧
            k ∈ set) ∧
    (∀ k, k ∈ set →
       ∃ ref, ref ∈ primaries tree ∧
              objectReferenceToRef sampleClient (Some ref) = inr (Some k)) ∧
    NoDup (elements set) ∧ dom map = set.
Proof.
  assert (match sampleTree 4 (Some TheCluster) twoPathRules with
          | Some (inr (Some tree)) => length (primaries tree)
          | _ => 0
          end = 9) as Hnodes by (vm_compute; reflexivity).
  assert (match sampleObjects 12 TheCluster twoPathRules with
          | Some (inr (set, _)) => size set
          | _ => 0
          end = 5) as Hsize by (vm_compute; reflexivity).
  destruct (sampleTree 4 (Some TheCluster) twoPathRules)
    as [[err|[tree|]]|] eqn:Htree; try discriminate Hnodes.
  destruct (sampleObjects 12 TheCluster twoPathRules)
    as [[err|[set map]]|] eqn:Hflat; try discriminate Hsize.
  exists tree, set, map. split; [reflexivity|]. split; [reflexivity|].
  split; [exact Hnodes|]. split; [exact Hsize|].
  exact (getObjectsFromCache_matches_tree sampleClient 4 12 TheCluster
           twoPathRules tree set map sample_parses_back Htree Hflat).
Defined.

(** Ownership under [sampleRules] goes down in height. *)
Lemma sampleRules_well_founded o s :
  owns sampleClient sampleRules o s → sampleDepth s < sampleDepth o.
Proof.
  intros (secs & Hsecs & Hs).
  destruct o; vm_compute in Hsecs; injection Hsecs as <-;
    repeat (apply elem_of_cons in Hs as [->|Hs]; [simpl; lia|]);
    by apply elem_of_nil in Hs.
Qed.


Lemma cyclic_secondaries o :
  o = PodA ∨ o = PodB →
  getSecondaryObjectsOf sampleClient o cyclicRules = inr [PodA; PodB].
Proof. intros [-> | ->]; vm_compute; reflexivity. Qed.





(** ** Conversions between types, references and identities *)

Section conversions.
Context {Object RuntimeObject ObjectList : Type}.
Context (cli : Client Object RuntimeObject ObjectList).

(** The type of a reference parses to the group/version/kind of the
    identity of that reference, and fails with the same error; the type of
    the reference written for an identity is the type of the identity; the
    reference of an object is the reference written for its identity with
    its UID and resource version, and the two fail together, with the same
    error.  The conversions that parse accept a nil pointer, those that only
    copy fields panic on it. *)
Theorem conversions_agree (ref : ObjectReference) (k : GVKNObjKey)
    (uid rv : string) (o : Object) :
  (∃ ot, objectReferenceToType (Some ref) = inr ot ∧
         objectTypeToGVK cli (Some ot)
         = match objectReferenceToRef cli (Some ref) with
           | inl err => inl err
           | inr key => inr (key_GVK <$> key)
           end) ∧
  objectReferenceToType (Some (objectRefToReference cli k uid rv))
  = objectRefToType cli (Some k) ∧
  getObjectReference cli o
  = match getObjectRef cli o with
    | inl err => inl err
    | inr k =>
        inr (objectRefToReference cli k (GetUID cli o)
               (GetResourceVersion cli o))
    end ∧
  objectTypeToGVK cli None = inr None ∧
  objectReferenceToRef cli None = inr None ∧
  objectReferenceToType None = inl ErrPanic ∧
  objectRefToType cli None = inl ErrPanic.
Proof.
  split; [|split; [done|split; [|done]]].
  - eexists. split; [done|]. simpl.
    by destruct (ParseGroupVersion cli (ref_APIVersion ref)).
  - unfold getObjectReference, getObjectRef.
    by destruct (GVKForObject cli o).
Qed.

(** A reference written for an identity reads back as that identity, and
    carries the given UID and resource version, provided the API version
    string of the identity parses back to its group and version. *)
Theorem objectRefToReference_round_trip (k : GVKNObjKey) (uid rv : string) :
  ParseGroupVersion cli (GroupVersionString cli (GroupVersionOf (key_GVK k)))
  = inr (GroupVersionOf (key_GVK k)) →
  objectReferenceToRef cli (Some (objectRefToReference cli k uid rv))
  = inr (Some k) ∧
  ref_UID (objectRefToReference cli k uid rv) = uid ∧
  ref_ResourceVersion (objectRefToReference cli k uid rv) = rv.
Proof.
  intros Hparse. split; [|done]. simpl. rewrite Hparse.
  by destruct k as [[g v kd] ns n].
Qed.

(** ** Listing by kind *)

Lemma castObjects_inr gvk runtimeObjects : ∀ acc objects,
  castObjects cli gvk runtimeObjects acc = inr objects ↔
  ∃ new, objects = acc ++ new ∧
         Forall2 (λ r o, asObject cli r = Some o) runtimeObjects new.
Proof.
  induction runtimeObjects as [|r rest IH]; intros acc objects; simpl.
  - split.
    + intros ?. simplify_eq. exists []. by rewrite app_nil_r.
    + intros (new & -> & ->%Forall2_nil_inv_l). by rewrite app_nil_r.
  - destruct (asObject cli r) as [o|] eqn:Hr.
    + rewrite IH. split.
      * intros (new & -> & Hall). exists (o :: new).
        rewrite <- app_assoc. split; [done|]. by constructor.
      * intros (new & -> & Hall).
        apply Forall2_cons_inv_l in Hall as (o' & new' & Ho & Hall & ->).
        exists new'. rewrite <- app_assoc. by simplify_eq.
    + split; [done|]. intros (new & _ & Hall).
      apply Forall2_cons_inv_l in Hall as (o' & new' & Ho & _). congruence.
Qed.

Lemma castObjects_inl gvk runtimeObjects : ∀ acc,
  Exists (λ r, asObject cli r = None) runtimeObjects →
  castObjects cli gvk runtimeObjects acc = inl (ErrNotObject gvk).
Proof.
  induction runtimeObjects as [|r rest IH]; intros acc Hex.
  - by apply Exists_nil in Hex.
  - simpl. destruct (asObject cli r) as [o|] eqn:Hr; [|done].
    apply IH. apply Exists_cons in Hex as [Hex|Hex]; [congruence|done].
Qed.

(** [getObjectsByGVK] asks the scheme for the kind with "List" appended and
    returns the listed items, one object per item and in their order.  When
    one item is not a [client.Object] the call fails as a whole: no part of
    the list is returned. *)
Theorem getObjectsByGVK_all_or_nothing gvk ml :
  (∀ objects,
     getObjectsByGVK cli gvk ml = inr objects ↔
     ∃ rol ol ol' ros,
       SchemeNew cli (mkGVK (Group gvk) (Version gvk) (Kind gvk +:+ "List"))
       = inr rol ∧
       asObjectList cli rol = Some ol ∧ ListObjects cli ol ml = inr ol' ∧
       ExtractList cli ol' = inr ros ∧
       Forall2 (λ r o, asObject cli r = Some o) ros objects) ∧
  (∀ rol ol ol' ros,
     SchemeNew cli (mkGVK (Group gvk) (Version gvk) (Kind gvk +:+ "List"))
     = inr rol →
     asObjectList cli rol = Some ol → ListObjects cli ol ml = inr ol' →
     ExtractList cli ol' = inr ros →
     Exists (λ r, asObject cli r = None) ros →
     getObjectsByGVK cli gvk ml = inl (ErrNotObject gvk)).
Proof.
  unfold getObjectsByGVK. split.
  - intros objects. split.
    + destruct (SchemeNew cli _) as [|rol] eqn:Hnew; [done|].
      destruct (asObjectList cli rol) as [ol|] eqn:Hol; [|done].
      destruct (ListObjects cli ol ml) as [|ol'] eqn:Hlist; [done|].
      destruct (ExtractList cli ol') as [|ros] eqn:Hros; [done|].
      intros (new & -> & Hall)%castObjects_inr. by exists rol, ol, ol', ros.
    + intros (rol & ol & ol' & ros & -> & -> & -> & -> & Hall).
      apply castObjects_inr. by exists objects.
  - intros rol ol ol' ros -> -> -> -> Hex. by apply castObjects_inl.
Qed.

(** ** The secondaries of an object *)

Lemma ownedObjects_app obj l1 l2 : ∀ acc,
  ownedObjects cli obj (l1 ++ l2) acc
  = match ownedObjects cli obj l1 acc with
    | inl err => inl err
    | inr secs => ownedObjects cli obj l2 secs
    end.
Proof.
  induction l1 as [|owned l1 IH]; intros acc; [done|].
  cbn [ownedObjects app].
  destruct (objectTypeToGVK cli (Some (Secondary owned))) as [|[gvk|]];
    try done.
  destruct (parseMatchingLabels cli obj (Criteria owned)) as [|ml]; [done|].
  by destruct (getObjectsByGVK cli gvk ml).
Qed.

Lemma rulesObjects_flat obj rules : ∀ acc,
  rulesObjects cli obj rules acc
  = ownedObjects cli obj (mjoin (OwnedResources <$> rules)) acc.
Proof.
  induction rules as [|rule rules IH]; intros acc; [done|].
  cbn [rulesObjects fmap list_fmap mjoin list_join]. rewrite ownedObjects_app.
  by destruct (ownedObjects cli obj (OwnedResources rule) acc).
Qed.

Lemma ownedObjects_inr obj ownedResources : ∀ acc secs,
  ownedObjects cli obj ownedResources acc = inr secs ↔
  ∃ lists, Forall2 (queried cli obj) ownedResources lists ∧
           secs = acc ++ mjoin lists.
Proof.
  induction ownedResources as [|owned rest IH]; intros acc secs;
    cbn [ownedObjects].
  - split.
    + intros ?. simplify_eq. exists []. split; [done|]. by rewrite app_nil_r.
    + intros (lists & ->%Forall2_nil_inv_l & ->). by rewrite app_nil_r.
  - split.
    + destruct (objectTypeToGVK cli (Some (Secondary owned))) as [|[gvk|]]
        eqn:Hgvk; try done.
      destruct (parseMatchingLabels cli obj (Criteria owned)) as [|ml]
        eqn:Hml; [done|].
      destruct (getObjectsByGVK cli gvk ml) as [|objects] eqn:Hlist; [done|].
      intros (lists & Hall & ->)%IH. exists (objects :: lists). split.
      * constructor; [|done]. by exists gvk, ml.
      * simpl. by rewrite app_assoc.
    + intros (lists & Hall & ->).
      apply Forall2_cons_inv_l in Hall
        as (objects & lists' & (gvk & ml & -> & -> & ->) & Hall & ->).
      apply IH. exists lists'. split; [done|]. simpl. by rewrite app_assoc.
Qed.

(** [getSecondaryObjectsOf] succeeds exactly when the kind of the object is
    known, every rule's Primary parses, and every owned resource of the
    matching rules is queried successfully; its result is then the results
    of these queries one after the other, in the order of the rules and of
    their owned resources, nothing dropped and nothing merged. *)
Theorem getSecondaryObjectsOf_concatenates obj ownershipRules secondaries :
  getSecondaryObjectsOf cli obj ownershipRules = inr secondaries ↔
  ∃ objGVK matched lists,
    GVKForObject cli obj = inr objGVK ∧
    matchRules cli objGVK ownershipRules [] = inr matched ∧
    Forall2 (queried cli obj) (mjoin (OwnedResources <$> matched)) lists ∧
    secondaries = mjoin lists.
Proof.
  unfold getSecondaryObjectsOf. split.
  - destruct (GVKForObject cli obj) as [|objGVK]; [done|].
    destruct (matchRules cli objGVK ownershipRules []) as [|matched] eqn:Hm;
      [done|].
    rewrite rulesObjects_flat. intros (lists & Hall & ->)%ownedObjects_inr.
    by exists objGVK, matched, lists.
  - intros (objGVK & matched & lists & -> & -> & Hall & ->).
    rewrite rulesObjects_flat. apply ownedObjects_inr. by exists lists.
Qed.

(** The secondaries under two rule lists put one after the other are the
    secondaries under the first followed by those under the second; the
    whole succeeds exactly when both parts do. *)
Theorem getSecondaryObjectsOf_app obj rules1 rules2 secondaries :
  getSecondaryObjectsOf cli obj (rules1 ++ rules2) = inr secondaries ↔
  ∃ secs1 secs2,
    getSecondaryObjectsOf cli obj rules1 = inr secs1 ∧
    getSecondaryObjectsOf cli obj rules2 = inr secs2 ∧
    secondaries = secs1 ++ secs2.
Proof.
  unfold getSecondaryObjectsOf.
  destruct (GVKForObject cli obj) as [|objGVK].
  { split; [done|]. by intros (? & ? & ? & _). }
  split.
  - destruct (matchRules cli objGVK (rules1 ++ rules2) []) as [|matched]
      eqn:Hm; [done|].
    apply matchRules_inr in Hm as [[Hp1 Hp2]%Forall_app ->]. simpl.
    rewrite filter_app, rulesObjects_flat, fmap_app, join_app.
    rewrite ownedObjects_app.
    destruct (ownedObjects cli obj _ []) as [|secs1] eqn:H1; [done|].
    intros H2. apply ownedObjects_inr in H2 as (lists & Hall & ->).
    exists secs1, (mjoin lists).
    rewrite (proj2 (matchRules_inr cli objGVK rules1 [] _) (conj Hp1 eq_refl)).
    rewrite (proj2 (matchRules_inr cli objGVK rules2 [] _) (conj Hp2 eq_refl)).
    simpl. rewrite !rulesObjects_flat. split; [done|]. split; [|done].
    apply ownedObjects_inr. by exists lists.
  - intros (secs1 & secs2 & H1 & H2 & ->).
    destruct (matchRules cli objGVK rules1 []) as [|m1] eqn:Hm1; [done|].
    destruct (matchRules cli objGVK rules2 []) as [|m2] eqn:Hm2; [done|].
    apply matchRules_inr in Hm1 as [Hp1 ->].
    apply matchRules_inr in Hm2 as [Hp2 ->]. simpl in *.
    rewrite (proj2 (matchRules_inr cli objGVK (rules1 ++ rules2) [] _)
               (conj (proj2 (Forall_app _ _ _) (conj Hp1 Hp2)) eq_refl)).
    simpl. rewrite filter_app, rulesObjects_flat, fmap_app, join_app.
    rewrite ownedObjects_app. rewrite rulesObjects_flat in H1, H2.
    rewrite H1. apply ownedObjects_inr in H2 as (lists & Hall & ->).
    apply ownedObjects_inr. by exists lists.
Qed.

End conversions.

(** ** The two collectors, compared *)

Section builders.
Context {Object RuntimeObject ObjectList : Type}.
Context (cli : Client Object RuntimeObject ObjectList).
Context (ownershipRules : list OwnershipRule).

Lemma owns_secondaries o secondaries s :
  getSecondaryObjectsOf cli o ownershipRules = inr secondaries →
  owns cli ownershipRules o s ↔ s ∈ secondaries.
Proof.
  intros Hsecs. split.
  - intros (secs & Hsecs' & Hs). congruence.
  - intros Hs. by exists secondaries.
Qed.

Lemma subTrees_Forall2 (build : Object → option (error + option ObjectTreeNode))
    secondaries : ∀ trees ts,
  Forall2 (λ s t, build s = Some (inr t)) secondaries ts →
  subTrees build secondaries trees = Some (inr (trees ++ ts)).
Proof.
  induction secondaries as [|s rest IH]; intros trees ts Hall.
  - apply Forall2_nil_inv_l in Hall as ->. simpl. by rewrite app_nil_r.
  - apply Forall2_cons_inv_l in Hall as (t & ts' & Ht & Hall & ->).
    simpl. rewrite Ht, (IH _ ts' Hall). by rewrite <- app_assoc.
Qed.

Lemma subTrees_inl (build : Object → option (error + option ObjectTreeNode))
    secondaries : ∀ trees err,
  subTrees build secondaries trees = Some (inl err) →
  ∃ s, s ∈ secondaries ∧ build s = Some (inl err).
Proof.
  induction secondaries as [|s rest IH]; intros trees err Hrun;
    simpl in Hrun; [done|].
  destruct (build s) as [[err'|t]|] eqn:Hs; try done.
  - simplify_eq. exists s. split; [by left|done].
  - destruct (IH _ _ Hrun) as (s' & Hin & Hs'). exists s'.
    split; [by right|done].
Qed.

Lemma subTrees_mono (build build' : Object → option (error + option ObjectTreeNode))
    secondaries : ∀ trees r,
  (∀ s r, s ∈ secondaries → build s = Some r → build' s = Some r) →
  subTrees build secondaries trees = Some r →
  subTrees build' secondaries trees = Some r.
Proof.
  induction secondaries as [|s rest IH]; intros trees r Hle Hrun;
    simpl in *; [done|].
  destruct (build s) as [q|] eqn:Hs; [|done].
  rewrite (Hle s q ltac:(by left) Hs). destruct q as [err|t]; [done|].
  apply IH; [|done]. intros s' r' Hin. apply Hle. by right.
Qed.

Lemma subTrees_is_Some (build : Object → option (error + option ObjectTreeNode))
    secondaries : ∀ trees,
  (∀ s, s ∈ secondaries → is_Some (build s)) →
  is_Some (subTrees build secondaries trees).
Proof.
  induction secondaries as [|s rest IH]; intros trees Hall; simpl;
    [by eexists|].
  destruct (Hall s ltac:(by left)) as [[err|t] ->]; [by eexists|].
  apply IH. intros s' Hin. apply Hall. by right.
Qed.

(** One level of the tree builder. *)
Lemma tree_step fuel o t :
  getObjectTreeFromCache cli (S fuel) (Some o) ownershipRules = Some (inr t) ↔
  ∃ ref secs trees,
    getObjectReference cli o = inr ref ∧
    getSecondaryObjectsOf cli o ownershipRules = inr secs ∧
    Forall2 (λ s c, getObjectTreeFromCache cli fuel (Some s) ownershipRules
                    = Some (inr c)) secs trees ∧
    t = Some (mkNode ref trees).
Proof.
  cbn [getObjectTreeFromCache]. split.
  - destruct (getObjectReference cli o) as [|reference] eqn:Href; [done|].
    destruct (GVKForObject cli o) as [|primaryGVK] eqn:Hgvk; [done|].
    destruct (matchRules cli primaryGVK ownershipRules [])
      as [|matchedRules] eqn:Hmatch; [done|].
    rewrite (secondaries_of_matched _ _ _ _ _ Hgvk Hmatch).
    destruct (getSecondaryObjectsOf cli o ownershipRules)
      as [|secondaries] eqn:Hsecs; [done|].
    destruct (subTrees _ _ _) as [[|trees]|] eqn:Hsub; try done.
    intros ?. simplify_eq.
    apply subTrees_inr in Hsub as (ts & -> & Hall).
    by exists reference, secondaries, ts.
  - intros (ref & secs & trees & Href & Hsecs & Hall & ->). rewrite Href.
    destruct (GVKForObject cli o) as [|primaryGVK] eqn:Hgvk.
    { unfold getSecondaryObjectsOf in Hsecs. by rewrite Hgvk in Hsecs. }
    destruct (matchRules cli primaryGVK ownershipRules [])
      as [|matchedRules] eqn:Hmatch.
    { unfold getSecondaryObjectsOf in Hsecs.
      by rewrite Hgvk, Hmatch in Hsecs. }
    rewrite (secondaries_of_matched _ _ _ _ _ Hgvk Hmatch), Hsecs.
    by rewrite (subTrees_Forall2 _ _ [] trees Hall).
Qed.

Lemma tree_mono fuel : ∀ fuel' o r,
  fuel ≤ fuel' →
  getObjectTreeFromCache cli fuel (Some o) ownershipRules = Some r →
  getObjectTreeFromCache cli fuel' (Some o) ownershipRules = Some r.
Proof.
  induction fuel as [|fuel IH]; intros fuel' o r Hle Hrun; [done|].
  destruct fuel' as [|fuel']; [lia|]. cbn [getObjectTreeFromCache] in *.
  destruct (getObjectReference cli o) as [|reference]; [done|].
  destruct (GVKForObject cli o) as [|primaryGVK]; [done|].
  destruct (matchRules cli primaryGVK ownershipRules [])
    as [|matchedRules]; [done|].
  destruct (getSecondaryObjectsOf cli o matchedRules)
    as [|secondaries]; [done|].
  destruct (subTrees _ secondaries []) as [q|] eqn:Hsub; [|done].
  erewrite subTrees_mono; [done| |done].
  intros s r' _. apply IH. lia.
Qed.

Lemma tree_Some fuel o t :
  getObjectTreeFromCache cli fuel (Some o) ownershipRules = Some (inr t) →
  ∃ tree, t = Some tree.
Proof.
  destruct fuel as [|fuel]; [done|].
  intros (ref & secs & trees & _ & _ & _ & ->)%tree_step. by eexists.
Qed.

(** The recursion is at least as deep as every chain of ownership. *)
Lemma tree_chain fuel : ∀ o t n y,
  getObjectTreeFromCache cli fuel (Some o) ownershipRules = Some (inr t) →
  nsteps (owns cli ownershipRules) n o y → n < fuel.
Proof.
  induction fuel as [|fuel IH]; intros o t n y Hrun Hsteps; [done|].
  apply tree_step in Hrun as (ref & secs & trees & _ & Hsecs & Hall & _).
  inversion Hsteps as [|m ? s ? Hown Hrest]; simplify_eq; [lia|].
  apply (owns_secondaries _ _ _ Hsecs) in Hown.
  apply list_elem_of_lookup in Hown as [i Hi].
  destruct (Forall2_lookup_l _ _ _ _ _ Hall Hi) as (c & _ & Hbuild).
  pose proof (IH _ _ _ _ Hbuild Hrest). lia.
Qed.

Lemma tree_reach fuel : ∀ o t y,
  getObjectTreeFromCache cli fuel (Some o) ownershipRules = Some (inr t) →
  rtc (owns cli ownershipRules) o y →
  ∃ secs, getSecondaryObjectsOf cli y ownershipRules = inr secs.
Proof.
  induction fuel as [|fuel IH]; intros o t y Hrun Hreach; [done|].
  apply tree_step in Hrun as (ref & secs & trees & _ & Hsecs & Hall & _).
  apply rtc_inv in Hreach as [<-|(s & Hown & Hreach)]; [by eexists|].
  apply (owns_secondaries _ _ _ Hsecs) in Hown.
  apply list_elem_of_lookup in Hown as [i Hi].
  destruct (Forall2_lookup_l _ _ _ _ _ Hall Hi) as (c & _ & Hbuild).
  by eapply IH.
Qed.

Lemma tree_enough fuel : ∀ o,
  (∀ y, rtc (owns cli ownershipRules) o y →
        ∃ secs, getSecondaryObjectsOf cli y ownershipRules = inr secs) →
  (∀ n y, nsteps (owns cli ownershipRules) n o y → n < fuel) →
  ∃ t, getObjectTreeFromCache cli fuel (Some o) ownershipRules = Some (inr t).
Proof.
  induction fuel as [|fuel IH]; intros o Hgood Hdepth.
  { pose proof (Hdepth 0 o ltac:(constructor)). lia. }
  destruct (Hgood o ltac:(done)) as [secs Hsecs].
  destruct (proj2 (reference_iff_identity cli o)) as [ref Href].
  { unfold getObjectRef. unfold getSecondaryObjectsOf in Hsecs.
    destruct (GVKForObject cli o); [done|by eexists]. }
  assert (∃ trees,
            Forall2 (λ s c, getObjectTreeFromCache cli fuel (Some s)
                              ownershipRules = Some (inr c)) secs trees)
    as [trees Hall].
  { assert (∀ s, s ∈ secs → owns cli ownershipRules o s) as Hown
      by (intros s Hs; by apply (owns_secondaries _ _ _ Hsecs)).
    clear Hsecs. induction secs as [|s secs IHsecs]; [by exists []|].
    destruct IHsecs as [trees Hall].
    { intros s' Hs'. apply Hown. by right. }
    destruct (IH s) as [c Hc].
    - intros y Hy. apply Hgood. eapply rtc_l; [|done]. apply Hown. by left.
    - intros n y Hy.
      pose proof (Hdepth (S n) y) as Hlt.
      specialize (Hlt ltac:(eapply nsteps_l; [apply Hown; by left|done])).
      lia.
    - exists (c :: trees). by constructor. }
  eexists. apply tree_step. by exists ref, secs, trees.
Qed.

(** [getObjectTreeFromCache] returns a tree exactly when every object the
    root owns, directly or through other objects, has its secondaries
    queried successfully and the recursion budget exceeds the length of
    every chain of ownership from the root. *)
Theorem getObjectTreeFromCache_succeeds_iff fuel root :
  (∃ t, getObjectTreeFromCache cli fuel (Some root) ownershipRules
        = Some (inr t)) ↔
  (∀ y, rtc (owns cli ownershipRules) root y →
        ∃ secs, getSecondaryObjectsOf cli y ownershipRules = inr secs) ∧
  (∀ n y, nsteps (owns cli ownershipRules) n root y → n < fuel).
Proof.
  split.
  - intros [t Hrun]. split.
    + intros y Hy. by eapply tree_reach.
    + intros n y Hy. by eapply tree_chain.
  - intros [Hgood Hdepth]. by apply tree_enough.
Qed.

Lemma getObjectTreeFromCache_shape_aux fuel o t :
  getObjectTreeFromCache cli fuel (Some o) ownershipRules = Some (inr (Some t)) →
  ∃ ref secs trees,
    t = mkNode ref (Some <$> trees) ∧
    getObjectReference cli o = inr ref ∧
    getSecondaryObjectsOf cli o ownershipRules = inr secs ∧
    Forall2 (λ s c, getObjectTreeFromCache cli (pred fuel) (Some s)
                      ownershipRules = Some (inr (Some c))) secs trees.
Proof.
  intros Hrun. destruct fuel as [|fuel]; [done|].
  apply tree_step in Hrun as (ref & secs & trees & Href & Hsecs & Hall & Heq).
  exists ref, secs. simpl.
  assert (∃ cs, trees = Some <$> cs) as [cs ->].
  { clear Hsecs Heq. induction Hall as [|s c secs trees Hc _ [cs ->]];
      [by exists []|].
    apply tree_Some in Hc as [c' ->]. by exists (c' :: cs). }
  exists cs. split; [congruence|]. repeat (split; [done|]).
  apply Forall2_fmap_r in Hall. exact Hall.
Qed.

(** The tree of an object holds its reference, and one subtree for each of
    its secondaries, in their order: each is the tree of that secondary, and
    none is nil.  The tree of the nil object is nil. *)
Theorem getObjectTreeFromCache_shape fuel o t :
  getObjectTreeFromCache cli fuel (Some o) ownershipRules = Some (inr t) →
  getObjectTreeFromCache cli fuel None ownershipRules = Some (inr None) ∧
  ∃ ref secs trees,
    t = Some (mkNode ref (Some <$> trees)) ∧
    getObjectReference cli o = inr ref ∧
    getSecondaryObjectsOf cli o ownershipRules = inr secs ∧
    Forall2 (λ s c, getObjectTreeFromCache cli (pred fuel) (Some s)
                      ownershipRules = Some (inr (Some c))) secs trees.
Proof.
  intros Hrun. split; [by destruct fuel|].
  destruct (tree_Some _ _ _ Hrun) as [tree ->].
  apply getObjectTreeFromCache_shape_aux in Hrun
    as (ref & secs & trees & -> & ? & ? & ?).
  by exists ref, secs, trees.
Qed.

(** Any error the tree builder returns is the error of the query for the
    secondaries of the root or of an object it owns. *)
Lemma tree_error fuel : ∀ o err,
  getObjectTreeFromCache cli fuel (Some o) ownershipRules = Some (inl err) →
  ∃ y, rtc (owns cli ownershipRules) o y ∧
       getSecondaryObjectsOf cli y ownershipRules = inl err.
Proof.
  induction fuel as [|fuel IH]; intros o err Hrun; [done|].
  cbn [getObjectTreeFromCache] in Hrun.
  destruct (getObjectReference cli o) as [|reference] eqn:Href.
  { simplify_eq. exists o. split; [done|].
    unfold getObjectReference in Href. unfold getSecondaryObjectsOf.
    destruct (GVKForObject cli o); by simplify_eq. }
  destruct (GVKForObject cli o) as [|primaryGVK] eqn:Hgvk.
  { simplify_eq. exists o. split; [done|].
    unfold getSecondaryObjectsOf. by rewrite Hgvk. }
  destruct (matchRules cli primaryGVK ownershipRules [])
    as [|matchedRules] eqn:Hmatch.
  { simplify_eq. exists o. split; [done|].
    unfold getSecondaryObjectsOf. by rewrite Hgvk, Hmatch. }
  rewrite (secondaries_of_matched _ _ _ _ _ Hgvk Hmatch) in Hrun.
  destruct (getSecondaryObjectsOf cli o ownershipRules)
    as [|secondaries] eqn:Hsecs.
  { simplify_eq. by exists o. }
  destruct (subTrees _ _ _) as [[|trees]|] eqn:Hsub; try done.
  simplify_eq. apply subTrees_inl in Hsub as (s & Hs & Hbuild).
  destruct (IH _ _ Hbuild) as (y & Hreach & Hy). exists y. split; [|done].
  eapply rtc_l; [|done]. by apply (owns_secondaries _ _ _ Hsecs).
Qed.

(** The tree builder returns when ownership is well-founded: a recursion
    budget above the depth of the root is enough. *)
Theorem getObjectTreeFromCache_returns (depth : Object → nat) fuel root :
  (∀ o s, owns cli ownershipRules o s → depth s < depth o) →
  depth root < fuel →
  is_Some (getObjectTreeFromCache cli fuel (Some root) ownershipRules).
Proof.
  intros Hwf. revert root.
  induction fuel as [|fuel IH]; intros root Hdepth; [lia|].
  cbn [getObjectTreeFromCache].
  destruct (getObjectReference cli root) as [|reference]; [by eexists|].
  destruct (GVKForObject cli root) as [|primaryGVK] eqn:Hgvk; [by eexists|].
  destruct (matchRules cli primaryGVK ownershipRules [])
    as [|matchedRules] eqn:Hmatch; [by eexists|].
  rewrite (secondaries_of_matched _ _ _ _ _ Hgvk Hmatch).
  destruct (getSecondaryObjectsOf cli root ownershipRules)
    as [|secondaries] eqn:Hsecs; [by eexists|].
  destruct (subTrees_is_Some
              (λ secondary, getObjectTreeFromCache cli fuel (Some secondary)
                              ownershipRules) secondaries [])
    as [[err|trees] ->]; [|by eexists..].
  intros s Hs. apply IH.
  apply (owns_secondaries _ _ _ Hsecs) in Hs. apply Hwf in Hs. lia.
Qed.

(** *** The flat collector *)

Lemma iteration_inr obj (w w' : work Object) :
  iteration cli ownershipRules obj w = inr w' ↔
  ∃ objKey secondaries,
    getObjectRef cli obj = inr objKey ∧
    getSecondaryObjectsOf cli obj ownershipRules = inr secondaries ∧
    w' = mkWork (waitingList w ++ secondaries) ({[objKey]} ∪ objectSet w)
           (<[objKey:=obj]> (objectMap w)).
Proof.
  unfold iteration. split.
  - destruct (getObjectRef cli obj) as [|objKey]; [done|].
    destruct (getSecondaryObjectsOf cli obj ownershipRules) as [|secs];
      [done|].
    intros ?. simplify_eq. by eexists _, _.
  - by intros (objKey & secs & -> & -> & ->).
Qed.

Lemma iteration_inl obj (w : work Object) err :
  iteration cli ownershipRules obj w = inl err →
  getSecondaryObjectsOf cli obj ownershipRules = inl err.
Proof.
  unfold iteration, getObjectRef, getSecondaryObjectsOf.
  destruct (GVKForObject cli obj) as [|objGVK]; [intros ?; by simplify_eq|].
  destruct (matchRules cli objGVK ownershipRules []);
    [intros ?; by simplify_eq|].
  destruct (rulesObjects cli obj _ []); intros ?; by simplify_eq.
Qed.

(** The loop makes more turns than any chain of ownership is long. *)
Lemma drain_chain fuel : ∀ (w : work Object) r q n y,
  drain cli fuel ownershipRules w = Some (inr r) →
  q ∈ waitingList w → nsteps (owns cli ownershipRules) n q y → n < fuel.
Proof.
  induction fuel as [|fuel IH]; intros w r q n y Hrun Hq Hsteps.
  { simpl in Hrun. destruct (waitingList w); [|done].
    by apply elem_of_nil in Hq. }
  destruct (waitingList w) as [|obj rest] eqn:Hw;
    [by apply elem_of_nil in Hq|].
  rewrite (drain_cons _ _ _ _ obj rest Hw) in Hrun.
  destruct (iteration _ _ _ _) as [|w'] eqn:Hit; [done|].
  apply iteration_inr in Hit as (objKey & secs & _ & Hsecs & ->).
  simpl in *. apply elem_of_cons in Hq as [->|Hq].
  - inversion Hsteps as [|m ? s ? Hown Hrest]; simplify_eq; [lia|].
    apply (owns_secondaries _ _ _ Hsecs) in Hown.
    assert (m < fuel); [|lia].
    eapply (IH _ _ s); [done| |done]. simpl. apply elem_of_app. by right.
  - assert (n < fuel); [|lia].
    eapply (IH _ _ q); [done| |done]. simpl. apply elem_of_app. by left.
Qed.

Lemma drain_error fuel : ∀ (w : work Object) err,
  drain cli fuel ownershipRules w = Some (inl err) →
  ∃ q y, q ∈ waitingList w ∧ rtc (owns cli ownershipRules) q y ∧
         getSecondaryObjectsOf cli y ownershipRules = inl err.
Proof.
  induction fuel as [|fuel IH]; intros w err Hrun.
  { simpl in Hrun. by destruct (waitingList w). }
  destruct (waitingList w) as [|obj rest] eqn:Hw.
  { by rewrite (drain_nil _ _ _ _ Hw) in Hrun. }
  rewrite (drain_cons _ _ _ _ obj rest Hw) in Hrun.
  destruct (iteration _ _ _ _) as [err'|w'] eqn:Hit.
  - simplify_eq. apply iteration_inl in Hit.
    exists obj, obj. split; [by left|done].
  - apply iteration_inr in Hit as (objKey & secs & _ & Hsecs & ->).
    destruct (IH _ _ Hrun) as (q & y & Hq & Hreach & Hy). simpl in Hq.
    apply elem_of_app in Hq as [Hq|Hq].
    + exists q, y. split; [by right|done].
    + exists obj, y. split; [by left|]. split; [|done].
      eapply rtc_l; [|done]. by apply (owns_secondaries _ _ _ Hsecs).
Qed.

(** What the map of a finished loop holds under an identity: an object of
    that identity, reached from the waiting list, if it was not there
    before. *)
Lemma drain_map fuel : ∀ (w : work Object) set map k o,
  drain cli fuel ownershipRules w = Some (inr (set, map)) →
  map !! k = Some o →
  objectMap w !! k = Some o ∨
  (getObjectRef cli o = inr k ∧
   ∃ q, q ∈ waitingList w ∧ rtc (owns cli ownershipRules) q o).
Proof.
  induction fuel as [|fuel IH]; intros w set map k o Hrun Hk.
  { simpl in Hrun. destruct (waitingList w); [|done]. simplify_eq.
    by left. }
  destruct (waitingList w) as [|obj rest] eqn:Hw.
  { rewrite (drain_nil _ _ _ _ Hw) in Hrun. simplify_eq. by left. }
  rewrite (drain_cons _ _ _ _ obj rest Hw) in Hrun.
  destruct (iteration _ _ _ _) as [|w'] eqn:Hit; [done|].
  apply iteration_inr in Hit as (objKey & secs & Hkey & Hsecs & ->).
  destruct (IH _ _ _ _ _ Hrun Hk) as [Hold|(Hid & q & Hq & Hreach)];
    simpl in *.
  - apply lookup_insert_Some in Hold as [[<- <-]|[_ Hold]]; [|by left].
    right. split; [done|]. exists obj. split; [by left|done].
  - right. split; [done|]. apply elem_of_app in Hq as [Hq|Hq].
    + exists q. split; [by right|done].
    + exists obj. split; [by left|]. eapply rtc_l; [|done].
      by apply (owns_secondaries _ _ _ Hsecs).
Qed.

(** Every entry of the map that [getObjectsFromCache] returns holds, under
    an identity, an object that has this identity and that the root owns,
    directly or through other objects (or the root itself). *)
Theorem getObjectsFromCache_map_entries fuel root set map k o :
  getObjectsFromCache cli fuel root ownershipRules = Some (inr (set, map)) →
  map !! k = Some o →
  getObjectRef cli o = inr k ∧ rtc (owns cli ownershipRules) root o ∧ k ∈ set.
Proof.
  intros Hrun Hk. unfold getObjectsFromCache in Hrun.
  pose proof (drain_collects cli _ _ _ _ _ Hrun) as [_ Hdom].
  destruct (drain_map _ _ _ _ _ _ Hrun Hk) as [Hold|(Hid & q & Hq & Hreach)];
    simpl in *; [by rewrite lookup_empty in Hold|].
  apply list_elem_of_singleton in Hq as ->. split; [done|]. split; [done|].
  rewrite <- Hdom by (by rewrite dom_empty_L). apply elem_of_dom. by eexists.
Qed.

Lemma collectors_errors_come_from_queries_aux fuel root err :
  getObjectTreeFromCache cli fuel (Some root) ownershipRules = Some (inl err) ∨
  getObjectsFromCache cli fuel root ownershipRules = Some (inl err) →
  ∃ y, rtc (owns cli ownershipRules) root y ∧
       getSecondaryObjectsOf cli y ownershipRules = inl err.
Proof.
  intros [Hrun|Hrun]; [by eapply tree_error|].
  apply drain_error in Hrun as (q & y & Hq & Hreach & Hy). simpl in Hq.
  apply list_elem_of_singleton in Hq as ->. by exists y.
Qed.

(** Any error either collector returns is the error of the query for the
    secondaries of the root or of an object it owns. *)
Theorem collectors_errors_come_from_queries fuel root err :
  getObjectTreeFromCache cli fuel (Some root) ownershipRules = Some (inl err) ∨
  getObjectsFromCache cli fuel root ownershipRules = Some (inl err) →
  ∃ y, rtc (owns cli ownershipRules) root y ∧
       getSecondaryObjectsOf cli y ownershipRules = inl err.
Proof. apply collectors_errors_come_from_queries_aux. Qed.

(** Around a cycle there are chains of every length. *)
Lemma cycle_chains {A} (R : relation A) (root x : A) :
  rtc R root x → tc R x x → ∀ n, ∃ m y, n ≤ m ∧ nsteps R m root y.
Proof.
  intros [j Hj]%rtc_nsteps (k & Hk & Hcyc)%tc_nsteps n.
  assert (nsteps R (n * k) x x) as Hloop.
  { induction n as [|n IH]; simpl; [constructor|].
    by eapply nsteps_trans. }
  exists (j + n * k), x. split; [nia|]. by eapply nsteps_trans.
Qed.

(** When the root owns, directly or through other objects, an object that
    owns itself through some chain, neither collector ever returns a
    result; and when moreover no query for secondaries fails, neither ever
    returns at all. *)
Theorem collectors_diverge_on_cycle root x :
  rtc (owns cli ownershipRules) root x → tc (owns cli ownershipRules) x x →
  (∀ fuel t, getObjectTreeFromCache cli fuel (Some root) ownershipRules
             ≠ Some (inr t)) ∧
  (∀ fuel r, getObjectsFromCache cli fuel root ownershipRules
             ≠ Some (inr r)) ∧
  ((∀ y, rtc (owns cli ownershipRules) root y →
         ∃ secs, getSecondaryObjectsOf cli y ownershipRules = inr secs) →
   ∀ fuel,
     getObjectTreeFromCache cli fuel (Some root) ownershipRules = None ∧
     getObjectsFromCache cli fuel root ownershipRules = None).
Proof.
  intros Hreach Hcyc.
  assert (∀ fuel t, getObjectTreeFromCache cli fuel (Some root) ownershipRules
                    ≠ Some (inr t)) as Htree.
  { intros fuel t Hrun.
    destruct (cycle_chains _ _ _ Hreach Hcyc fuel) as (m & y & Hle & Hsteps).
    pose proof (tree_chain _ _ _ _ _ Hrun Hsteps). lia. }
  assert (∀ fuel r, getObjectsFromCache cli fuel root ownershipRules
                    ≠ Some (inr r)) as Hflat.
  { intros fuel r Hrun.
    destruct (cycle_chains _ _ _ Hreach Hcyc fuel) as (m & y & Hle & Hsteps).
    pose proof (drain_chain _ _ _ root _ _ Hrun ltac:(by left) Hsteps). lia. }
  split; [done|]. split; [done|]. intros Hgood fuel. split.
  - destruct (getObjectTreeFromCache cli fuel (Some root) ownershipRules)
      as [[err|t]|] eqn:Hrun; [|by destruct (Htree fuel t)|done].
    destruct (collectors_errors_come_from_queries_aux fuel root err)
      as (y & Hy & Herr); [by left|].
    destruct (Hgood y Hy). congruence.
  - destruct (getObjectsFromCache cli fuel root ownershipRules)
      as [[err|r]|] eqn:Hrun; [|by destruct (Hflat fuel r)|done].
    destruct (collectors_errors_come_from_queries_aux fuel root err)
      as (y & Hy & Herr); [by right|].
    destruct (Hgood y Hy). congruence.
Qed.

(** *** The turns of the flat loop and the nodes of the tree *)

Lemma primaries_children p (cs : list ObjectTreeNode) :
  length (primaries (mkNode p (Some <$> cs)))
  = S (sum_list ((λ c, length (primaries c)) <$> cs)).
Proof.
  induction cs as [|c cs IH]; [done|].
  cbn [primaries fmap list_fmap] in *. cbn [length sum_list sum_list_with] in *.
  rewrite length_app. injection IH as ->. done.
Qed.

Lemma primaries_nonempty (t : ObjectTreeNode) : 0 < length (primaries t).
Proof. destruct t. simpl. lia. Qed.

(** The loop succeeds within as many turns as the trees of the waiting
    objects have nodes. *)
Lemma drain_forest fuel : ∀ (w : work Object) f ts,
  Forall2 (λ o t, getObjectTreeFromCache cli f (Some o) ownershipRules
                  = Some (inr (Some t))) (waitingList w) ts →
  sum_list ((λ c, length (primaries c)) <$> ts) ≤ fuel →
  ∃ r, drain cli fuel ownershipRules w = Some (inr r).
Proof.
  induction fuel as [|fuel IH]; intros w f ts Hall Hsize.
  - destruct ts as [|t ts].
    + apply Forall2_nil_inv_r in Hall. rewrite (drain_nil _ _ _ _ Hall).
      by eexists.
    + pose proof (primaries_nonempty t). simpl in Hsize. lia.
  - destruct (waitingList w) as [|obj rest] eqn:Hw.
    { rewrite (drain_nil _ _ _ _ Hw). by eexists. }
    apply Forall2_cons_inv_l in Hall as (t & ts' & Ht & Hall & ->).
    rewrite (drain_cons _ _ _ _ obj rest Hw).
    pose proof Ht as Hshape.
    apply getObjectTreeFromCache_shape_aux in Hshape
      as (ref & secs & cs & Heq & Href & Hsecs & Hcs).
    destruct (proj1 (reference_iff_identity cli obj)) as [objKey Hkey];
      [by eexists|].
    unfold iteration. rewrite Hkey, Hsecs.
    apply (IH _ f (ts' ++ cs)); simpl.
    + apply Forall2_app; [done|].
      eapply Forall2_impl; [exact Hcs|]. intros s c Hc. simpl in Hc.
      apply (tree_mono (pred f)); [lia|exact Hc].
    + simplify_eq. rewrite fmap_cons in Hsize. cbn beta in Hsize.
      rewrite primaries_children in Hsize.
      cbn [sum_list_with] in Hsize.
      rewrite fmap_app, sum_list_with_app. unfold id in *. lia.
Qed.

(** A loop that succeeded made at least as many turns as the trees of the
    waiting objects have nodes; these trees exist. *)
Lemma drain_forest_inv fuel : ∀ (w : work Object) r,
  drain cli fuel ownershipRules w = Some (inr r) →
  ∃ f ts,
    Forall2 (λ o t, getObjectTreeFromCache cli f (Some o) ownershipRules
                    = Some (inr (Some t))) (waitingList w) ts ∧
    sum_list ((λ c, length (primaries c)) <$> ts) ≤ fuel.
Proof.
  induction fuel as [|fuel IH]; intros w r Hrun.
  { simpl in Hrun. destruct (waitingList w); [|done].
    exists 0, []. split; [constructor|done]. }
  destruct (waitingList w) as [|obj rest] eqn:Hw.
  { exists 0, []. split; [constructor|simpl; lia]. }
  rewrite (drain_cons _ _ _ _ obj rest Hw) in Hrun.
  destruct (iteration _ _ _ _) as [|w'] eqn:Hit; [done|].
  apply iteration_inr in Hit as (objKey & secs & Hkey & Hsecs & ->).
  destruct (IH _ _ Hrun) as (f & ts & Hall & Hsize). simpl in Hall.
  apply Forall2_app_inv_l in Hall as (ts1 & ts2 & Hall1 & Hall2 & ->).
  destruct (proj2 (reference_iff_identity cli obj)) as [ref Href];
    [by eexists|].
  exists (S f), (mkNode ref (Some <$> ts2) :: ts1). split.
  - constructor.
    + apply tree_step. exists ref, secs, (Some <$> ts2).
      repeat (split; [done|]). split; [|done]. by apply Forall2_fmap_r.
    + eapply Forall2_impl; [exact Hall1|]. intros s c Hc. simpl in Hc.
      apply (tree_mono f); [lia|exact Hc].
  - rewrite fmap_cons. cbn beta. rewrite primaries_children.
    rewrite fmap_app, sum_list_with_app in Hsize.
    cbn [sum_list_with]. unfold id in *. lia.
Qed.

(** [getObjectsFromCache] returns a result within [fuel] turns of its loop
    exactly when [getObjectTreeFromCache] returns a tree with at most [fuel]
    nodes: the loop makes one turn for each node of the tree, an object
    owned along several paths being taken up once for each path. *)
Theorem getObjectsFromCache_turns_are_tree_nodes fuel root :
  (∃ r, getObjectsFromCache cli fuel root ownershipRules = Some (inr r)) ↔
  (∃ f tree,
     getObjectTreeFromCache cli f (Some root) ownershipRules
     = Some (inr (Some tree)) ∧
     length (primaries tree) ≤ fuel).
Proof.
  unfold getObjectsFromCache. split.
  - intros [r Hrun].
    apply drain_forest_inv in Hrun as (f & ts & Hall & Hsize). simpl in Hall.
    apply Forall2_cons_inv_l in Hall as (t & ts' & Ht & Hall & ->).
    apply Forall2_nil_inv_l in Hall as ->.
    exists f, t. split; [done|]. simpl in Hsize. lia.
  - intros (f & tree & Htree & Hsize).
    apply (drain_forest _ _ f [tree]); simpl.
    + by repeat constructor.
    + lia.
Qed.

End builders.

(** *** On the fixture *)

Lemma objectRefToReference_round_trip_witness :
  objectReferenceToRef sampleClient
    (Some (objectRefToReference sampleClient podAKey "uid-pod-a" "1"))
  = inr (Some podAKey) ∧
  ref_UID (objectRefToReference sampleClient podAKey "uid-pod-a" "1")
  = "uid-pod-a" ∧
  ref_ResourceVersion (objectRefToReference sampleClient podAKey "uid-pod-a" "1")
  = "1".
Proof.
  apply (objectRefToReference_round_trip sampleClient podAKey). reflexivity.
Defined.

Lemma getObjectTreeFromCache_shape_witness :
  ∃ t,
    sampleTree 3 (Some TheCluster) sampleRules = Some (inr t) ∧
    sampleTree 3 None sampleRules = Some (inr None) ∧
    ∃ ref secs trees,
      t = Some (mkNode ref (Some <$> trees)) ∧
      getObjectReference sampleClient TheCluster = inr ref ∧
      getSecondaryObjectsOf sampleClient TheCluster sampleRules = inr secs ∧
      Forall2 (λ s c, getObjectTreeFromCache sampleClient 2 (Some s) sampleRules
                      = Some (inr (Some c))) secs trees.
Proof.
  assert (match sampleTree 3 (Some TheCluster) sampleRules with
          | Some (inr (Some tree)) => length (primaries tree)
          | _ => 0
          end = 5) as Hnodes by (vm_compute; reflexivity).
  destruct (sampleTree 3 (Some TheCluster) sampleRules)
    as [[err|t]|] eqn:Htree; try discriminate Hnodes.
  exists t. split; [reflexivity|].
  exact (getObjectTreeFromCache_shape sampleClient sampleRules 3 TheCluster t
           Htree).
Defined.

Lemma getObjectTreeFromCache_returns_witness :
  is_Some (getObjectTreeFromCache sampleClient 3 (Some TheCluster) sampleRules).
Proof.
  apply (getObjectTreeFromCache_returns sampleClient sampleRules sampleDepth 3
           TheCluster sampleRules_well_founded).
  simpl. lia.
Defined.

Lemma getObjectsFromCache_map_entries_witness :
  ∃ set map,
    sampleObjects 12 TheCluster sampleRules = Some (inr (set, map)) ∧
    map !! podAKey = Some PodA ∧
    getObjectRef sampleClient PodA = inr podAKey ∧
    rtc (owns sampleClient sampleRules) TheCluster PodA ∧ podAKey ∈ set.
Proof.
  assert (match sampleObjects 12 TheCluster sampleRules with
          | Some (inr (_, map)) => map !! podAKey
          | _ => None
          end = Some PodA) as Hk by (vm_compute; reflexivity).
  destruct (sampleObjects 12 TheCluster sampleRules)
    as [[err|[set map]]|] eqn:Hflat; try discriminate Hk.
  exists set, map. split; [reflexivity|]. split; [exact Hk|].
  exact (getObjectsFromCache_map_entries sampleClient sampleRules 12 TheCluster
           set map podAKey PodA Hflat Hk).
Defined.

Lemma collectors_errors_come_from_queries_witness :
  ∃ y, rtc (owns sampleClient brokenRules) TheCluster y ∧
       getSecondaryObjectsOf sampleClient y brokenRules
       = inl (ErrExternal "no such field").
Proof.
  apply (collectors_errors_come_from_queries sampleClient brokenRules 3
           TheCluster).
  left. vm_compute. reflexivity.
Defined.

Lemma collectors_diverge_on_cycle_witness :
  (∀ fuel t, getObjectTreeFromCache sampleClient fuel (Some PodA) cyclicRules
             ≠ Some (inr t)) ∧
  (∀ fuel r, getObjectsFromCache sampleClient fuel PodA cyclicRules
             ≠ Some (inr r)) ∧
  ((∀ y, rtc (owns sampleClient cyclicRules) PodA y →
         ∃ secs, getSecondaryObjectsOf sampleClient y cyclicRules = inr secs) →
   ∀ fuel,
     getObjectTreeFromCache sampleClient fuel (Some PodA) cyclicRules = None ∧
     getObjectsFromCache sampleClient fuel PodA cyclicRules = None).
Proof.
  apply (collectors_diverge_on_cycle sampleClient cyclicRules PodA PodA).
  - apply rtc_refl.
  - apply tc_once. exists [PodA; PodB]. split.
    + apply cyclic_secondaries. left. reflexivity.
    + apply list_elem_of_here.
Defined.

End ViewFacts.

(** * The SidecarDefinition controller: properties *)

Module SidecarFacts.
Import Sidecar.

Section facts.
Context {Rest Data : Type}.
Context (env : Env Rest Data).

(** ** The immutability check and the hash annotation *)

Lemma specHash_spec (sd1 sd2 : SidecarDefinition Rest) :
  sd_Spec sd1 = sd_Spec sd2 → specHash env sd1 = specHash env sd2.
Proof. unfold specHash. by intros ->. Qed.

Lemma skipImmutableCheck_annotations (sd1 sd2 : SidecarDefinition Rest) :
  annotation sd1 (SkipImmutableCheckAnnotationKey env)
  = annotation sd2 (SkipImmutableCheckAnnotationKey env) →
  skipImmutableCheck env sd1 = skipImmutableCheck env sd2.
Proof.
  unfold skipImmutableCheck, annotation.
  destruct (sd_Annotations sd1) as [a1|], (sd_Annotations sd2) as [a2|];
    intros Heq; try rewrite Heq; try rewrite <- Heq; done.
Qed.

(** The object [immutableHash] sends when it stamps. *)
Lemma stamped_annotations (sidecarDef : SidecarDefinition Rest) h key :
  annotation
    (withAnnotations sidecarDef
       (<[immutableHashAnnotationKey env := h]>
          (default ∅ (sd_Annotations sidecarDef)))) key
  = if decide (key = immutableHashAnnotationKey env) then Some h
    else annotation sidecarDef key.
Proof.
  unfold annotation. simpl. destruct (decide _) as [->|Hne].
  - by rewrite lookup_insert_eq.
  - rewrite lookup_insert_ne by done.
    by destruct (sd_Annotations sidecarDef).
Qed.

(** [immutableCheck] looks at nothing but the annotations and the spec. *)
Lemma immutableCheck_ext (sd1 sd2 : SidecarDefinition Rest) :
  (∀ key, annotation sd1 key = annotation sd2 key) →
  sd_Spec sd1 = sd_Spec sd2 →
  immutableCheck env sd1 = immutableCheck env sd2.
Proof.
  intros Hann Hspec. unfold immutableCheck.
  rewrite (skipImmutableCheck_annotations sd1 sd2 (Hann _)).
  by rewrite (specHash_spec sd1 sd2 Hspec), Hann.
Qed.

(** [immutableHash] either leaves the object alone and sends nothing, or
    stamps an object that is not exempt and has no hash yet, sends that one
    patch, and leaves what the patch call leaves. *)
Lemma immutableHash_cases (sidecarDef : SidecarDefinition Rest) :
  (immutableHash env sidecarDef = (sidecarDef, [], None) ∧
   (skipImmutableCheck env sidecarDef = true ∨
    is_Some (annotation sidecarDef (immutableHashAnnotationKey env)))) ∨
  (skipImmutableCheck env sidecarDef = false ∧
   annotation sidecarDef (immutableHashAnnotationKey env) = None ∧
   ∃ p,
     p = withAnnotations sidecarDef
           (<[immutableHashAnnotationKey env := (specHash env sidecarDef).1]>
              (default ∅ (sd_Annotations sidecarDef))) ∧
     immutableHash env sidecarDef
     = ((patched p (Patch env p)).1, [PatchCall p],
        (patched p (Patch env p)).2)).
Proof.
  unfold immutableHash.
  destruct (skipImmutableCheck env sidecarDef) eqn:Hskip; [left; by auto|].
  destruct (decide (is_Some _)) as [Hsome|Hnone]; [left; by auto|].
  right. split; [done|]. split; [by apply eq_None_not_Some|].
  eexists. split; [done|]. by destruct (patched _ _).
Qed.

(** The check on an object that carries the hash [h] and is not exempt. *)
Lemma immutableCheck_stamped (sidecarDef : SidecarDefinition Rest) h :
  skipImmutableCheck env sidecarDef = false →
  annotation sidecarDef (immutableHashAnnotationKey env) = Some h →
  immutableCheck env sidecarDef
  = match specHash env sidecarDef with
    | (_, Some err) => Some err
    | (newHashValue, None) =>
        if decide (newHashValue = h) then None else Some ErrImmutableFields
    end.
Proof.
  intros Hskip Hann. unfold immutableCheck. rewrite Hskip, Hann.
  destruct (specHash env sidecarDef) as [newHashValue [err|]]; [done|].
  destruct (decide (newHashValue = h)) as [->|Hne].
  - rewrite decide_False; [done|]. by intros [].
  - rewrite decide_True; [done|]. congruence.
Qed.

(** A check that passed on an object that is not exempt: the hash could be
    computed, and the object carries no other hash. *)
Lemma immutableCheck_passed (sidecarDef : SidecarDefinition Rest) :
  skipImmutableCheck env sidecarDef = false →
  immutableCheck env sidecarDef = None →
  (specHash env sidecarDef).2 = None ∧
  ∀ h, annotation sidecarDef (immutableHashAnnotationKey env) = Some h →
       h = (specHash env sidecarDef).1.
Proof.
  intros Hskip. unfold immutableCheck. rewrite Hskip.
  destruct (specHash env sidecarDef) as [newHashValue [err|]]; [done|].
  intros Hcheck. split; [done|]. intros h Hann. rewrite Hann in Hcheck.
  simpl. destruct (decide (h ≠ newHashValue)) as [|Heq]; [done|].
  by apply dec_stable in Heq.
Qed.

(** An exempt or a stamped object is left alone. *)
Lemma immutableHash_idle (q : SidecarDefinition Rest) :
  skipImmutableCheck env q = true ∨
  is_Some (annotation q (immutableHashAnnotationKey env)) →
  immutableHash env q = (q, [], None).
Proof.
  intros Hwhy. unfold immutableHash.
  destruct (skipImmutableCheck env q); [done|].
  destruct Hwhy as [?|Hsome]; [done|]. by rewrite decide_True.
Qed.

(** The object [p] that [immutableHash] has in hand after a check that
    passed: the object itself, or the object stamped. *)
Lemma immutableHash_local (sidecarDef p : SidecarDefinition Rest) :
  immutableHashAnnotationKey env ≠ SkipImmutableCheckAnnotationKey env →
  immutableCheck env sidecarDef = None →
  p = sidecarDef ∧
  (skipImmutableCheck env sidecarDef = true ∨
   is_Some (annotation sidecarDef (immutableHashAnnotationKey env))) ∨
  skipImmutableCheck env sidecarDef = false ∧
  annotation sidecarDef (immutableHashAnnotationKey env) = None ∧
  p = withAnnotations sidecarDef
        (<[immutableHashAnnotationKey env := (specHash env sidecarDef).1]>
           (default ∅ (sd_Annotations sidecarDef))) →
  sd_Name p = sd_Name sidecarDef ∧
  sd_Generation p = sd_Generation sidecarDef ∧
  sd_Spec p = sd_Spec sidecarDef ∧
  sd_Status p = sd_Status sidecarDef ∧
  (∀ key, key ≠ immutableHashAnnotationKey env →
          annotation p key = annotation sidecarDef key) ∧
  skipImmutableCheck env p = skipImmutableCheck env sidecarDef ∧
  (skipImmutableCheck env sidecarDef = false →
   annotation p (immutableHashAnnotationKey env)
   = Some (specHash env sidecarDef).1 ∧
   (specHash env sidecarDef).2 = None).
Proof.
  intros Hkeys Hcheck [[-> Hwhy]|(Hskip & Hnone & ->)].
  - repeat (split; [done|]). intros Hskip.
    destruct (immutableCheck_passed _ Hskip Hcheck) as [Hok Hhash].
    destruct Hwhy as [?|[h Hann]]; [congruence|].
    by rewrite Hann, (Hhash h Hann).
  - repeat (split; [done|]). split; [|split].
    + intros key Hkey. rewrite stamped_annotations.
      by rewrite decide_False by done.
    + apply skipImmutableCheck_annotations. rewrite stamped_annotations.
      by rewrite decide_False by done.
    + intros _. rewrite stamped_annotations.
      rewrite decide_True by done.
      by destruct (immutableCheck_passed _ Hskip Hcheck) as [Hok _].
Qed.

(** After validation has passed, [immutableHash] either sends nothing and
    leaves the object as it is, or sends one patch: the object [p] with the
    hash of its spec added to the annotations and nothing else changed (the
    dropped error of [specHash] cannot have occurred); it then leaves the
    server's answer, or [p] when the call failed.  Every object that has the
    annotations of [p] passes the check while it has the spec, is refused
    with a spec of another hash unless exempt, and is never stamped again,
    whatever its spec.  The two annotation keys are taken to differ. *)
Theorem immutableHash_protects (sidecarDef sidecarDef' : SidecarDefinition Rest)
    sent r :
  immutableHashAnnotationKey env ≠ SkipImmutableCheckAnnotationKey env →
  immutableCheck env sidecarDef = None →
  immutableHash env sidecarDef = (sidecarDef', sent, r) →
  ∃ p,
    (sent = [] ∧ p = sidecarDef ∧ sidecarDef' = sidecarDef ∧ r = None ∨
     sent = [PatchCall p] ∧
     skipImmutableCheck env sidecarDef = false ∧
     annotation sidecarDef (immutableHashAnnotationKey env) = None ∧
     (Patch env p = inr sidecarDef' ∧ r = None ∨
      ∃ err, Patch env p = inl err ∧ sidecarDef' = p ∧ r = Some err)) ∧
    sd_Name p = sd_Name sidecarDef ∧
    sd_Generation p = sd_Generation sidecarDef ∧
    sd_Spec p = sd_Spec sidecarDef ∧
    sd_Status p = sd_Status sidecarDef ∧
    (∀ key, key ≠ immutableHashAnnotationKey env →
            annotation p key = annotation sidecarDef key) ∧
    (skipImmutableCheck env sidecarDef = false →
     annotation p (immutableHashAnnotationKey env)
     = Some (specHash env sidecarDef).1 ∧
     (specHash env sidecarDef).2 = None) ∧
    ∀ q : SidecarDefinition Rest,
      (∀ key, annotation q key = annotation p key) →
      (sd_Spec q = sd_Spec sidecarDef → immutableCheck env q = None) ∧
      (skipImmutableCheck env sidecarDef = false →
       immutableCheck env q
       = match specHash env q with
         | (_, Some err) => Some err
         | (newHashValue, None) =>
             if decide (newHashValue = (specHash env sidecarDef).1) then None
             else Some ErrImmutableFields
         end) ∧
      immutableHash env q = (q, [], None).
Proof.
  intros Hkeys Hcheck Hrun.
  assert (∃ p,
            (sent = [] ∧ p = sidecarDef ∧ sidecarDef' = sidecarDef ∧ r = None ∨
             sent = [PatchCall p] ∧
             skipImmutableCheck env sidecarDef = false ∧
             annotation sidecarDef (immutableHashAnnotationKey env) = None ∧
             (Patch env p = inr sidecarDef' ∧ r = None ∨
              ∃ err, Patch env p = inl err ∧ sidecarDef' = p ∧ r = Some err)) ∧
            (p = sidecarDef ∧
             (skipImmutableCheck env sidecarDef = true ∨
              is_Some (annotation sidecarDef (immutableHashAnnotationKey env))) ∨
             skipImmutableCheck env sidecarDef = false ∧
             annotation sidecarDef (immutableHashAnnotationKey env) = None ∧
             p = withAnnotations sidecarDef
                   (<[immutableHashAnnotationKey env :=
                        (specHash env sidecarDef).1]>
                      (default ∅ (sd_Annotations sidecarDef)))))
    as (p & Hsent & Hp).
  { destruct (immutableHash_cases sidecarDef)
      as [[Hsame Hwhy]|(Hskip & Hnone & p & Hp & Hstamp)].
    - rewrite Hsame in Hrun. simplify_eq. exists sidecarDef'.
      split; left; by auto.
    - rewrite Hstamp in Hrun. exists p. split; [|right; by auto]. right.
      split; [congruence|]. split; [done|]. split; [done|].
      destruct (Patch env p) as [err|reply]; simpl in Hrun; simplify_eq.
      + right. by exists err.
      + by left. }
  exists p. split; [exact Hsent|].
  destruct (immutableHash_local sidecarDef p Hkeys Hcheck Hp)
    as (Hname & Hgen & Hspec & Hstatus & Hother & Hskip & Hhash).
  repeat (split; [done|]). intros q Hq.
  assert (skipImmutableCheck env q = skipImmutableCheck env sidecarDef)
    as Hskipq.
  { rewrite <- Hskip. by apply skipImmutableCheck_annotations. }
  assert (immutableCheck env p = None) as Hcheckp.
  { destruct (skipImmutableCheck env sidecarDef) eqn:Hs.
    - unfold immutableCheck. by rewrite Hskip.
    - destruct (Hhash eq_refl) as [Hann Hok].
      rewrite (immutableCheck_stamped p _ Hskip Hann).
      rewrite (specHash_spec p sidecarDef Hspec).
      destruct (specHash env sidecarDef) as [h [err|]]; [done|].
      simpl. by rewrite decide_True. }
  split; [|split].
  - intros Hq'. rewrite (immutableCheck_ext q p Hq); [done|congruence].
  - intros Hs. destruct (Hhash Hs) as [Hann _].
    apply immutableCheck_stamped; [congruence|]. by rewrite Hq.
  - apply immutableHash_idle.
    destruct (skipImmutableCheck env sidecarDef) eqn:Hs; [by left|].
    right. destruct (Hhash eq_refl) as [Hann _]. rewrite Hq, Hann.
    by eexists.
Qed.

(** ** Validation *)

Lemma checkSelectors_None selectors :
  checkSelectors env selectors = None ↔
  Forall (λ selector, ValidateDefNameRegexp env selector = None) selectors.
Proof.
  induction selectors as [|selector rest IH]; simpl.
  - split; [constructor|done].
  - rewrite Forall_cons.
    destruct (ValidateDefNameRegexp env selector); [|tauto].
    split; [done|]. by intros [? _].
Qed.

Lemma validateOwner_None (sidecarDef : SidecarDefinition Rest) :
  validateOwner env sidecarDef = None ↔
  spec_Owner (sd_Spec sidecarDef) ≠ EmptyString ∧
  ValidateDefNameRegexp env (spec_Owner (sd_Spec sidecarDef)) = None ∧
  ∃ items,
    ListComponentDefinitions env = inr items ∧
    ∃ compDef,
      compDef ∈ items ∧
      DefNameMatched env compDef (spec_Owner (sd_Spec sidecarDef)) = true.
Proof.
  unfold validateOwner.
  destruct (decide (String.length _ = 0)) as [Hlen|Hlen].
  { split; [done|]. intros [Hne _].
    by destruct (spec_Owner (sd_Spec sidecarDef)). }
  destruct (ValidateDefNameRegexp env _) as [err|].
  { split; [done|]. by intros (_ & ? & _). }
  destruct (ListComponentDefinitions env) as [err|items].
  { split; [done|]. by intros (_ & _ & ? & ? & _). }
  destruct (decide (Exists _ items)) as [Hex|Hex].
  - split; [|done]. intros _. split; [by intros Heq; rewrite Heq in Hlen|].
    split; [done|]. exists items. split; [done|].
    by apply Exists_exists in Hex.
  - split; [done|]. intros (_ & _ & items' & Heq & Hmatched).
    simplify_eq. destruct Hex. by apply Exists_exists.
Qed.

(** [validate] accepts exactly the objects with a non-empty, well-formed
    owner that matches some listed ComponentDefinition, well-formed
    selectors, and an immutability check that passes.
    [matchedCompDefinition] asks to reconcile exactly the listed sidecars
    whose owner or one of whose selectors the changed ComponentDefinition
    matches, and none for another kind of object or when the list cannot be
    read.  So every accepted sidecar that is listed is reconciled again
    whenever any ComponentDefinition matching its owner or a selector
    changes, and one such ComponentDefinition is listed. *)
Theorem validate_accepts_iff (sidecarDef : SidecarDefinition Rest) :
  (validate env sidecarDef = None ↔
   spec_Owner (sd_Spec sidecarDef) ≠ EmptyString ∧
   ValidateDefNameRegexp env (spec_Owner (sd_Spec sidecarDef)) = None ∧
   (∃ items,
      ListComponentDefinitions env = inr items ∧
      ∃ compDef,
        compDef ∈ items ∧
        DefNameMatched env compDef (spec_Owner (sd_Spec sidecarDef)) = true) ∧
   Forall (λ selector, ValidateDefNameRegexp env selector = None)
     (spec_Selectors (sd_Spec sidecarDef)) ∧
   immutableCheck env sidecarDef = None) ∧
  (matchedCompDefinition env None = [] ∧
   (∀ err compDef, ListSidecarDefinitions env = inl err →
                   matchedCompDefinition env (Some compDef) = []) ∧
   ∀ listed compDef name,
     ListSidecarDefinitions env = inr listed →
     (name ∈ matchedCompDefinition env (Some compDef) ↔
      ∃ s, s ∈ listed ∧ sd_Name s = name ∧
           (DefNameMatched env compDef (spec_Owner (sd_Spec s)) = true ∨
            ∃ selector, selector ∈ spec_Selectors (sd_Spec s) ∧
                        DefNameMatched env compDef selector = true))) ∧
  (validate env sidecarDef = None →
   ∀ listed, ListSidecarDefinitions env = inr listed → sidecarDef ∈ listed →
   (∃ items compDef,
      ListComponentDefinitions env = inr items ∧ compDef ∈ items ∧
      DefNameMatched env compDef (spec_Owner (sd_Spec sidecarDef)) = true) ∧
   ∀ compDef,
     DefNameMatched env compDef (spec_Owner (sd_Spec sidecarDef)) = true ∨
     (∃ selector, selector ∈ spec_Selectors (sd_Spec sidecarDef) ∧
                  DefNameMatched env compDef selector = true) →
     sd_Name sidecarDef ∈ matchedCompDefinition env (Some compDef)).
Proof.
  assert (validate env sidecarDef = None ↔
          validateOwner env sidecarDef = None ∧
          validateSelectors env sidecarDef = None ∧
          immutableCheck env sidecarDef = None) as Hsteps.
  { unfold validate. simpl.
    destruct (validateOwner env sidecarDef); [by split; [|intros [? _]]|].
    destruct (validateSelectors env sidecarDef);
      [by split; [|intros (_ & ? & _)]|].
    tauto. }
  assert (∀ listed compDef name,
            ListSidecarDefinitions env = inr listed →
            (name ∈ matchedCompDefinition env (Some compDef) ↔
             ∃ s, s ∈ listed ∧ sd_Name s = name ∧
                  (DefNameMatched env compDef (spec_Owner (sd_Spec s)) = true ∨
                   ∃ selector, selector ∈ spec_Selectors (sd_Spec s) ∧
                               DefNameMatched env compDef selector = true)))
    as Hmatched.
  { intros listed compDef name Hlisted. unfold matchedCompDefinition.
    rewrite Hlisted, list_elem_of_fmap.
    setoid_rewrite list_elem_of_filter. setoid_rewrite Exists_cons.
    setoid_rewrite Exists_exists. split.
    - intros (s & -> & Hwhy & Hs). by exists s.
    - intros (s & Hs & <- & Hwhy). by exists s. }
  rewrite Hsteps, validateOwner_None. unfold validateSelectors.
  rewrite checkSelectors_None. split; [tauto|]. split.
  - split; [done|]. split; [|done]. intros err compDef Herr.
    unfold matchedCompDefinition. by rewrite Herr.
  - intros ((_ & _ & items & Hitems & compDef & Hin & Hm) & _ & _)
      listed Hlisted Hsd.
    split; [by exists items, compDef|]. intros compDef' Hwhy.
    apply (Hmatched listed compDef' _ Hlisted). by exists sidecarDef.
Qed.

(** ** Reconcile *)

Lemma status_sent (sidecarDef sidecarDef' : SidecarDefinition Rest)
    phase message sent r :
  status env sidecarDef phase message = (sidecarDef', sent, r) →
  ∃ s,
    s = withStatus sidecarDef
          {| st_ObservedGeneration := sd_Generation sidecarDef;
             st_Phase := phase;
             st_Message := message;
             st_Owners := st_Owners (sd_Status sidecarDef);
             st_Selectors := st_Selectors (sd_Status sidecarDef) |} ∧
    sent = [StatusPatchCall s] ∧
    (StatusPatch env s = inr sidecarDef' ∧ r = None ∨
     ∃ err, StatusPatch env s = inl err ∧ sidecarDef' = s ∧ r = Some err).
Proof.
  unfold status. intros Hrun. eexists. split; [done|].
  destruct (StatusPatch env _) as [err|reply]; simpl in Hrun; simplify_eq.
  - split; [done|]. right. by exists err.
  - split; [done|]. by left.
Qed.

(** A reconciliation that ends with [Reconciled], the deletion handling
    having left the object [sd0].  Either [sd0] was already available and
    observed at its generation: then nothing was sent and [sd0] is left.  Or
    validation passed on [sd0], and what was sent is, in this order: what
    [immutableHash] sent (at most one patch, which stamps the hash of the
    spec), one status patch of an object [s] that is available and observed
    at its generation with an empty message, and one event; the object left
    is the server's answer to the status patch.  In both cases, when the
    object left is available and observed at its generation (as it is in
    the second case as soon as the server's answer has the generation and
    the status of [s]) and the deletion handling passes it unchanged,
    reconciling it sends nothing and ends with [Reconciled] again.  The two
    annotation keys are taken to differ. *)
Theorem Reconcile_converges (sidecarDef sidecarDef' : SidecarDefinition Rest)
    calls :
  immutableHashAnnotationKey env ≠ SkipImmutableCheckAnnotationKey env →
  Reconcile env (inr sidecarDef) = (Some sidecarDef', calls, Reconciled) →
  ∃ sd0,
    HandleCRDeletion env sidecarDef = (sd0, None) ∧
    ((calls = [] ∧ sidecarDef' = sd0 ∧
      st_ObservedGeneration (sd_Status sd0) = sd_Generation sd0 ∧
      st_Phase (sd_Status sd0) = AvailablePhase env) ∨
     (¬ (st_ObservedGeneration (sd_Status sd0) = sd_Generation sd0 ∧
         st_Phase (sd_Status sd0) = AvailablePhase env) ∧
      validate env sd0 = None ∧
      ∃ sd1 patches s,
        immutableHash env sd0 = (sd1, patches, None) ∧
        length patches ≤ 1 ∧
        Forall (λ c, ∃ p, c = PatchCall p ∧
                          annotation p (immutableHashAnnotationKey env)
                          = Some (specHash env p).1 ∧
                          (specHash env p).2 = None) patches ∧
        calls = patches ++ [StatusPatchCall s; CreatedEvent sidecarDef'] ∧
        sd_Name s = sd_Name sd1 ∧ sd_Generation s = sd_Generation sd1 ∧
        sd_Annotations s = sd_Annotations sd1 ∧ sd_Spec s = sd_Spec sd1 ∧
        st_ObservedGeneration (sd_Status s) = sd_Generation s ∧
        st_Phase (sd_Status s) = AvailablePhase env ∧
        st_Message (sd_Status s) = EmptyString ∧
        StatusPatch env s = inr sidecarDef' ∧
        (sd_Generation sidecarDef' = sd_Generation s →
         sd_Status sidecarDef' = sd_Status s →
         st_ObservedGeneration (sd_Status sidecarDef')
         = sd_Generation sidecarDef' ∧
         st_Phase (sd_Status sidecarDef') = AvailablePhase env))) ∧
    (st_ObservedGeneration (sd_Status sidecarDef') = sd_Generation sidecarDef' →
     st_Phase (sd_Status sidecarDef') = AvailablePhase env →
     HandleCRDeletion env sidecarDef' = (sidecarDef', None) →
     Reconcile env (inr sidecarDef') = (Some sidecarDef', [], Reconciled)).
Proof.
  intros Hkeys Hrun.
  assert (st_ObservedGeneration (sd_Status sidecarDef')
          = sd_Generation sidecarDef' →
          st_Phase (sd_Status sidecarDef') = AvailablePhase env →
          HandleCRDeletion env sidecarDef' = (sidecarDef', None) →
          Reconcile env (inr sidecarDef') = (Some sidecarDef', [], Reconciled))
    as Hagain.
  { intros Hgen Hphase Hdel. unfold Reconcile. rewrite Hdel.
    by rewrite decide_True. }
  unfold Reconcile in Hrun.
  destruct (HandleCRDeletion env sidecarDef) as [sd0 [[res err]|]] eqn:Hdel;
    [done|].
  exists sd0. split; [done|]. split; [|exact Hagain].
  destruct (decide (_ ∧ _)) as [[Hgen Hphase]|Hnot].
  { simplify_eq. by left. }
  right. split; [done|].
  destruct (validate env sd0) as [err|] eqn:Hval.
  { by destruct (unavailable env sd0 (Some err)) as [[? ?] [?|]]. }
  split; [done|].
  destruct (immutableHash env sd0) as [[sd1 patches] [err|]] eqn:Hhash;
    [done|].
  destruct (available env sd1) as [[sd2 sent'] [err|]] eqn:Hav; [done|].
  simplify_eq.
  apply status_sent in Hav as (s & Hs & -> & [[Hreply _]|(? & _ & _ & ?)]);
    [|done].
  assert (immutableCheck env sd0 = None) as Hcheck.
  { revert Hval. unfold validate. by destruct (firstError _ sd0). }
  exists sd1, patches, s. split; [done|].
  assert (length patches ≤ 1 ∧
          Forall (λ c, ∃ p, c = PatchCall p ∧
                            annotation p (immutableHashAnnotationKey env)
                            = Some (specHash env p).1 ∧
                            (specHash env p).2 = None) patches)
    as [Hlen Hpatches].
  { destruct (immutableHash_cases sd0)
      as [[Hsame _]|(Hskip & Hnone & p & Hp & Hstamp)].
    - rewrite Hsame in Hhash. simplify_eq. split; [simpl; lia|constructor].
    - rewrite Hstamp in Hhash. simplify_eq. split; [simpl; lia|].
      repeat constructor. eexists. split; [done|].
      rewrite stamped_annotations, decide_True by done.
      destruct (immutableCheck_passed _ Hskip Hcheck) as [Hok _].
      split; [reflexivity|exact Hok]. }
  split; [done|]. split; [done|]. split; [done|]. subst s. simpl.
  repeat (split; [done|]). intros Hgen Hstatus. by rewrite Hgen, Hstatus.
Qed.

(** ** The order of names *)

Lemma nameGt_lt a b : nameGt a b ↔ OrdersEx.String_as_OT.lt b a.
Proof.
  unfold nameGt.
  destruct (OrdersEx.String_as_OT.compare_spec a b) as [Heq|Hlt|Hgt].
  - split; [done|]. rewrite Heq. intros Hlt. exfalso.
    by apply (irreflexivity OrdersEx.String_as_OT.lt b).
  - split; [done|]. intros Hgt. exfalso.
    apply (irreflexivity OrdersEx.String_as_OT.lt a). by transitivity b.
  - done.
Qed.

Lemma nameLe_refl a : nameLe a a.
Proof.
  unfold nameLe. rewrite nameGt_lt.
  apply (irreflexivity OrdersEx.String_as_OT.lt).
Qed.

Lemma nameLe_total a b : nameLe a b ∨ nameLe b a.
Proof.
  unfold nameLe. rewrite !nameGt_lt.
  destruct (decide (nameGt a b)) as [Hgt|Hle].
  - right. apply nameGt_lt in Hgt. intros Hlt.
    apply (irreflexivity OrdersEx.String_as_OT.lt a). by transitivity b.
  - left. by rewrite <- nameGt_lt.
Qed.

Lemma nameLe_trans a b c : nameLe a b → nameLe b c → nameLe a c.
Proof.
  unfold nameLe. rewrite !nameGt_lt. intros Hab Hbc Hca.
  destruct (OrdersEx.String_as_OT.compare_spec a b) as [Heq|Hlt|Hgt].
  - apply Hbc. by rewrite <- Heq.
  - apply Hbc. by transitivity a.
  - done.
Qed.

Lemma nameLe_antisym a b : nameLe a b → nameLe b a → a = b.
Proof.
  unfold nameLe. rewrite !nameGt_lt. intros Hab Hba.
  by destruct (OrdersEx.String_as_OT.compare_spec a b).
Qed.

Lemma nameLe_gt a b c : nameLe a b → nameGt c b → nameLe a c.
Proof.
  unfold nameLe. rewrite !nameGt_lt. intros Hab Hbc Hca.
  apply Hab. by transitivity c.
Qed.

#[local] Instance nameLe_Total : Total nameLe.
Proof. intros a b. apply nameLe_total. Qed.

#[local] Instance nameLe_Transitive : Transitive nameLe.
Proof. intros a b c. apply nameLe_trans. Qed.

(** ** Which ComponentDefinitions host a sidecar *)

Lemma hosts_iff compDefs (sidecarDef : SidecarDefinition Rest) def :
  hosts env compDefs sidecarDef def ↔
  def ∈ compDefs ∧
  def ∈ Split env (st_Selectors (sd_Status sidecarDef)) ∧
  (∃ owner, owner ∈ compDefs ∧
            owner ∈ Split env (st_Owners (sd_Status sidecarDef))) ∧
  (∀ x, x ∈ compDefs →
        x ∈ Split env (st_Selectors (sd_Status sidecarDef)) →
        x ∉ Split env (st_Owners (sd_Status sidecarDef))).
Proof.
  unfold hosts, matchDefs.
  set (set := list_to_set compDefs : gset string).
  set (owners := list_to_set (Split env (st_Owners _)) : gset string).
  set (selectors := list_to_set (Split env (st_Selectors _)) : gset string).
  assert (∀ x, x ∈ set ↔ x ∈ compDefs) as Hset
    by (intros x; apply elem_of_list_to_set).
  assert (∀ x, x ∈ owners
               ↔ x ∈ Split env (st_Owners (sd_Status sidecarDef))) as Hown
    by (intros x; apply elem_of_list_to_set).
  assert (∀ x, x ∈ selectors
               ↔ x ∈ Split env (st_Selectors (sd_Status sidecarDef))) as Hsel
    by (intros x; apply elem_of_list_to_set).
  destruct (decide (size (set ∩ owners) = 0)) as [Hnone|Hsome].
  { apply size_empty_iff in Hnone. split.
    - intros (defs & ? & Hin). simplify_eq. by apply elem_of_nil in Hin.
    - intros (_ & _ & (o & Ho1 & Ho2) & _).
      assert (o ∈ set ∩ owners) as Hin
        by (apply elem_of_intersection; split;
            [by apply Hset|by apply Hown]).
      rewrite Hnone in Hin. by apply elem_of_empty in Hin. }
  apply size_non_empty_iff, set_choose in Hsome as [o Ho].
  apply elem_of_intersection in Ho as [Ho1%Hset Ho2%Hown].
  destruct (decide (size (set ∩ selectors) = 0)) as [Hnone|_].
  { apply size_empty_iff in Hnone. split.
    - intros (defs & ? & Hin). simplify_eq. by apply elem_of_nil in Hin.
    - intros (Hd1 & Hd2 & _).
      assert (def ∈ set ∩ selectors) as Hin
        by (apply elem_of_intersection; split;
            [by apply Hset|by apply Hsel]).
      rewrite Hnone in Hin. by apply elem_of_empty in Hin. }
  destruct (decide (size (set ∩ selectors ∩ (set ∩ owners)) ≠ 0))
    as [Hover|Hdisj].
  { apply size_non_empty_iff, set_choose in Hover as [x Hx].
    apply elem_of_intersection in Hx as [Hx1 Hx2].
    apply elem_of_intersection in Hx1 as [Hx1%Hset Hx3%Hsel].
    apply elem_of_intersection in Hx2 as [_ Hx2%Hown].
    split; [by intros (? & ? & _)|]. intros (_ & _ & _ & Hno).
    by destruct (Hno x). }
  apply dec_stable in Hdisj. apply size_empty_iff in Hdisj. split.
  - intros (defs & ? & Hin). simplify_eq.
    rewrite merge_sort_Permutation in Hin. apply elem_of_elements in Hin.
    apply elem_of_intersection in Hin as [Hd1%Hset Hd2%Hsel].
    split; [done|]. split; [done|]. split; [by exists o|].
    intros x Hx1 Hx2 Hx3.
    assert (x ∈ (set ∩ selectors) ∩ (set ∩ owners)) as Hin
      by (rewrite !elem_of_intersection, !Hset, Hsel, Hown; tauto).
    rewrite Hdisj in Hin. by apply elem_of_empty in Hin.
  - intros (Hd1 & Hd2 & _ & _). eexists. split; [done|].
    rewrite merge_sort_Permutation.
    apply elem_of_elements, elem_of_intersection.
    split; [by apply Hset|by apply Hsel].
Qed.

(** ** Grouping *)

Lemma default_lookup_Some {V}
    (grouped : gmap string (gmap string V)) def name e :
  default ∅ (grouped !! def) !! name = Some e →
  grouped !! def = Some (default ∅ (grouped !! def)).
Proof. destruct (grouped !! def); [done|]. simpl. by rewrite lookup_empty. Qed.

Lemma grouped_inv_empty : grouped_inv (Rest:=Rest) [] ∅.
Proof.
  split; [|split].
  - intros def sidecarDefs Hdef. by rewrite lookup_empty in Hdef.
  - intros def sidecarDefs name e Hdef. by rewrite lookup_empty in Hdef.
  - intros sidecarDef def Hin. by apply elem_of_nil in Hin.
Qed.

Lemma group_inv pairs grouped (sidecarDef : SidecarDefinition Rest) def :
  grouped_inv pairs grouped →
  grouped_inv (pairs ++ [(sidecarDef, def)]) (group sidecarDef grouped def).
Proof.
  intros (Hne & Hheld & Hmax). unfold group.
  set (sidecarDefs := default ∅ (grouped !! def)).
  set (name := spec_Name (sd_Spec sidecarDef)).
  assert (∀ n e, sidecarDefs !! n = Some e →
                 grouped !! def = Some sidecarDefs) as Hthere
    by (intros n e; apply default_lookup_Some).
  assert (∀ o,
            (∀ e, sidecarDefs !! name = Some e → o = e ∧
                  nameGt (sd_Name sidecarDef) (sd_Name e)) →
            grouped_inv (pairs ++ [(sidecarDef, def)])
              (<[def := <[name := sidecarDef]> sidecarDefs]> grouped))
    as Hinsert.
  { intros o Hold. split; [|split].
    - intros def' byName. destruct (decide (def' = def)) as [->|Hdef].
      + rewrite lookup_insert_eq. intros ?. simplify_eq.
        apply insert_non_empty.
      + rewrite lookup_insert_ne by done. apply Hne.
    - intros def' byName n e. destruct (decide (def' = def)) as [->|Hdef].
      + rewrite lookup_insert_eq. intros ?. simplify_eq.
        destruct (decide (n = name)) as [->|Hn].
        * rewrite lookup_insert_eq. intros ?. simplify_eq.
          split; [|done]. apply elem_of_app. right. by left.
        * rewrite lookup_insert_ne by done. intros He.
          destruct (Hheld def sidecarDefs n e) as [Hin Hname];
            [by eapply Hthere|done|].
          split; [|done]. apply elem_of_app. by left.
      + rewrite lookup_insert_ne by done. intros Hdef' He.
        destruct (Hheld def' byName n e) as [Hin Hname]; [done..|].
        split; [|done]. apply elem_of_app. by left.
    - intros sd' def' [Hin|Hin]%elem_of_app.
      + destruct (Hmax sd' def' Hin) as (byName & e & Hdef' & He & Hle).
        destruct (decide (def' = def)) as [->|Hdef].
        * assert (byName = sidecarDefs) as ->.
          { unfold sidecarDefs. by rewrite Hdef'. }
          exists (<[name := sidecarDef]> sidecarDefs).
          rewrite lookup_insert_eq.
          destruct (decide (spec_Name (sd_Spec sd') = name)) as [Heq|Hn].
          -- exists sidecarDef. rewrite Heq, lookup_insert_eq.
             split; [done|]. split; [done|].
             rewrite Heq in He. destruct (Hold e He) as [_ Hgt].
             by eapply nameLe_gt.
          -- exists e. rewrite lookup_insert_ne by done. done.
        * exists byName, e. by rewrite lookup_insert_ne by done.
      + apply list_elem_of_singleton in Hin. simplify_eq.
        exists (<[name := sidecarDef]> sidecarDefs), sidecarDef.
        rewrite !lookup_insert_eq. split; [done|]. split; [done|].
        apply nameLe_refl. }
  destruct (sidecarDefs !! name) as [o|] eqn:Ho.
  - destruct (decide (nameGt (sd_Name sidecarDef) (sd_Name o))) as [Hgt|Hle].
    + apply (Hinsert o). intros e ?. by simplify_eq.
    + pose proof (Hthere _ _ Ho) as Hdef. split; [done|]. split.
      * intros def' byName n e Hdef' He.
        destruct (Hheld def' byName n e) as [Hin Hname]; [done..|].
        split; [|done]. apply elem_of_app. by left.
      * intros sd' def' [Hin|Hin]%elem_of_app; [by apply Hmax|].
        apply list_elem_of_singleton in Hin. simplify_eq.
        by exists sidecarDefs, o.
  - apply (Hinsert sidecarDef). by intros e ?.
Qed.

Lemma foldl_group_inv (sidecarDef : SidecarDefinition Rest) defs :
  ∀ pairs grouped,
    grouped_inv pairs grouped →
    grouped_inv (pairs ++ ((λ def, (sidecarDef, def)) <$> defs))
      (foldl (group sidecarDef) grouped defs).
Proof.
  induction defs as [|def defs IH]; intros pairs grouped Hinv; simpl.
  - by rewrite app_nil_r.
  - rewrite cons_middle, (assoc_L (++)). apply IH. by apply group_inv.
Qed.

Lemma groupAll_inv compDefsSet items : ∀ pairs grouped grouped',
  grouped_inv pairs grouped →
  groupAll env compDefsSet items grouped = inr grouped' →
  ∃ pairs',
    grouped_inv pairs' grouped' ∧
    ∀ sidecarDef def,
      (sidecarDef, def) ∈ pairs' ↔
      (sidecarDef, def) ∈ pairs ∨
      (sidecarDef ∈ items ∧
       ∃ defs, matchDefs env compDefsSet sidecarDef = inr defs ∧ def ∈ defs).
Proof.
  induction items as [|item items IH]; intros pairs grouped grouped' Hinv Hrun;
    simpl in Hrun.
  - simplify_eq. exists pairs. split; [done|]. intros sd def. split; [by left|].
    intros [?|[Hin _]]; [done|]. by apply elem_of_nil in Hin.
  - destruct (matchDefs env compDefsSet item) as [|defs] eqn:Hdefs; [done|].
    destruct (IH _ _ _ (foldl_group_inv item defs _ _ Hinv) Hrun)
      as (pairs' & Hinv' & Hpairs).
    exists pairs'. split; [done|]. intros sd def. rewrite Hpairs.
    rewrite elem_of_app, list_elem_of_fmap, elem_of_cons. split.
    + intros [[?|(d & ? & Hd)]|(Hin & Hhost)].
      * by left.
      * simplify_eq. right. split; [by left|]. by exists defs.
      * right. split; [by right|done].
    + intros [?|([->|Hin] & ds & Hds & Hd)].
      * left. by left.
      * left. right. exists def. split; [done|]. congruence.
      * right. split; [done|]. by exists ds.
Qed.

(** ** Collecting *)

Lemma collect_inr (sidecarDefs : gmap string (SidecarDefinition Rest)) names :
  ∀ acc defs,
    collect env sidecarDefs names acc = inr defs ↔
    ∃ new, defs = acc ++ new ∧
           Forall2 (λ name e, sidecarDefs !! name = Some e ∧
                              upToDate env e = None) names new.
Proof.
  induction names as [|name names IH]; intros acc defs; simpl.
  - split.
    + intros ?. simplify_eq. exists []. by rewrite app_nil_r.
    + intros (new & -> & ->%Forall2_nil_inv_l). by rewrite app_nil_r.
  - destruct (sidecarDefs !! name) as [e|] eqn:He.
    + destruct (upToDate env e) as [err|] eqn:Hup.
      * split; [done|]. intros (new & _ & Hall).
        apply Forall2_cons_inv_l in Hall as (e' & ? & [? ?] & _).
        congruence.
      * rewrite IH. split.
        -- intros (new & -> & Hall). exists (e :: new).
           rewrite <- app_assoc. split; [done|]. by constructor.
        -- intros (new & -> & Hall).
           apply Forall2_cons_inv_l in Hall as (e' & new' & [? ?] & Hall & ->).
           exists new'. rewrite <- app_assoc. by simplify_eq.
    + split; [done|]. intros (new & _ & Hall).
      apply Forall2_cons_inv_l in Hall as (e' & ? & [? ?] & _). congruence.
Qed.

Lemma collectAll_inr entries : ∀ acc result,
  NoDup entries.*1 →
  collectAll env entries acc = inr result →
  ∀ compDef defs,
    result !! compDef = Some defs ↔
    (∃ sidecarDefs,
       (compDef, sidecarDefs) ∈ entries ∧
       collect env sidecarDefs
         (merge_sort nameLe (map_to_list sidecarDefs).*1) [] = inr defs) ∨
    ((compDef ∉ entries.*1) ∧ acc !! compDef = Some defs).
Proof.
  induction entries as [|[k m] entries IH]; intros acc result Hnd Hrun;
    simpl in Hrun.
  - simplify_eq. intros compDef defs. split.
    + intros ?. right. split; [|done]. by intros ?%elem_of_nil.
    + intros [(? & Hin & _)|[_ ?]]; [|done]. by apply elem_of_nil in Hin.
  - destruct (collect env m _ []) as [|ds] eqn:Hm; [done|].
    apply NoDup_cons in Hnd as [Hk Hnd]. simpl in Hk.
    intros compDef defs. rewrite (IH _ _ Hnd Hrun compDef defs).
    simpl. rewrite not_elem_of_cons. split.
    + intros [(m' & Hin & Hm')|[Hout Hacc]].
      * left. exists m'. split; [by right|done].
      * destruct (decide (compDef = k)) as [->|Hne].
        -- rewrite lookup_insert_eq in Hacc. simplify_eq.
           left. exists m. split; [by left|done].
        -- rewrite lookup_insert_ne in Hacc by done. by right.
    + intros [(m' & Hin & Hm')|[[Hne Hout] Hacc]].
      * apply elem_of_cons in Hin as [?|Hin].
        -- simplify_eq. right. split; [done|].
           rewrite lookup_insert_eq. congruence.
        -- left. by exists m'.
      * right. split; [done|]. by rewrite lookup_insert_ne.
Qed.

(** The names of a group in sorted order: strictly increasing. *)
Lemma sorted_names (sidecarDefs : gmap string (SidecarDefinition Rest)) :
  StronglySorted (λ a b, nameGt b a)
    (merge_sort nameLe (map_to_list sidecarDefs).*1) ∧
  ∀ name, name ∈ merge_sort nameLe (map_to_list sidecarDefs).*1 ↔
          is_Some (sidecarDefs !! name).
Proof.
  set (names := merge_sort nameLe (map_to_list sidecarDefs).*1).
  assert (names ≡ₚ (map_to_list sidecarDefs).*1) as Hperm
    by apply merge_sort_Permutation.
  assert (NoDup names) as Hnd.
  { rewrite Hperm. apply NoDup_fst_map_to_list. }
  assert (StronglySorted nameLe names) as Hsorted
    by apply (StronglySorted_merge_sort nameLe).
  split.
  - clearbody names. clear Hperm.
    induction Hsorted as [|a l Hsorted IH Hall]; [constructor|].
    apply NoDup_cons in Hnd as [Ha Hnd]. constructor; [by apply IH|].
    apply Forall_forall. intros b Hb.
    pose proof (proj1 (Forall_forall _ _) Hall b Hb) as Hle.
    destruct (decide (nameGt b a)) as [|Hba]; [done|].
    assert (a = b) as -> by (by apply nameLe_antisym). done.
  - intros name. rewrite Hperm, list_elem_of_fmap. split.
    + intros ([n e] & -> & Hin). apply elem_of_map_to_list in Hin.
      by exists e.
    + intros [e He]. exists (name, e). split; [done|].
      by apply elem_of_map_to_list.
Qed.

(** [matchedSidecarDef4CompDefs], when it succeeds.  A ComponentDefinition
    has an entry exactly when a listed sidecar is hosted by it.  Its entry
    lists sidecars that are listed, hosted by it and available, in strictly
    increasing order of their spec names; and for every listed sidecar
    hosted by it, the entry has a sidecar of the same spec name whose name
    is not smaller.  A sidecar is hosted by a ComponentDefinition asked for
    when its selectors name it, its owners name some ComponentDefinition
    asked for, and none asked for is named by both. *)
Theorem matchedSidecarDef4CompDefs_selects compDefs result :
  matchedSidecarDef4CompDefs env compDefs = inr result →
  ∃ items,
    ListSidecarDefinitions env = inr items ∧
    (∀ sidecarDef def,
       hosts env compDefs sidecarDef def ↔
       def ∈ compDefs ∧
       def ∈ Split env (st_Selectors (sd_Status sidecarDef)) ∧
       (∃ owner, owner ∈ compDefs ∧
                 owner ∈ Split env (st_Owners (sd_Status sidecarDef))) ∧
       (∀ x, x ∈ compDefs →
             x ∈ Split env (st_Selectors (sd_Status sidecarDef)) →
             x ∉ Split env (st_Owners (sd_Status sidecarDef)))) ∧
    (∀ compDef,
       is_Some (result !! compDef) ↔
       ∃ sidecarDef, sidecarDef ∈ items ∧
                     hosts env compDefs sidecarDef compDef) ∧
    ∀ compDef defs,
      result !! compDef = Some defs →
      StronglySorted
        (λ a b, nameGt (spec_Name (sd_Spec b)) (spec_Name (sd_Spec a))) defs ∧
      Forall (λ e, e ∈ items ∧ hosts env compDefs e compDef ∧
                   upToDate env e = None) defs ∧
      ∀ sidecarDef,
        sidecarDef ∈ items → hosts env compDefs sidecarDef compDef →
        ∃ e, e ∈ defs ∧
             spec_Name (sd_Spec e) = spec_Name (sd_Spec sidecarDef) ∧
             nameLe (sd_Name sidecarDef) (sd_Name e).
Proof.
  unfold matchedSidecarDef4CompDefs.
  destruct (ListSidecarDefinitions env) as [|items]; [done|].
  destruct (groupAll env _ items ∅) as [|grouped] eqn:Hgroup; [done|].
  intros Hrun. exists items. split; [done|]. split; [apply hosts_iff|].
  destruct (groupAll_inv _ _ _ _ _ grouped_inv_empty Hgroup)
    as (pairs & (Hne & Hheld & Hmax) & Hpairs).
  assert (∀ sd def, (sd, def) ∈ pairs ↔
                    sd ∈ items ∧ hosts env compDefs sd def) as Hpairs'.
  { intros sd def. rewrite Hpairs. split; [|by right].
    intros [Hin|?]; [|done]. by apply elem_of_nil in Hin. }
  pose proof (collectAll_inr _ _ _ (NoDup_fst_map_to_list grouped) Hrun)
    as Hresult.
  assert (∀ compDef defs,
            result !! compDef = Some defs ↔
            ∃ sidecarDefs,
              grouped !! compDef = Some sidecarDefs ∧
              Forall2 (λ name e, sidecarDefs !! name = Some e ∧
                                 upToDate env e = None)
                (merge_sort nameLe (map_to_list sidecarDefs).*1) defs)
    as Hentry.
  { intros compDef defs. rewrite Hresult. split.
    - intros [(m & Hin & Hm)|[_ Hacc]]; [|by rewrite lookup_empty in Hacc].
      apply elem_of_map_to_list in Hin.
      apply collect_inr in Hm as (new & -> & Hall). by exists m.
    - intros (m & Hm & Hall). left. exists m.
      split; [by apply elem_of_map_to_list|].
      apply collect_inr. by exists defs. }
  split.
  - intros compDef. split.
    + intros [defs (m & Hm & Hall)%Hentry].
      destruct (map_choose m (Hne _ _ Hm)) as (name & e & He).
      destruct (Hheld _ _ _ _ Hm He) as [Hin%Hpairs' _]. by exists e.
    + intros (sd & Hsd). apply Hpairs' in Hsd.
      destruct (Hmax _ _ Hsd) as (m & e & Hm & _).
      destruct (result !! compDef) as [defs|] eqn:Hres; [by eexists|].
      exfalso.
      assert (∃ err, collect env m
                       (merge_sort nameLe (map_to_list m).*1) []
                     = inl err) as [err Herr].
      { destruct (collect env m _ []) as [err|defs] eqn:Hm'; [by eexists|].
        assert (result !! compDef = Some defs) as Hsome; [|congruence].
        apply Hresult. left. exists m.
        split; [by apply elem_of_map_to_list|done]. }
      clear Hres. apply elem_of_map_to_list in Hm.
      revert Hrun Hm Herr. generalize (map_to_list grouped).
      generalize (∅ : gmap string (list (SidecarDefinition Rest))).
      intros acc entries. revert acc.
      induction entries as [|[k m'] entries IH]; intros acc Hrun Hin Herr;
        [by apply elem_of_nil in Hin|].
      simpl in Hrun. apply elem_of_cons in Hin as [?|Hin].
      * simplify_eq. by rewrite Herr in Hrun.
      * destruct (collect env m' _ []); [done|]. by eapply IH.
  - intros compDef defs (m & Hm & Hall)%Hentry.
    destruct (sorted_names m) as [Hsorted Hnames].
    assert (Forall2 (λ name e, spec_Name (sd_Spec e) = name ∧
                               (e, compDef) ∈ pairs ∧
                               upToDate env e = None)
              (merge_sort nameLe (map_to_list m).*1) defs) as Hall'.
    { eapply Forall2_impl; [exact Hall|]. intros name e [He Hup].
      destruct (Hheld _ _ _ _ Hm He) as [Hin Hname]. done. }
    split; [|split].
    + assert (merge_sort nameLe (map_to_list m).*1
              = (λ e, spec_Name (sd_Spec e)) <$> defs) as Heq.
      { clear Hall Hsorted Hnames.
        induction Hall' as [|name e names defs [Hname _] _ IH]; [done|].
        simpl. by rewrite Hname, IH. }
      rewrite Heq in Hsorted. clear Heq Hall Hall' Hnames.
      induction defs as [|e defs IH]; [constructor|].
      apply StronglySorted_cons in Hsorted as [Hhd Htl].
      constructor; [by apply IH|]. by apply Forall_fmap in Hhd.
    + apply Forall_forall. intros e He.
      apply list_elem_of_lookup in He as [i Hi].
      destruct (Forall2_lookup_r _ _ _ _ _ Hall' Hi)
        as (name & _ & _ & [? ?]%Hpairs' & ?).
      done.
    + intros sd Hsd Hhost.
      destruct (Hmax sd compDef) as (m' & e & Hm' & He & Hle);
        [by apply Hpairs'|].
      simplify_eq.
      assert (spec_Name (sd_Spec sd)
              ∈ merge_sort nameLe (map_to_list m).*1) as Hin
        by (apply Hnames; by eexists).
      apply list_elem_of_lookup in Hin as [i Hi].
      destruct (Forall2_lookup_l _ _ _ _ _ Hall Hi) as (e' & He' & He'' & _).
      simplify_eq. exists e. split; [by eapply list_elem_of_lookup_2|].
      split; [|done]. by destruct (Hheld _ _ _ _ Hm He).
Qed.

End facts.

Lemma immutableHash_protects_witness :
  ∃ p,
    immutableHash sampleEnv sampleSidecar = (p, [PatchCall p], None) ∧
    sd_Name p = "exporter-1" ∧ sd_Generation p = 1%Z ∧
    annotation p "apps.kubeblocks.io/immutable-hash"
    = Some "11111111111111" ∧
    immutableCheck sampleEnv p = None ∧
    immutableCheck sampleEnv
      (withSpec p (mkSpec "exporter" "postgresql" [] ()))
    = Some ErrImmutableFields ∧
    immutableHash sampleEnv
      (withSpec p (mkSpec "exporter" "postgresql" [] ()))
    = (withSpec p (mkSpec "exporter" "postgresql" [] ()), [], None).
Proof.
  destruct (immutableHash_protects sampleEnv sampleSidecar _ _ _
              ltac:(done) eq_refl eq_refl)
    as (p & Hsent & Hname & Hgen & Hspec & _ & _ & Hhash & Hlater).
  destruct Hsent as [(Hnil & _)|(Hone & _)]; [discriminate Hnil|].
  exists p. split; [injection Hone as Hp; by rewrite <- Hp|].
  destruct (Hhash eq_refl) as [Hann _].
  split; [exact Hname|]. split; [exact Hgen|]. split; [exact Hann|].
  split; [apply (Hlater p (λ _, eq_refl)); exact Hspec|].
  pose proof (Hlater (withSpec p (mkSpec "exporter" "postgresql" [] ()))
                (λ _, eq_refl)) as (_ & Hcheck & Hidle).
  split; [|exact Hidle]. rewrite (Hcheck eq_refl). reflexivity.
Defined.

Lemma validate_accepts_iff_witness :
  validate sampleEnv (listedSidecar "exporter-1" "exporter" "redis,postgres")
  = None ∧
  "exporter-1" ∈ matchedCompDefinition sampleEnv (Some "mysql") ∧
  ("exporter-1" ∉ matchedCompDefinition sampleEnv (Some "redis")).
Proof.
  pose proof (validate_accepts_iff sampleEnv
                (listedSidecar "exporter-1" "exporter" "redis,postgres"))
    as (Hiff & (_ & _ & Hmatched) & Henqueue).
  assert (validate sampleEnv
            (listedSidecar "exporter-1" "exporter" "redis,postgres") = None)
    as Hval by reflexivity.
  split; [exact Hval|]. split.
  - apply (Henqueue Hval sampleListed eq_refl); [by left|by left].
  - rewrite (Hmatched sampleListed "redis" "exporter-1" eq_refl).
    intros (s & Hs & _ & Hwhy).
    repeat (apply elem_of_cons in Hs as [->|Hs];
            [by destruct Hwhy as [?|(? & ?%elem_of_nil & _)]|]).
    by apply elem_of_nil in Hs.
Defined.

Lemma Reconcile_converges_witness :
  ∃ sidecarDef' calls,
    Reconcile sampleEnv (inr sampleSidecar)
    = (Some sidecarDef', calls, Reconciled) ∧
    length calls = 3 ∧
    st_Phase (sd_Status sidecarDef') = "Available" ∧
    Reconcile sampleEnv (inr sidecarDef') = (Some sidecarDef', [], Reconciled).
Proof.
  eexists _, _. split; [reflexivity|]. split; [reflexivity|].
  split; [reflexivity|].
  destruct (Reconcile_converges sampleEnv sampleSidecar _ _
              ltac:(done) eq_refl) as (sd0 & _ & _ & Hagain).
  apply Hagain; reflexivity.
Defined.

Lemma matchedSidecarDef4CompDefs_selects_witness :
  ∃ result defs,
    matchedSidecarDef4CompDefs sampleEnv ["mysql"; "redis"] = inr result ∧
    result !! "redis" = Some defs ∧
    sd_Name <$> defs = ["exporter-2"; "logger-1"] ∧
    StronglySorted
      (λ a b, nameGt (spec_Name (sd_Spec b)) (spec_Name (sd_Spec a))) defs ∧
    Forall (λ e, e ∈ sampleListed ∧
                 hosts sampleEnv ["mysql"; "redis"] e "redis" ∧
                 upToDate sampleEnv e = None) defs.
Proof.
  assert (match matchedSidecarDef4CompDefs sampleEnv ["mysql"; "redis"] with
          | inr result => sd_Name <$> default [] (result !! "redis")
          | inl _ => []
          end = ["exporter-2"; "logger-1"]) as Hnames
    by (vm_compute; reflexivity).
  destruct (matchedSidecarDef4CompDefs sampleEnv ["mysql"; "redis"])
    as [err|result] eqn:Hrun; [discriminate Hnames|].
  destruct (result !! "redis") as [defs|] eqn:Hdefs; [|discriminate Hnames].
  exists result, defs. split; [reflexivity|]. split; [exact Hdefs|].
  split; [exact Hnames|].
  destruct (matchedSidecarDef4CompDefs_selects sampleEnv ["mysql"; "redis"]
              result Hrun) as (items & Hitems & _ & _ & Hentry).
  injection Hitems as <-.
  destruct (Hentry "redis" defs Hdefs) as (Hsorted & Hall & _).
  split; [exact Hsorted|exact Hall].
Defined.

End SidecarFacts.
